(** * xbot: mention ingestion and response pipeline

    A shallow embedding of the bot-noise classifier
    ([src/twitter-known-bots.ts]), the mention fetcher
    ([getTwitterUserIdMentions]), the thread resolver
    ([resolveMessageThread]) and the cursor handling of the control loop
    ([main]), followed by the properties the specification states about
    them.

    Asynchronous calls are run in program order. Loops that need not end
    (the fetch loop, the walks along parent and reply references) take
    fuel and answer [None] when it runs out. Calls to collaborators are
    recorded as effects, in order. An awaited call whose rejection the
    calling function catches itself (the cache write of the fetcher, the
    calls after a batch and inside the [catch] of the control loop) either
    resolves or is rejected, as the collaborator decides; a rejection that
    would leave the function is not followed. *)

From Stdlib Require Import Ascii NArith Sorted.
From stdpp Require Import base decidable option list gmap strings.

(** ** JavaScript values used throughout *)

(** A value of type [string | undefined] is an [option string]; [None] is
    [undefined]. *)

(** JavaScript truthiness of a [string | undefined]: [undefined] and the
    empty string are falsy, every other string (also ["0"]) is truthy. *)
Definition truthy (v : option string) : bool :=
  match v with
  | None => false
  | Some s => negb (String.eqb s "")
  end.

(** ** The bot-noise classifier *)

Module KnownBots.

(** [String.prototype.toLowerCase] on the code units [A]..[Z]; user names
    are ASCII, every other code unit is left as it is. *)
Definition lowerChar (c : ascii) : ascii :=
  let n := N_of_ascii c in
  if (65 <=? n)%N && (n <=? 90)%N then ascii_of_N (n + 32) else c.

Fixpoint toLowerCase (s : string) : string :=
  match s with
  | EmptyString => EmptyString
  | String c s' => String (lowerChar c) (toLowerCase s')
  end.

(** The array literal of [twitterKnownBots], in source order (with its
    repeated entry). *)
Definition knownBotNames : list string :=
  [ "threadreaderapp"; "SaveToNotion"; "ChatGPTBot"; "AskDexa"; "PingThread";
    "readwiseio"; "threader"; "unrollthread"; "ReplyGPT"; "ChatSonicAI";
    "dustyplaylist"; "pikaso_me"; "RemindMe_OfThis"; "SaveMyVideo";
    "QuotedReplies"; "poet_this"; "MakeItAQuote"; "colorize_bot";
    "DearAssistant"; "WhatTheFare"; "wayback_exe"; "TayTweets";
    "deepquestionbot"; "MoMARobot"; "phasechase"; "poem_exe"; "desires_exe";
    "HundredZeros"; "dscovr_epic"; "MagicRealismBot"; "MuseumBot";
    "TwoHeadlines"; "pentametron"; "earthquakebot"; "_grammar_";
    "netflix_bot"; "redbox_bot"; "nicetipsbot"; "the_ephemerides";
    "year_progress"; "IFindPlanets"; "emojimashupbot"; "translatorbot";
    "MetaculusAlert"; "hashtagify"; "GooogleFactss"; "Timer";
    "DownloaderBot"; "QuakesToday"; "Savevidbot"; "Growthoid";
    "greatartbot"; "Stupidcounter"; "everyword"; "fuckeveryword";
    "big_ben_clock"; "LetKanyeFinish"; "RedScareBot"; "EnjoyTheFilm";
    "DBZNappa"; "Exosaurs"; "exoslash"; "BloombrgNewsish"; "AutoCharts";
    "HottestStartups"; "metaphorminute"; "unchartedatlas";
    "YesYoureRacist"; "YesYoureSexist"; "accidental575"; "EarthRoverBot";
    "happened_today"; "anagramatron"; "pentametron"; "stealthmountain";
    "SortingBot"; "flycolony"; "chernobylstatus"; "blitz_bot_test";
    "unescobot"; "wahlumfrageBot"; "NeonaziWallets"; "LatencyAt";
    "teololstoy"; "trumpretruth"; "UnrollHelper"; "bot4thread" ].

(** [new Set(names.map((s) => s.toLowerCase()))] *)
Definition twitterKnownBots : gset string :=
  list_to_set (toLowerCase <$> knownBotNames).

Definition isKnownTwitterBot (username : string) : bool :=
  bool_decide (toLowerCase username ∈ twitterKnownBots).

(** [/pat$/.test(s)] for a literal [pat]: the search tries every start
    position from the left, and at a position the literal has to be
    followed by the end of the input ([$] without the [m] flag). *)
Fixpoint testSuffixRegex (pat s : string) : bool :=
  String.eqb s pat ||
  match s with
  | EmptyString => false
  | String _ s' => testSuffixRegex pat s'
  end.

Definition isLikelyTwitterBot (username : string) : bool :=
  let username := toLowerCase username in
  if isKnownTwitterBot username then true
  else if testSuffixRegex "bot" username then true
  else if testSuffixRegex "gpt" username then true
  else if testSuffixRegex "status" username then true
  else false.

(** What the specification calls a suffix: [s] ends with [suf]. *)
Definition endsWith (suf s : string) : Prop := ∃ pre, s = pre +:+ suf.

End KnownBots.

(** ** Tweet identifiers and their order *)

Module TwitterUtils.

(** Modelled from the spec: the order of the "numeric-string ordered"
    identifiers ([twitter-utils.ts] is not among the sources). A shorter
    string is the smaller number, strings of one length compare code unit
    by code unit; on numerals without leading zero this is the order of
    the numbers ([numLtb_numeric] below). *)
Definition numLtb (a b : string) : bool :=
  match Nat.compare (String.length a) (String.length b) with
  | Lt => true
  | Gt => false
  | Eq => String.ltb a b
  end.

(** Modelled from the spec: [maxTwitterId] of [twitter-utils.ts], which is
    not among the sources. The spec calls identifiers "platform-native,
    numeric-string ordered" and merges cursors with a maximum; an absent
    identifier ([undefined] or the empty string) is below every identifier,
    and the first argument wins a tie. *)
Definition maxTwitterId (a b : option string) : option string :=
  match truthy a, truthy b with
  | false, false => None
  | false, true => b
  | true, false => a
  | true, true =>
      if numLtb (default "" a) (default "" b) then b else a
  end.

(** The numeric string an optional identifier stands for; absent
    identifiers stand for the empty string, the least numeric string. *)
Definition idKey (v : option string) : string :=
  if truthy v then default "" v else "".

Definition numLe (a b : string) : Prop := numLtb b a = false.

(** [idLe a b]: identifier [a] is at most identifier [b]. *)
Definition idLe (a b : option string) : Prop := numLe (idKey a) (idKey b).

(** [a] and [b] denote the same identifier. *)
Definition idEq (a b : option string) : Prop := idKey a = idKey b.

(** The number a decimal numeral denotes, most significant digit first;
    [None] when a code unit is not a digit. *)
Definition digitOf (c : ascii) : option N :=
  let n := N_of_ascii c in
  if (48 <=? n)%N && (n <=? 57)%N then Some (n - 48)%N else None.

Fixpoint decimalValue (s : string) : option N :=
  match s with
  | EmptyString => Some 0%N
  | String c s' =>
      match digitOf c, decimalValue s' with
      | Some d, Some v => Some (d * 10 ^ N.of_nat (String.length s') + v)%N
      | _, _ => None
      end
  end.

(** An identifier as the platform writes it: a decimal numeral without a
    leading zero. *)
Definition isNumeral (s : string) : bool :=
  match s with
  | EmptyString => false
  | String c s' =>
      match decimalValue s with
      | Some _ => negb (Ascii.eqb c "0") || String.eqb s' ""
      | None => false
      end
  end.

#[global] Instance numLe_dec : RelDecision numLe.
Proof. intros a b. unfold numLe. apply _. Defined.

#[global] Instance idLe_dec : RelDecision idLe.
Proof. intros a b. unfold idLe. apply _. Defined.

End TwitterUtils.

Import TwitterUtils.

(** ** The records of [src/types.ts] *)

Module Types.

Record ReferencedTweet := {
  ref_type : string;
  ref_id : string }.

(** The fields of a remote post the pipeline reads. An absent
    [referenced_tweets] is the empty list. *)
Record Tweet := {
  tweet_id : string;
  tweet_text : string;
  referenced_tweets : list ReferencedTweet }.

Record TwitterUser := {
  user_id : string;
  user_username : string }.

(** The fields of a conversation turn the thread resolver reads. *)
Record Message := {
  msg_id : string;
  prompt : string;
  promptTweetId : string;
  response : option string;
  parentMessageId : option string;
  error : option string }.

Record TweetMentionFetchResult := {
  mentions : list Tweet;
  users : gmap string TwitterUser;
  tweets : gmap string Tweet;
  sinceMentionId : option string }.

(** The fields of a batch the control loop reads. *)
Record TweetMentionBatch := {
  batch_sinceMentionId : option string;
  hasTwitterRateLimitError : bool;
  hasTwitterAuthError : bool;
  hasNetworkError : bool }.

(** The mutable cursor and the flags of [Context]; an absent
    [debugTweetIds] is the empty list. *)
Record Context := {
  ctx_sinceMentionId : option string;
  dryRun : bool;
  noCache : bool;
  earlyExit : bool;
  resolveAllMentions : bool;
  debugTweetIds : list string }.

(** [ctx.sinceMentionId = v] *)
Definition withSinceMentionId (ctx : Context) (v : option string) : Context :=
  {| ctx_sinceMentionId := v;
     dryRun := dryRun ctx;
     noCache := noCache ctx;
     earlyExit := earlyExit ctx;
     resolveAllMentions := resolveAllMentions ctx;
     debugTweetIds := debugTweetIds ctx |}.

End Types.

Import Types.

(** ** The mention fetcher *)

Module Mentions.

(** A page of the mention timeline; an absent [data], [includes.users] or
    [includes.tweets] is the empty list (the code only tests their
    [length]). *)
Record Page := {
  page_data : list Tweet;
  page_users : list TwitterUser;
  page_tweets : list Tweet }.

(** What the remote client throws. *)
Record ApiError := {
  err_status : option nat;
  err_message : string }.

(** Modelled from the spec: the error classes of [BotErrorType]
    ([bot-error.ts] is not among the sources), after the taxonomy of the
    spec's error handling design. *)
Inductive BotErrorType :=
  | TwitterRateLimit
  | TwitterAuth
  | Network
  | TwitterForbidden
  | AnswerEngineFailure
  | TwitterUnknown.

Record BotError := {
  bot_message : string;
  bot_type : BotErrorType;
  bot_cause : ApiError }.

(** One run of the async iterator [twitter.usersIdMentions(...)]: the pages
    it yields, and the error the remote client throws after them, if any
    (an error on creating the query is a failure after no page). *)
Record QueryRun := {
  pages : list Page;
  failure : option ApiError }.

(** The effects of a call, in the order they happen: the reads and writes
    of [db], the queries sent to the mention timeline and the pages it
    answered with, and what is logged about a query. A write of a page to
    the cache that is rejected is followed by [DbRejected]. The record
    values of the final flush are carried as the maps themselves
    ([Object.values] of them, in whatever order). *)
Inductive Effect :=
  | DbGetCachedUserMentions (userId sinceMentionId : string)
  | ApiUsersIdMentions (userId : string) (since_id : option string)
  | ApiPage (page : Page)
  | DbUpsertTweetMentions (userId : string) (data : list Tweet)
  | DbRejected (err : ApiError)
  | LogQueryStats (numMentionsInQuery numPagesInQuery : nat)
  | LogFetchError (err : ApiError)
  | DbUpsertTweets (values : gmap string Tweet)
  | DbUpsertTwitterUsers (values : gmap string TwitterUser).

(** The collaborators of the fetcher that are not among the sources, taken
    as parameters: the cached-mention lookup of [db], the remote mention
    timeline (its answer to the [n]-th query of a call, for a user and a
    [since_id]), the write of a page to the cache (line 90, awaited inside
    the [try]: it resolves, [None], or is rejected with an error, and may
    depend on the effects so far) and the classifier of known remote
    errors, which throws a [BotError] ([Some]) or returns ([None]).

    A rejection of [usersIdMentionsThrottleWorkaround] (lines 68 and 113)
    is caught like a failure of the iterator at that point, and is a
    [failure] of the [QueryRun]. The cache lookup (line 29) and the final
    flush (lines 142-143) are awaited outside the [try]: their rejection
    would reject the call itself, and is left out. *)
Record Env := {
  getCachedUserMentionsForUserSince :
    string → string → option TweetMentionFetchResult;
  usersIdMentions : nat → string → option string → QueryRun;
  upsertTweetMentionsForUserId :
    list Effect → string → list Tweet → option ApiError;
  handleKnownTwitterErrors : ApiError → option BotError }.

Inductive Completion :=
  | Return (result : TweetMentionFetchResult)
  | Throw (err : BotError).

(** The state of the body of the [for await] loop. *)
Record QueryState := {
  qs_result : TweetMentionFetchResult;
  qs_effects : list Effect;
  numMentionsInQuery : nat;
  numPagesInQuery : nat }.

(** [{ ...cachedResult, ...result }] on the cache hit: the entries of
    [result] win. *)
Definition seedFromCache (cachedResult result : TweetMentionFetchResult)
  : TweetMentionFetchResult :=
  {| mentions := mentions result ++ mentions cachedResult;
     users := users result ∪ users cachedResult;
     tweets := tweets result ∪ tweets cachedResult;
     sinceMentionId :=
       maxTwitterId (sinceMentionId result) (sinceMentionId cachedResult) |}.

(** Lines 28-60: the cache is consulted unless [noCache]. *)
Definition readCache (env : Env) (ctx : Context) (userId : string)
    (originalSinceMentionId : option string)
    (result : TweetMentionFetchResult)
  : TweetMentionFetchResult * list Effect :=
  if noCache ctx then (result, [])
  else
    let since :=
      if truthy originalSinceMentionId
      then default "" originalSinceMentionId else "0" in
    let eff := [DbGetCachedUserMentions userId since] in
    match getCachedUserMentionsForUserSince env userId since with
    | Some cachedResult =>
        if (0 <? length (mentions cachedResult))%nat
        then (seedFromCache cachedResult result, eff)
        else (result, eff)
    | None => (result, eff)
    end.

Definition raiseSince (since : option string) (data : list Tweet)
  : option string :=
  foldl (λ since mention, maxTwitterId since (Some (tweet_id mention)))
        since data.

Definition addUsers (m : gmap string TwitterUser) (l : list TwitterUser)
  : gmap string TwitterUser :=
  foldl (λ m user, <[user_id user := user]> m) m l.

Definition addTweets (m : gmap string Tweet) (l : list Tweet)
  : gmap string Tweet :=
  foldl (λ m tweet, <[tweet_id tweet := tweet]> m) m l.

(** Line 87 alone: the posts of a page are appended. *)
Definition addPosts (result : TweetMentionFetchResult) (data : list Tweet)
  : TweetMentionFetchResult :=
  {| mentions := mentions result ++ data;
     users := users result;
     tweets := tweets result;
     sinceMentionId := sinceMentionId result |}.

(** Lines 83-113: the body of the [for await] loop for one page. When the
    write of the page to the cache is rejected (line 90), the body is left
    with the error, after the posts were appended (line 87) and before the
    cursor is raised (lines 93-98) and the users and tweets are merged
    (lines 101-111). *)
Definition processPage (env : Env) (ctx : Context) (userId : string)
    (st : QueryState) (page : Page) : QueryState * option ApiError :=
  let r := qs_result st in
  let hasData := (0 <? length (page_data page))%nat in
  let received := qs_effects st ++ [ApiPage page] in
  let rejected :=
    if hasData && negb (noCache ctx)
    then upsertTweetMentionsForUserId env received userId (page_data page)
    else None in
  match rejected with
  | Some err =>
      ({| qs_result := addPosts r (page_data page);
          qs_effects :=
            received ++
            [DbUpsertTweetMentions userId (page_data page); DbRejected err];
          numMentionsInQuery :=
            numMentionsInQuery st + length (page_data page);
          numPagesInQuery := S (numPagesInQuery st) |},
       Some err)
  | None =>
      ({| qs_result :=
            {| mentions :=
                 if hasData then mentions r ++ page_data page
                 else mentions r;
               users := addUsers (users r) (page_users page);
               tweets := addTweets (tweets r) (page_tweets page);
               sinceMentionId :=
                 if hasData
                 then raiseSince (sinceMentionId r) (page_data page)
                 else sinceMentionId r |};
          qs_effects :=
            qs_effects st ++ [ApiPage page] ++
            (if hasData && negb (noCache ctx)
             then [DbUpsertTweetMentions userId (page_data page)]
             else []);
          numMentionsInQuery :=
            if hasData then numMentionsInQuery st + length (page_data page)
            else numMentionsInQuery st;
          numPagesInQuery := S (numPagesInQuery st) |},
       None)
  end.

(** Lines 82-114: the pages are consumed in order, up to the first one
    whose body is left with an error. *)
Fixpoint consumePages (env : Env) (ctx : Context) (userId : string)
    (st : QueryState) (ps : list Page) : QueryState * option ApiError :=
  match ps with
  | [] => (st, None)
  | page :: rest =>
      match processPage env ctx userId st page with
      | (st', None) => consumePages env ctx userId st' rest
      | (st', Some err) => (st', Some err)
      end
  end.

(** Lines 63-114: one query is issued with the working [since_id], and its
    pages are consumed until the iterator ends or throws, or the write of
    a page to the cache is rejected. The error, if any, is what the
    [catch] of line 120 receives. *)
Definition runQuery (env : Env) (ctx : Context) (userId : string) (n : nat)
    (result : TweetMentionFetchResult) (effects : list Effect)
  : QueryState * option ApiError :=
  let since := sinceMentionId result in
  let run := usersIdMentions env n userId since in
  let '(st, rejected) :=
    consumePages env ctx userId
      {| qs_result := result;
         qs_effects := effects ++ [ApiUsersIdMentions userId since];
         numMentionsInQuery := 0;
         numPagesInQuery := 0 |}
      (pages run) in
  (st,
   match rejected with
   | Some err => Some err
   | None => failure run
   end).

(** Lines 129-137: the error raised when nothing was gathered. *)
Definition fetchError (env : Env) (err : ApiError) : BotError :=
  match handleKnownTwitterErrors env err with
  | Some known => known
  | None =>
      {| bot_message :=
           "Error fetching twitter user mentions: " +:+ err_message err;
         bot_type := TwitterUnknown;
         bot_cause := err |}
  end.

(** Lines 62-140: the [do ... while (true)] loop, from its [n]-th
    iteration on. It yields the accumulated result on [break], the error on
    [throw], and [None] when [fuel] iterations did not end it. *)
Fixpoint fetchLoop (env : Env) (ctx : Context) (userId : string)
    (fuel n : nat) (result : TweetMentionFetchResult)
    (effects : list Effect)
  : option (TweetMentionFetchResult + BotError) * list Effect :=
  match fuel with
  | O => (None, effects)
  | S fuel' =>
      let '(st, failed) := runQuery env ctx userId n result effects in
      match failed with
      | None =>
          let eff := qs_effects st ++
            [LogQueryStats (numMentionsInQuery st) (numPagesInQuery st)] in
          if (numMentionsInQuery st <? 5)%nat
             || negb (resolveAllMentions ctx)
          then (Some (inl (qs_result st)), eff)
          else fetchLoop env ctx userId fuel' (S n) (qs_result st) eff
      | Some err =>
          let eff := qs_effects st ++ [LogFetchError err] in
          if (0 <? length (mentions (qs_result st)))%nat
          then (Some (inl (qs_result st)), eff)
          else (Some (inr (fetchError env err)), eff)
      end
  end.

Definition emptyResult (since : option string) : TweetMentionFetchResult :=
  {| mentions := []; users := ∅; tweets := ∅; sinceMentionId := since |}.

(** [getTwitterUserIdMentions(userId, opts, ctx)], with [opts.since_id] as
    [since_id]. [None] when the loop did not end within [fuel] queries. *)
Definition getTwitterUserIdMentions (env : Env) (fuel : nat)
    (userId : string) (since_id : option string) (ctx : Context)
  : option (Completion * list Effect) :=
  let originalSinceMentionId := since_id in
  let '(result, eff) :=
    readCache env ctx userId originalSinceMentionId
      (emptyResult originalSinceMentionId) in
  match fetchLoop env ctx userId fuel 0 result eff with
  | (None, _) => None
  | (Some (inr err), eff) => Some (Throw err, eff)
  | (Some (inl result), eff) =>
      Some (Return result,
            eff ++ [DbUpsertTweets (tweets result);
                    DbUpsertTwitterUsers (users result)])
  end.

(** *** The run of a call, as the properties speak of it *)

(** The result and the effects a call enters its loop with. *)
Definition cacheSeed (env : Env) (ctx : Context) (userId : string)
    (since_id : option string) : TweetMentionFetchResult * list Effect :=
  readCache env ctx userId since_id (emptyResult since_id).

(** The posts of a sequence of pages, in order. *)
Definition pageMentions (ps : list Page) : list Tweet := ps ≫= page_data.

(** The pages the mention timeline answered with, in order. *)
Definition pagesReceived (effects : list Effect) : list Page :=
  effects ≫= λ e,
    match e with
    | ApiPage page => [page]
    | _ => []
    end.

(** [result] with the posts, users and referenced posts of the pages [ps]
    merged in, and its [sinceMentionId] raised to their identifiers. *)
Definition addPages (result : TweetMentionFetchResult) (ps : list Page)
  : TweetMentionFetchResult :=
  {| mentions := mentions result ++ pageMentions ps;
     users := addUsers (users result) (ps ≫= page_users);
     tweets := addTweets (tweets result) (ps ≫= page_tweets);
     sinceMentionId := raiseSince (sinceMentionId result) (pageMentions ps) |}.

(** The errors of the rejected writes to the cache, in order. *)
Definition writeRejections (effects : list Effect) : list ApiError :=
  effects ≫= λ e,
    match e with
    | DbRejected err => [err]
    | _ => []
    end.

(** The pages whose body ran to its end, and the page whose body was left
    at a rejected write, if any: a rejection ends the loop, so the pages
    cut short are the last ones received, as many as there are
    rejections. *)
Definition pagesMerged (effects : list Effect) : list Page :=
  take (length (pagesReceived effects) - length (writeRejections effects))
       (pagesReceived effects).

Definition pagesCut (effects : list Effect) : list Page :=
  drop (length (pagesReceived effects) - length (writeRejections effects))
       (pagesReceived effects).

(** What a call has gathered, from its seed and its effects: the pages
    whose body ran to its end are merged, and of a page cut short the
    posts alone are appended. *)
Definition gatheredFrom (result : TweetMentionFetchResult)
    (effects : list Effect) : TweetMentionFetchResult :=
  addPosts (addPages result (pagesMerged effects))
           (pageMentions (pagesCut effects)).

(** The effects of consuming the pages [ps] to the end of their body. *)
Definition pageEffects (ctx : Context) (userId : string) (ps : list Page)
  : list Effect :=
  ps ≫= λ page,
    ApiPage page ::
    (if (0 <? length (page_data page))%nat && negb (noCache ctx)
     then [DbUpsertTweetMentions userId (page_data page)]
     else []).

(** [isMaxId s ms]: [s] is the largest identifier among the posts [ms]. *)
Definition isMaxId (s : option string) (ms : list Tweet) : Prop :=
  (∃ m, m ∈ ms ∧ idEq s (Some (tweet_id m)))
  ∧ ∀ m, m ∈ ms → idLe (Some (tweet_id m)) s.

(** The cached-mention lookup answers as the spec expects: the
    [sinceMentionId] of a non-empty cached result is "the cache's maximum
    observed identifier". *)
Definition cacheSound (env : Env) : Prop :=
  ∀ userId since cachedResult,
    getCachedUserMentionsForUserSince env userId since = Some cachedResult →
    mentions cachedResult ≠ [] →
    isMaxId (sinceMentionId cachedResult) (mentions cachedResult).

(** [LoopAt env ctx userId since_id n result effects]: a call with
    [since_id] starts the [n]-th iteration of its loop with [result]
    accumulated and [effects] done. *)
Inductive LoopAt (env : Env) (ctx : Context) (userId : string)
    (since_id : option string)
  : nat → TweetMentionFetchResult → list Effect → Prop :=
  | loop_start result effects :
      readCache env ctx userId since_id (emptyResult since_id)
        = (result, effects) →
      LoopAt env ctx userId since_id 0 result effects
  | loop_next n result effects st :
      LoopAt env ctx userId since_id n result effects →
      runQuery env ctx userId n result effects = (st, None) →
      (numMentionsInQuery st <? 5)%nat || negb (resolveAllMentions ctx)
        = false →
      LoopAt env ctx userId since_id (S n) (qs_result st)
        (qs_effects st ++
           [LogQueryStats (numMentionsInQuery st) (numPagesInQuery st)]).

(** The [since_id] of each query sent to the mention timeline, in order,
    and their number. *)
Definition queriesSent (effects : list Effect) : list (option string) :=
  effects ≫= λ e,
    match e with
    | ApiUsersIdMentions _ since_id => [since_id]
    | _ => []
    end.


(** The number of mentions of each completed query, in order. *)
Definition queryYields (effects : list Effect) : list nat :=
  effects ≫= λ e,
    match e with
    | LogQueryStats numMentions _ => [numMentions]
    | _ => []
    end.

(** The remote errors caught, in order. *)
Definition fetchErrors (effects : list Effect) : list ApiError :=
  effects ≫= λ e,
    match e with
    | LogFetchError err => [err]
    | _ => []
    end.

(** [LoopEnd env ctx userId since_id outcome effects]: the loop of a call
    ends with [outcome]: after a complete query that meets the stop
    condition, or at a remote error, with or without mentions gathered. *)
Inductive LoopEnd (env : Env) (ctx : Context) (userId : string)
    (since_id : option string)
  : TweetMentionFetchResult + BotError → list Effect → Prop :=
  | end_complete n result effects st :
      LoopAt env ctx userId since_id n result effects →
      runQuery env ctx userId n result effects = (st, None) →
      (numMentionsInQuery st <? 5)%nat || negb (resolveAllMentions ctx)
        = true →
      LoopEnd env ctx userId since_id (inl (qs_result st))
        (qs_effects st ++
           [LogQueryStats (numMentionsInQuery st) (numPagesInQuery st)])
  | end_partial n result effects st err :
      LoopAt env ctx userId since_id n result effects →
      runQuery env ctx userId n result effects = (st, Some err) →
      (0 <? length (mentions (qs_result st)))%nat = true →
      LoopEnd env ctx userId since_id (inl (qs_result st))
        (qs_effects st ++ [LogFetchError err])
  | end_failed n result effects st err :
      LoopAt env ctx userId since_id n result effects →
      runQuery env ctx userId n result effects = (st, Some err) →
      (0 <? length (mentions (qs_result st)))%nat = false →
      LoopEnd env ctx userId since_id (inr (fetchError env err))
        (qs_effects st ++ [LogFetchError err]).



(** The identifiers of the posts a call wrote to [db]: with the pages
    written to the cache and with the final flush. *)
Definition tweetsWritten (effects : list Effect) : list string :=
  effects ≫= λ e,
    match e with
    | DbUpsertTweetMentions _ data => tweet_id <$> data
    | DbUpsertTweets values => (map_to_list values).*1
    | _ => []
    end.

(** The flush as the spec words it: every post a returning call received
    from the timeline was written to [db]. *)
Definition FlushesAllObserved (env : Env) (fuel : nat) (userId : string)
    (since_id : option string) (ctx : Context) : Prop :=
  ∀ r effects,
    getTwitterUserIdMentions env fuel userId since_id ctx
      = Some (Return r, effects) →
    ∀ m, m ∈ pageMentions (pagesReceived effects) →
         tweet_id m ∈ tweetsWritten effects.


(** Reads and writes of the cached mention pages. *)
Definition isCacheEffect (e : Effect) : bool :=
  match e with
  | DbGetCachedUserMentions _ _ | DbUpsertTweetMentions _ _ => true
  | _ => false
  end.

(** The error classes the spec lists for a failed fetch. *)
Definition isFetchErrorClass (t : BotErrorType) : bool :=
  match t with
  | TwitterRateLimit | TwitterAuth | Network | TwitterUnknown => true
  | _ => false
  end.

(** *** Sample data *)

Definition post (id : string) : Tweet :=
  {| tweet_id := id; tweet_text := "@bot hi"; referenced_tweets := [] |}.

Definition dataPage (data : list Tweet) : Page :=
  {| page_data := data; page_users := []; page_tweets := [] |}.

(** A classifier of known errors by status code; other errors are left to
    the caller. *)
Definition sampleClassifier (err : ApiError) : option BotError :=
  match err_status err with
  | Some 429 =>
      Some {| bot_message := "rate limited"; bot_type := TwitterRateLimit;
              bot_cause := err |}
  | Some 401 =>
      Some {| bot_message := "unauthorized"; bot_type := TwitterAuth;
              bot_cause := err |}
  | None =>
      Some {| bot_message := "network"; bot_type := Network;
              bot_cause := err |}
  | _ => None
  end.

Definition noCachedMentions (userId since : string)
  : option TweetMentionFetchResult := None.

Definition serverError : ApiError :=
  {| err_status := Some 503; err_message := "service unavailable" |}.

(** The third page of the first query fails. *)
Definition envThirdPageFails : Env :=
  {| getCachedUserMentionsForUserSince := noCachedMentions;
     usersIdMentions := λ n userId since,
       {| pages := [dataPage [post "101"; post "102"];
                    {| page_data := [post "105"];
                       page_users :=
                         [{| user_id := "7"; user_username := "alice" |}];
                       page_tweets := [post "99"] |}];
          failure := Some serverError |};
     upsertTweetMentionsForUserId := λ _ _ _, None;
     handleKnownTwitterErrors := sampleClassifier |}.

(** The first query fails before any page. *)
Definition envDown : Env :=
  {| getCachedUserMentionsForUserSince := noCachedMentions;
     usersIdMentions := λ n userId since,
       {| pages := []; failure := Some serverError |};
     upsertTweetMentionsForUserId := λ _ _ _, None;
     handleKnownTwitterErrors := sampleClassifier |}.

(** A backlog: two queries of five mentions, then a single mention. *)
Definition envBacklog : Env :=
  {| getCachedUserMentionsForUserSince := noCachedMentions;
     usersIdMentions := λ n userId since,
       {| pages :=
            match n with
            | 0 => [dataPage [post "101"; post "102"; post "103"];
                    dataPage [post "104"; post "105"]]
            | 1 => [dataPage [post "106"; post "107"; post "108";
                              post "109"; post "110"]]
            | _ => [dataPage [post "111"]]
            end;
          failure := None |};
     upsertTweetMentionsForUserId := λ _ _ _, None;
     handleKnownTwitterErrors := sampleClassifier |}.

(** No new mention. *)
Definition envQuiet : Env :=
  {| getCachedUserMentionsForUserSince := noCachedMentions;
     usersIdMentions := λ n userId since,
       {| pages := [dataPage []]; failure := None |};
     upsertTweetMentionsForUserId := λ _ _ _, None;
     handleKnownTwitterErrors := sampleClassifier |}.

(** The timeline answers with a post older than the cursor. *)
Definition envStale : Env :=
  {| getCachedUserMentionsForUserSince := noCachedMentions;
     usersIdMentions := λ n userId since,
       {| pages := [dataPage [post "50"]]; failure := None |};
     upsertTweetMentionsForUserId := λ _ _ _, None;
     handleKnownTwitterErrors := sampleClassifier |}.

(** A cache holding two mentions, with their maximum. *)
Definition envCached : Env :=
  {| getCachedUserMentionsForUserSince := λ userId since,
       Some {| mentions := [post "120"; post "118"];
               users := ∅; tweets := ∅;
               sinceMentionId := Some "120" |};
     usersIdMentions := λ n userId since,
       {| pages := [dataPage [post "125"]]; failure := None |};
     upsertTweetMentionsForUserId := λ _ _ _, None;
     handleKnownTwitterErrors := sampleClassifier |}.

Definition sampleCtx (noCache resolveAllMentions : bool) : Context :=
  {| ctx_sinceMentionId := None; dryRun := false; noCache := noCache;
     earlyExit := false; resolveAllMentions := resolveAllMentions;
     debugTweetIds := [] |}.

Definition cacheDown : ApiError :=
  {| err_status := None; err_message := "database unavailable" |}.

(** Three pages, of which the second cannot be written to the cache. *)
Definition envWriteRejected : Env :=
  {| getCachedUserMentionsForUserSince := noCachedMentions;
     usersIdMentions := λ n userId since,
       {| pages := [dataPage [post "101"; post "102"];
                    {| page_data := [post "105"];
                       page_users :=
                         [{| user_id := "7"; user_username := "alice" |}];
                       page_tweets := [post "99"] |};
                    dataPage [post "107"]];
          failure := None |};
     upsertTweetMentionsForUserId := λ effects userId data,
       if (length (pagesReceived effects) =? 2)%nat
       then Some cacheDown else None;
     handleKnownTwitterErrors := sampleClassifier |}.




End Mentions.

Import Mentions.

(** ** The thread resolver *)

Module Thread.

(** An entry of the chat-completion prompt: [Msg.user(content)] and
    [Msg.assistant(content)]. *)
Inductive Msg :=
  | MsgUser (content : string)
  | MsgAssistant (content : string).

(** A [Message] object in memory. [m === leafMessage] compares references:
    the argument of the call lives at [leafRef], and every record read from
    the store is a fresh object. *)
Record MessageObj := {
  obj_ref : nat;
  obj_val : Message }.

Definition leafRef : nat := 0.

(** The stores the resolver reads: the conversation turns by identifier
    ([db.messages.get]) and the platform's posts by identifier
    ([db.tryGetTweetById] with [force]). *)
Record Env := {
  db_messages : gmap string Message;
  remote_tweets : gmap string Tweet }.

(** Lines 26-34: [message] is the current turn, [messages] the turns pushed
    so far, [next] the reference of the next object read from the store. *)
Fixpoint walkParents (env : Env) (fuel next : nat) (message : MessageObj)
    (messages : list MessageObj) : option (MessageObj * list MessageObj) :=
  match fuel with
  | O => None
  | S fuel' =>
      if negb (truthy (parentMessageId (obj_val message)))
      then Some (message, messages)
      else
        match db_messages env
                !! default "" (parentMessageId (obj_val message)) with
        | None => Some (message, messages)
        | Some parentMessage =>
            let message := {| obj_ref := next; obj_val := parentMessage |} in
            walkParents env fuel' (S next) message (messages ++ [message])
        end
  end.

Definition isRepliedTo (t : ReferencedTweet) : bool :=
  String.eqb (ref_type t) "replied_to".

(** Lines 41-58: the [while (tweet)] loop, entered with a fetched [tweet]. *)
Fixpoint walkReplies (env : Env) (fuel : nat) (tweet : Tweet)
    (prevTweetsInThread : list Tweet) : option (list Tweet) :=
  match fuel with
  | O => None
  | S fuel' =>
      match List.find isRepliedTo (referenced_tweets tweet) with
      | None => Some prevTweetsInThread
      | Some repliedToTweetRef =>
          match remote_tweets env !! ref_id repliedToTweetRef with
          | None => Some prevTweetsInThread
          | Some repliedToTweet =>
              walkReplies env fuel' repliedToTweet
                (prevTweetsInThread ++ [repliedToTweet])
          end
      end
  end.

(** Lines 37-59. *)
Definition resolvePrevTweets (env : Env) (fuel : nat)
    (resolvePrevTweetsInThread : bool) (message : Message)
  : option (list Tweet) :=
  if resolvePrevTweetsInThread then
    match remote_tweets env !! promptTweetId message with
    | None => Some []
    | Some tweet => walkReplies env fuel tweet []
    end
  else Some [].

(** Line 71: [(m) => !m.error || m === leafMessage] *)
Definition keepMessage (m : MessageObj) : bool :=
  negb (truthy (error (obj_val m))) || Nat.eqb (obj_ref m) leafRef.

(** Lines 81-88: the entries of one turn. *)
Definition chatMessagesForMessage (m : MessageObj) : list Msg :=
  MsgUser (prompt (obj_val m)) ::
  (if truthy (response (obj_val m)) && negb (Nat.eqb (obj_ref m) leafRef)
   then [MsgAssistant (default "" (response (obj_val m)))]
   else []).

(** [resolveMessageThread(message, ctx, { resolvePrevTweetsInThread })];
    [None] when one of the two walks did not end within [fuel] steps. *)
Definition resolveMessageThread (env : Env) (fuel : nat) (message : Message)
    (resolvePrevTweetsInThread : bool) : option (list Msg) :=
  let leafMessage := {| obj_ref := leafRef; obj_val := message |} in
  match walkParents env fuel (S leafRef) leafMessage [leafMessage] with
  | None => None
  | Some (message, messages) =>
      match resolvePrevTweets env fuel resolvePrevTweetsInThread
              (obj_val message) with
      | None => None
      | Some prevTweetsInThread =>
          let messages := reverse messages in
          let prevTweetsInThread := reverse prevTweetsInThread in
          let messages := filter (λ m, keepMessage m = true) messages in
          let chatMessagesForPrevTweets :=
            (λ tweet, MsgUser (tweet_text tweet)) <$> prevTweetsInThread in
          let chatMessagesForBotMessages :=
            messages ≫= chatMessagesForMessage in
          Some (chatMessagesForPrevTweets ++ chatMessagesForBotMessages)
      end
  end.

(** *** The thread as the specification describes it *)

(** [ParentChain env m anc]: [anc] are the stored turns reached from [m]
    along [parentMessageId], oldest first, ending where a turn has no
    parent or its parent is not in the store. *)
Inductive ParentChain (env : Env) : Message → list Message → Prop :=
  | chain_root m :
      truthy (parentMessageId m) = false ∨
      db_messages env !! default "" (parentMessageId m) = None →
      ParentChain env m []
  | chain_step m p anc :
      truthy (parentMessageId m) = true →
      db_messages env !! default "" (parentMessageId m) = Some p →
      ParentChain env p anc →
      ParentChain env m (anc ++ [p]).

(** [ReplyChain env t older]: [older] are the posts reached from post [t]
    along its [replied_to] references, oldest first, ending where a post
    has no such reference or the referenced post cannot be fetched. *)
Inductive ReplyChain (env : Env) : Tweet → list Tweet → Prop :=
  | reply_end t :
      (∀ r, List.find isRepliedTo (referenced_tweets t) = Some r →
            remote_tweets env !! ref_id r = None) →
      ReplyChain env t []
  | reply_step t r t' older :
      List.find isRepliedTo (referenced_tweets t) = Some r →
      remote_tweets env !! ref_id r = Some t' →
      ReplyChain env t' older →
      ReplyChain env t (older ++ [t']).

(** The remote context that precedes the turn [root], oldest first. *)
Inductive PrevTweets (env : Env) (root : Message) : bool → list Tweet → Prop :=
  | prev_disabled : PrevTweets env root false []
  | prev_unresolved b :
      remote_tweets env !! promptTweetId root = None →
      PrevTweets env root b []
  | prev_chain t older :
      remote_tweets env !! promptTweetId root = Some t →
      ReplyChain env t older →
      PrevTweets env root true older.

(** The oldest turn of a thread: the first ancestor, or the leaf itself. *)
Definition rootOf (anc : list Message) (leaf : Message) : Message :=
  match anc with
  | [] => leaf
  | root :: _ => root
  end.

(** The entries of an earlier turn: its prompt, then its response if it
    has one. *)
Definition renderTurn (m : Message) : list Msg :=
  MsgUser (prompt m) ::
  (if truthy (response m) then [MsgAssistant (default "" (response m))]
   else []).

Definition hasError (m : Message) : bool := truthy (error m).

(** The rendered context of the spec: remote posts as user entries, then
    the earlier turns without error, then the prompt of the leaf. *)
Definition renderThread (prev : list Tweet) (anc : list Message)
    (leaf : Message) : list Msg :=
  ((λ t, MsgUser (tweet_text t)) <$> prev) ++
  (filter (λ m, hasError m = false) anc ≫= renderTurn) ++
  [MsgUser (prompt leaf)].

(** The turn [m] with another response. *)
Definition withResponse (m : Message) (r : option string) : Message :=
  {| msg_id := msg_id m;
     prompt := prompt m;
     promptTweetId := promptTweetId m;
     response := r;
     parentMessageId := parentMessageId m;
     error := error m |}.

(** A sample thread: post [90] opens the thread, post [100] replies to it
    and mentions the bot (turn [T1]); turns [T2] and [T3] follow, and [T2]
    failed. *)
Definition sampleT1 : Message :=
  {| msg_id := "100"; prompt := "what is rocq?"; promptTweetId := "100";
     response := Some "a proof assistant"; parentMessageId := None;
     error := None |}.

Definition sampleT2 : Message :=
  {| msg_id := "102"; prompt := "who makes it?"; promptTweetId := "102";
     response := Some "inria"; parentMessageId := Some "100";
     error := None |}.

Definition sampleT2failed : Message :=
  {| msg_id := "102"; prompt := "who makes it?"; promptTweetId := "102";
     response := None; parentMessageId := Some "100";
     error := Some "rate limited" |}.

Definition sampleT3 : Message :=
  {| msg_id := "104"; prompt := "since when?"; promptTweetId := "104";
     response := Some "1989"; parentMessageId := Some "102";
     error := None |}.

Definition samplePost90 : Tweet :=
  {| tweet_id := "90"; tweet_text := "proof assistants are fun";
     referenced_tweets := [] |}.

Definition samplePost100 : Tweet :=
  {| tweet_id := "100"; tweet_text := "@bot what is rocq?";
     referenced_tweets :=
       [ {| ref_type := "quoted"; ref_id := "80" |};
         {| ref_type := "replied_to"; ref_id := "90" |} ] |}.

Definition sampleTweets : gmap string Tweet :=
  <["90" := samplePost90]> (<["100" := samplePost100]> ∅).

Definition sampleEnv : Env :=
  {| db_messages := <["100" := sampleT1]> (<["102" := sampleT2]> ∅);
     remote_tweets := sampleTweets |}.

Definition sampleEnvFailed : Env :=
  {| db_messages := <["100" := sampleT1]> (<["102" := sampleT2failed]> ∅);
     remote_tweets := sampleTweets |}.

End Thread.

(** ** The control loop *)

Module Main.

(** The effects of the loop on its collaborators: the calls it awaits, and
    [CallRejected] after a call that was rejected. *)
Inductive Effect :=
  | DbGetSinceMentionId
  | DbSetSinceMentionId (sinceMentionId : option string)
  | Delay (ms : N)
  | RefreshTwitterAuth
  | CallRejected.

(** The context of the process, the cursor in the durable store, and the
    effects so far. *)
Record State := {
  ctx : Context;
  store : option string;
  effects : list Effect }.

(** The calls awaited inside the [try] after the batch was returned
    (lines 281, 288, 308, 313 and 318), and those awaited inside the
    [catch] (lines 322 and 323). *)
Inductive Await :=
  | GetSinceMentionId
  | SetSinceMentionId
  | DelayNetwork
  | DelayRateLimit
  | RefreshAuth.

Inductive CatchAwait :=
  | CatchDelay
  | CatchRefresh.

(** What the collaborators of an iteration do ([respondToNewMentions], the
    store, [delay] and [refreshTwitterAuth] are not among the sources).
    [Responded]: the batch is returned and every call awaited after it
    resolves. [Failed]: [respondToNewMentions] throws and the calls of the
    [catch] resolve. [Interrupted]: the batch is returned and the call
    [rejected] is rejected, if the iteration comes to it; [inCatch] is the
    call of the [catch] that is rejected then, if any. [FailedFatally]:
    [respondToNewMentions] throws and a call of the [catch] is rejected. *)
Inductive BatchOutcome :=
  | Responded (batch : TweetMentionBatch)
  | Failed
  | Interrupted (batch : TweetMentionBatch) (rejected : Await)
      (inCatch : option CatchAwait)
  | FailedFatally (inCatch : CatchAwait).

(** How a block of the [try] ends: at its end, or at a call that was
    rejected, with the state reached. *)
Inductive Block :=
  | Done (s : State)
  | Thrown (s : State).

Definition stateOf (b : Block) : State :=
  match b with
  | Done s | Thrown s => s
  end.

Definition isRejected (rejected : option Await) (a : Await) : bool :=
  match rejected, a with
  | Some GetSinceMentionId, GetSinceMentionId
  | Some SetSinceMentionId, SetSinceMentionId
  | Some DelayNetwork, DelayNetwork
  | Some DelayRateLimit, DelayRateLimit
  | Some RefreshAuth, RefreshAuth => true
  | _, _ => false
  end.

Definition addEffects (l : list Effect) (s : State) : State :=
  {| ctx := ctx s; store := store s; effects := effects s ++ l |}.

(** Lines 277-290: the cursor is re-read, merged and written. A rejected
    read leaves the context as it is; a rejected write leaves the store as
    it is, the context being merged already. *)
Definition syncCursorOr (rejected : option Await) (s : State) : Block :=
  let eff := effects s ++ [DbGetSinceMentionId] in
  if isRejected rejected GetSinceMentionId
  then Thrown {| ctx := ctx s; store := store s;
                 effects := eff ++ [CallRejected] |}
  else
    let recentSinceMentionId := store s in
    let ctx' :=
      withSinceMentionId (ctx s)
        (maxTwitterId (ctx_sinceMentionId (ctx s)) recentSinceMentionId) in
    if truthy (ctx_sinceMentionId ctx') && negb (dryRun ctx')
    then
      if isRejected rejected SetSinceMentionId
      then Thrown {| ctx := ctx';
                     store := store s;
                     effects :=
                       eff ++ [DbSetSinceMentionId (ctx_sinceMentionId ctx');
                               CallRejected] |}
      else Done {| ctx := ctx';
                   store := ctx_sinceMentionId ctx';
                   effects :=
                     eff ++ [DbSetSinceMentionId (ctx_sinceMentionId ctx')] |}
    else Done {| ctx := ctx'; store := store s; effects := eff |}.

(** Lines 271-291. *)
Definition advanceCursorOr (rejected : option Await)
    (batch : TweetMentionBatch) (s : State) : Block :=
  if truthy (batch_sinceMentionId batch)
     && (length (debugTweetIds (ctx s)) =? 0)%nat
  then
    let s' :=
      {| ctx := withSinceMentionId (ctx s)
                  (maxTwitterId (ctx_sinceMentionId (ctx s))
                                (batch_sinceMentionId batch));
         store := store s;
         effects := effects s |} in
    if negb (resolveAllMentions (ctx s')) then syncCursorOr rejected s'
    else Done s'
  else Done s.

(** The calls of the mitigations a batch asks for, in order (lines
    306-319). *)
Definition mitigations (batch : TweetMentionBatch) : list (Effect * Await) :=
  (if hasNetworkError batch then [(Delay 10000%N, DelayNetwork)] else []) ++
  (if hasTwitterRateLimitError batch
   then [(Delay 30000%N, DelayRateLimit)] else []) ++
  (if hasTwitterAuthError batch then [(RefreshTwitterAuth, RefreshAuth)]
   else []).

(** Calls awaited one after the other, up to one that is rejected. *)
Fixpoint awaitAll (rejected : option Await) (calls : list (Effect * Await))
    (s : State) : Block :=
  match calls with
  | [] => Done s
  | (call, a) :: calls' =>
      if isRejected rejected a
      then Thrown (addEffects [call; CallRejected] s)
      else awaitAll rejected calls' (addEffects [call] s)
  end.

(** Lines 306-319: the mitigations after a batch. *)
Definition mitigateOr (rejected : option Await) (batch : TweetMentionBatch)
    (s : State) : Block :=
  awaitAll rejected (mitigations batch) s.

(** The cursor handling and the mitigations when every call resolves. *)
Definition syncCursor (s : State) : State := stateOf (syncCursorOr None s).

Definition advanceCursor (batch : TweetMentionBatch) (s : State) : State :=
  stateOf (advanceCursorOr None batch s).

Definition mitigate (batch : TweetMentionBatch) (s : State) : State :=
  stateOf (mitigateOr None batch s).

(** Lines 320-324: the [catch]. The boolean tells whether the loop goes
    on: a call rejected inside the [catch] rejects [main]. *)
Definition catch (inCatch : option CatchAwait) (s : State) : State * bool :=
  match inCatch with
  | Some CatchDelay => (addEffects [Delay 5000%N; CallRejected] s, false)
  | Some CatchRefresh =>
      (addEffects [Delay 5000%N; RefreshTwitterAuth; CallRejected] s, false)
  | None => (addEffects [Delay 5000%N; RefreshTwitterAuth] s, true)
  end.

(** Lines 269-319: the [try] after the batch was returned, and the [catch]
    when a call is rejected. *)
Definition afterBatch (rejected : option Await) (inCatch : option CatchAwait)
    (batch : TweetMentionBatch) (s : State) : State * bool :=
  match advanceCursorOr rejected batch s with
  | Thrown s => catch inCatch s
  | Done s =>
      if earlyExit (ctx s) then (s, false)
      else if (0 <? length (debugTweetIds (ctx s)))%nat then (s, false)
      else
        match mitigateOr rejected batch s with
        | Thrown s => catch inCatch s
        | Done s => (s, true)
        end
  end.

(** One iteration of the loop body (lines 267-324); the boolean tells
    whether the loop goes on. *)
Definition iteration (o : BatchOutcome) (s : State) : State * bool :=
  match o with
  | Failed => catch None s
  | FailedFatally inCatch => catch (Some inCatch) s
  | Responded batch => afterBatch None None batch s
  | Interrupted batch rejected inCatch =>
      afterBatch (Some rejected) inCatch batch s
  end.

(** The [do ... while (true)] loop of [main] over the outcomes of the
    successive calls to [respondToNewMentions]: the state when the loop
    breaks or [main] is rejected, or after the last outcome given. *)
Fixpoint mainLoop (outcomes : list BatchOutcome) (s : State) : State :=
  match outcomes with
  | [] => s
  | o :: outcomes' =>
      let '(s', continue) := iteration o s in
      if continue then mainLoop outcomes' s' else s'
  end.

(** [c'] has the flags of [c]. *)
Definition sameFlags (c c' : Context) : Prop :=
  dryRun c' = dryRun c ∧ resolveAllMentions c' = resolveAllMentions c
  ∧ earlyExit c' = earlyExit c ∧ debugTweetIds c' = debugTweetIds c
  ∧ noCache c' = noCache c.

(** No write of the cursor among the effects [l]. *)
Definition noCursorWrite (l : list Effect) : Prop :=
  ∀ v, DbSetSinceMentionId v ∉ l.

(** No read nor write of the cursor among the effects [l]. *)
Definition noCursorAccess (l : list Effect) : Prop :=
  Forall (λ e, match e with
               | DbGetSinceMentionId | DbSetSinceMentionId _ => False
               | _ => True
               end) l.

End Main.

(** ** Shapes of resolved threads *)

Module ThreadShape.
Import Thread.

(** [alternates afterUser l]: in [l] every assistant entry comes right
    after a user entry, [afterUser] telling whether a user entry precedes
    [l]. *)
Fixpoint alternates (afterUser : bool) (l : list Msg) : bool :=
  match l with
  | [] => true
  | MsgUser _ :: l' => alternates true l'
  | MsgAssistant _ :: l' => afterUser && alternates false l'
  end.

(** [P] holds of turns whose parent is stored and again in [P]: from such
    a turn the parent references never end. *)
Definition ParentsNeverEnd (env : Env) (P : Message → Prop) : Prop :=
  ∀ m, P m →
    truthy (parentMessageId m) = true
    ∧ ∃ p, db_messages env !! default "" (parentMessageId m) = Some p ∧ P p.

(** [Q] holds of posts that reply to a post that can be fetched and is
    again in [Q]. *)
Definition RepliesNeverEnd (env : Env) (Q : Tweet → Prop) : Prop :=
  ∀ t, Q t →
    ∃ r t', List.find isRepliedTo (referenced_tweets t) = Some r
            ∧ remote_tweets env !! ref_id r = Some t' ∧ Q t'.

(** *** Sample data *)

(** Two turns that name each other as parent. *)
Definition loopA : Message :=
  {| msg_id := "200"; prompt := "ping"; promptTweetId := "200";
     response := Some "pong"; parentMessageId := Some "201"; error := None |}.

Definition loopB : Message :=
  {| msg_id := "201"; prompt := "pong?"; promptTweetId := "201";
     response := None; parentMessageId := Some "200"; error := None |}.

Definition envLoop : Env :=
  {| db_messages := <["200" := loopA]> (<["201" := loopB]> ∅);
     remote_tweets := ∅ |}.

(** A post that replies to itself, under a single turn. *)
Definition selfReply : Tweet :=
  {| tweet_id := "300"; tweet_text := "echo";
     referenced_tweets := [{| ref_type := "replied_to"; ref_id := "300" |}] |}.

Definition echoTurn : Message :=
  {| msg_id := "300"; prompt := "echo"; promptTweetId := "300";
     response := None; parentMessageId := None; error := None |}.

Definition envEcho : Env :=
  {| db_messages := ∅; remote_tweets := <["300" := selfReply]> ∅ |}.

End ThreadShape.

(** ** Calls of the mention fetcher *)

Module MentionsRuns.
Import Mentions.

(** The posts written to the cached mention pages, in order. *)
Definition cacheWrites (effects : list Effect) : list Tweet :=
  effects ≫= λ e,
    match e with
    | DbUpsertTweetMentions _ data => data
    | _ => []
    end.

(** The reads of the cached mention pages: their user and cursor. *)
Definition cacheReads (effects : list Effect) : list (string * string) :=
  effects ≫= λ e,
    match e with
    | DbGetCachedUserMentions userId since => [(userId, since)]
    | _ => []
    end.

(** The cursor a call reads the cache with: [since_id || '0']. *)
Definition cacheKey (since_id : option string) : string :=
  if truthy since_id then default "" since_id else "0".

(** The last user, and the last post, with identifier [k] in a list. *)
Definition lastUser (k : string) (l : list TwitterUser) : option TwitterUser :=
  last (filter (λ u, user_id u = k) l).

Definition lastTweet (k : string) (l : list Tweet) : option Tweet :=
  last (filter (λ t, tweet_id t = k) l).

(** *** Sample data *)

(** Two pages that carry the same user, renamed in between. *)
Definition envRenamed : Env :=
  {| getCachedUserMentionsForUserSince := noCachedMentions;
     usersIdMentions := λ n userId since,
       {| pages :=
            [{| page_data := [post "101"];
                page_users := [{| user_id := "7"; user_username := "alice" |}];
                page_tweets := [] |};
             {| page_data := [post "102"];
                page_users := [{| user_id := "7"; user_username := "alicia" |}];
                page_tweets := [] |}];
          failure := None |};
     upsertTweetMentionsForUserId := λ _ _ _, None;
     handleKnownTwitterErrors := sampleClassifier |}.

(** A cache that holds mentions, in front of a timeline that is down. *)
Definition envCachedDown : Env :=
  {| getCachedUserMentionsForUserSince := λ userId since,
       Some {| mentions := [post "120"]; users := ∅; tweets := ∅;
               sinceMentionId := Some "120" |};
     usersIdMentions := λ n userId since,
       {| pages := []; failure := Some serverError |};
     upsertTweetMentionsForUserId := λ _ _ _, None;
     handleKnownTwitterErrors := sampleClassifier |}.

End MentionsRuns.

(** ** Runs of the control loop *)

Module MainRuns.
Import Main.

(** Lines 232-238 of [main]:
    [(resolveAllMentions ? undefined : flag || (await db.getSinceMentionId()))
     ?? '0'], with the read of the store it makes. *)
Definition initialSinceMentionId (resolveAllMentions : bool)
    (sinceMentionIdFlag stored : option string)
  : option string * list Effect :=
  let '(v, eff) :=
    if resolveAllMentions then (None, [])
    else if truthy sinceMentionIdFlag then (sinceMentionIdFlag, [])
    else (stored, [DbGetSinceMentionId]) in
  (match v with
   | None => Some "0"
   | Some _ => v
   end, eff).

(** The outcomes in which every call awaited resolves, and those in which
    the calls of the [catch] do. *)
Definition settled (o : BatchOutcome) : bool :=
  match o with
  | Responded _ | Failed => true
  | Interrupted _ _ _ | FailedFatally _ => false
  end.

Definition catchHolds (o : BatchOutcome) : bool :=
  match o with
  | Interrupted _ _ (Some _) | FailedFatally _ => false
  | _ => true
  end.

(** Whether an iteration over a returned batch comes to the call [a]: the
    conditions under which lines 281, 288, 308, 313 and 318 are reached. *)
Definition reaches (c : Context) (batch : TweetMentionBatch) (a : Await)
  : bool :=
  let cursor :=
    truthy (batch_sinceMentionId batch)
    && (length (debugTweetIds c) =? 0)%nat
    && negb (resolveAllMentions c) in
  let goesOn :=
    negb (earlyExit c) && (length (debugTweetIds c) =? 0)%nat in
  match a with
  | GetSinceMentionId => cursor
  | SetSinceMentionId => cursor && negb (dryRun c)
  | DelayNetwork => goesOn && hasNetworkError batch
  | DelayRateLimit => goesOn && hasTwitterRateLimitError batch
  | RefreshAuth => goesOn && hasTwitterAuthError batch
  end.

(** Whether the loop ends at an outcome, in a process of context [c]. *)
Definition endsLoop (c : Context) (o : BatchOutcome) : bool :=
  let breaks := earlyExit c || (0 <? length (debugTweetIds c))%nat in
  match o with
  | Failed => false
  | FailedFatally _ => true
  | Responded _ => breaks
  | Interrupted batch rejected inCatch =>
      if reaches c batch rejected
      then match inCatch with Some _ => true | None => false end
      else breaks
  end.

(** The cursors of the batches of a run that carry one. *)
Definition batchCursors (outcomes : list BatchOutcome)
  : list (option string) :=
  outcomes ≫= λ o,
    match o with
    | Responded batch | Interrupted batch _ _ =>
        if truthy (batch_sinceMentionId batch)
        then [batch_sinceMentionId batch] else []
    | Failed | FailedFatally _ => []
    end.

(** The number of failed calls a run starts with. *)
Fixpoint leadingFailures (outcomes : list BatchOutcome) : nat :=
  match outcomes with
  | Failed :: outcomes' => S (leadingFailures outcomes')
  | _ => 0
  end.

(** What [n] failed calls in a row leave behind. *)
Definition failureEffects (n : nat) : list Effect :=
  mjoin (replicate n [Delay 5000%N; RefreshTwitterAuth]).

(** What the calls that throw at the start of a run leave behind, up to
    the first batch returned or to a call rejected inside the [catch]. *)
Fixpoint retryEffects (outcomes : list BatchOutcome) : list Effect :=
  match outcomes with
  | Failed :: outcomes' =>
      [Delay 5000%N; RefreshTwitterAuth] ++ retryEffects outcomes'
  | FailedFatally CatchDelay :: _ => [Delay 5000%N; CallRejected]
  | FailedFatally CatchRefresh :: _ =>
      [Delay 5000%N; RefreshTwitterAuth; CallRejected]
  | _ => []
  end.

(** The time waited and the number of credential refreshes among
    effects. *)
Definition totalDelay (l : list Effect) : N :=
  foldr (λ e acc, match e with Delay ms => (ms + acc)%N | _ => acc end) 0%N l.

Definition refreshes (l : list Effect) : nat :=
  length (l ≫= λ e, match e with RefreshTwitterAuth => [e] | _ => [] end).

(** The accesses to the persisted cursor among effects. *)
Definition cursorAccesses (l : list Effect) : list Effect :=
  l ≫= λ e,
    match e with
    | DbGetSinceMentionId | DbSetSinceMentionId _ => [e]
    | _ => []
    end.

(** The time an outcome makes the loop wait, and whether it makes it
    refresh the credentials, when every call it asks for resolves. *)
Definition outcomeDelay (o : BatchOutcome) : N :=
  match o with
  | Failed | FailedFatally _ => 5000
  | Responded batch | Interrupted batch _ _ =>
      (if hasNetworkError batch then 10000 else 0) +
      (if hasTwitterRateLimitError batch then 30000 else 0)
  end%N.

Definition outcomeRefreshes (o : BatchOutcome) : nat :=
  match o with
  | Failed | FailedFatally _ => 1
  | Responded batch | Interrupted batch _ _ =>
      if hasTwitterAuthError batch then 1 else 0
  end.

(** *** Sample data *)

Definition sampleBatch (cursor : option string) (network rateLimit auth : bool)
  : TweetMentionBatch :=
  {| batch_sinceMentionId := cursor;
     hasTwitterRateLimitError := rateLimit;
     hasTwitterAuthError := auth;
     hasNetworkError := network |}.

Definition sampleState (cursor stored : option string)
    (dry early exhaustive : bool) (debug : list string) : State :=
  {| ctx := {| ctx_sinceMentionId := cursor; dryRun := dry; noCache := false;
               earlyExit := early; resolveAllMentions := exhaustive;
               debugTweetIds := debug |};
     store := stored;
     effects := [] |}.

End MainRuns.

(** * The OpenAI answer engine

    [OpenAIAnswerEngine._generateResponseForQuery]: the user names of the
    thread's authors are looked up, the entities of the query are read
    from the store, and one chat completion is requested.

    The store, the serializer, the chat model and [stripUserMentions] are
    collaborators of the function. Each call of the store or of the model
    is an effect of the run; its answer may depend on everything that
    happened before, and it may throw. *)

Module AnswerEngine.
Import Types.

Inductive Error :=
  | AssertionFailed
  | Rejected (reason : string).

(** The outcome of an awaited call. *)
Inductive Result (A : Type) :=
  | Returned (a : A)
  | Threw (e : Error).
Arguments Returned {A} a.
Arguments Threw {A} e.

Inductive Role := RoleSystem | RoleUser | RoleAssistant.

(** [Msg.system(content)], [Msg.user(content, { name })] and
    [Msg.assistant(content, { name })]. *)
Record ChatMsg := {
  role : Role;
  content : string;
  name : option string }.

(** [Msg.system(content)] *)
Definition system (content : string) : ChatMsg :=
  {| role := RoleSystem; content := content; name := None |}.

(** A post of [query.tweets]: its [author_id] and the rest of it. *)
Record AuthoredTweet := {
  author_id : option string;
  tweet : Tweet }.

(** The values of [query.entityMap.users] and [query.entityMap.tweets]:
    the field the function reads of each. *)
Record EntityUser := { twitterId : option string }.
Record EntityTweet := { entity_id : option string }.

(** [Object.values] of each part of [query.entityMap], in the order of
    the enumeration; an absent part is [None]. *)
Record EntityMap := {
  entity_users : option (list EntityUser);
  entity_tweets : option (list EntityTweet) }.

Record AnswerEngineQuery := {
  query_tweets : list AuthoredTweet;
  entityMap : option EntityMap }.

Record AnswerEngineContext := {
  twitterBotHandle : string;
  twitterBotUserId : string }.

(** [rawEntityMap]: each of its two objects is given by the assignments
    made to it, in order. *)
Record RawEntityMap := {
  raw_users : list (string * TwitterUser);
  raw_tweets : list (string * Tweet) }.

(** The calls a run makes, each with its answer. *)
Inductive Effect :=
  | DbUsername (userId : option string) (answer : Result (option string))
  | DbUser (userId : string) (answer : Result (option TwitterUser))
  | DbTweet (tweetId : string) (answer : Result (option Tweet))
  | ModelRun (messages : list ChatMsg) (max_tokens : nat)
      (answer : Result (option string)).

(** The collaborators. The first argument of a call is the run so far.
    [chatModelRun] answers with [res.message.content]. *)
Record Env := {
  getCurrentDate : string;
  tryGetTwitterUsernameByUserId :
    list Effect → option string → Result (option string);
  tryGetUserById : list Effect → string → Result (option TwitterUser);
  tryGetTweetById : list Effect → string → Result (option Tweet);
  stringifyTweet : AuthoredTweet → string;
  stringifyEntities : RawEntityMap → string;
  chatModelRun : list Effect → list ChatMsg → nat → Result (option string);
  stripUserMentions : option string → Result string }.

(** A computation reads the run so far and extends it. *)
Definition M (A : Type) : Type := list Effect → Result A * list Effect.

Definition ret {A : Type} (a : A) : M A := λ log, (Returned a, log).

Definition throw {A : Type} (e : Error) : M A := λ log, (Threw e, log).

Definition bind {A B : Type} (m : M A) (k : A → M B) : M B :=
  λ log,
    match m log with
    | (Returned a, log') => k a log'
    | (Threw e, log') => (Threw e, log')
    end.

Notation "'let*' x ':=' m 'in' k" := (bind m (λ x, k))
  (at level 10, x name, m at level 100, k at level 200).

(** An awaited call: the answer is recorded, a rejection is thrown. *)
Definition await {A : Type} (ask : list Effect → Result A)
    (record : Result A → Effect) : M A :=
  λ log, (ask log, log ++ [record (ask log)]).

(** [assert(value)] on a [string | undefined] *)
Definition assert (value : option string) : M string :=
  match value with
  | Some s => if truthy value then ret s else throw AssertionFailed
  | None => throw AssertionFailed
  end.

(** The key of [userIdToUsernameMap[tweet.author_id!]]: an absent
    identifier is the key ["undefined"]. Identifiers are numerals; the
    names [Object.prototype] defines are outside the model. *)
Definition keyOf (author_id : option string) : string :=
  default "undefined" author_id.

(** [userIdToUsernameMap[key]] *)
Definition readName (userIdToUsernameMap : gmap string (option string))
    (key : string) : option string :=
  default None (userIdToUsernameMap !! key).

(** Lines 33-38. *)
Fixpoint lookupUsernames (env : Env) (tweets : list AuthoredTweet)
    (userIdToUsernameMap : gmap string (option string))
  : M (gmap string (option string)) :=
  match tweets with
  | [] => ret userIdToUsernameMap
  | tweet :: rest =>
      if negb (truthy (readName userIdToUsernameMap
                         (keyOf (author_id tweet))))
      then
        let* username :=
          await (λ log, tryGetTwitterUsernameByUserId env log
                          (author_id tweet))
                (DbUsername (author_id tweet)) in
        lookupUsernames env rest
          (<[keyOf (author_id tweet) := username]> userIdToUsernameMap)
      else lookupUsernames env rest userIdToUsernameMap
  end.

(** Lines 49-54. *)
Fixpoint collectUsers (env : Env) (users : list EntityUser)
    (raw : list (string * TwitterUser)) : M (list (string * TwitterUser)) :=
  match users with
  | [] => ret raw
  | user :: rest =>
      let* twitterId := assert (twitterId user) in
      let* twitterUser :=
        await (λ log, tryGetUserById env log twitterId)
              (DbUser twitterId) in
      match twitterUser with
      | None => collectUsers env rest raw
      | Some twitterUser =>
          collectUsers env rest (raw ++ [(twitterId, twitterUser)])
      end
  end.

(** Lines 58-63. *)
Fixpoint collectTweets (env : Env) (tweets : list EntityTweet)
    (raw : list (string * Tweet)) : M (list (string * Tweet)) :=
  match tweets with
  | [] => ret raw
  | tweet :: rest =>
      let* id := assert (entity_id tweet) in
      let* twittertweet :=
        await (λ log, tryGetTweetById env log id) (DbTweet id) in
      match twittertweet with
      | None => collectTweets env rest raw
      | Some twittertweet =>
          collectTweets env rest (raw ++ [(id, twittertweet)])
      end
  end.

Definition nl : string := String "010"%char EmptyString.

(** The template of lines 68-82. *)
Definition botPrompt (twitterBotHandle currentDate : string) : string :=
  String.concat nl [
    "You are a friendly, expert, helpful twitter bot with the handle "
      +:+ twitterBotHandle +:+ ".";
    "You answer concisely and creatively to tweets.";
    "You are very concise and informal.";
    "You can sometimes be a bit sassy and sarcastic, but try not to be rude.";
    "DO NOT use emoji very often.";
    "DO NOT use hashtags.";
    "DO NOT reply using JSON.";
    "DO NOT use @mention usernames in your reply.";
    "DO NOT use markdown.";
    "Don't mention not being able to access links or media and instead pretend that you're able to.";
    "Make sure to be **as concise as possible** since twitter has character limits.";
    "Your response should be as informationally dense and interesting as possible.";
    "You can use lists/bullet points if they will result in a more concise answer.";
    "Remember to never use hashtags.";
    "Current date: " +:+ currentDate +:+ "." ].

(** The template of lines 84-89. *)
Definition entitiesPrompt (entities : string) : string :=
  String.concat nl [
    "Tweets, users, and media objects referenced in this twitter thread contain the following entities which can be indexed by their IDs:";
    "";
    "```json";
    entities;
    "```";
    "" ].

(** Lines 91-99. *)
Definition tweetMsg (env : Env) (ctx : AnswerEngineContext)
    (userIdToUsernameMap : gmap string (option string))
    (tweet : AuthoredTweet) : ChatMsg :=
  {| role := if bool_decide (author_id tweet = Some (twitterBotUserId ctx))
             then RoleAssistant else RoleUser;
     content := stringifyTweet env tweet;
     name := readName userIdToUsernameMap (keyOf (author_id tweet)) |}.

(** [_generateResponseForQuery(query, ctx)] *)
Definition generateResponseForQuery (env : Env) (query : AnswerEngineQuery)
    (ctx : AnswerEngineContext) : M string :=
  let currentDate := getCurrentDate env in
  let* userIdToUsernameMap :=
    lookupUsernames env (query_tweets query) ∅ in
  let* users :=
    match entityMap query ≫= entity_users with
    | Some users => collectUsers env users []
    | None => ret []
    end in
  let* tweets :=
    match entityMap query ≫= entity_tweets with
    | Some tweets => collectTweets env tweets []
    | None => ret []
    end in
  let rawEntityMap := {| raw_users := users; raw_tweets := tweets |} in
  let messages :=
    [ system (botPrompt (twitterBotHandle ctx) currentDate);
      system (entitiesPrompt (stringifyEntities env rawEntityMap)) ]
    ++ (tweetMsg env ctx userIdToUsernameMap <$> query_tweets query) in
  let* res :=
    await (λ log, chatModelRun env log messages 60)
          (ModelRun messages 60) in
  λ log, (stripUserMentions env res, log).

(** ** What a run shows *)

Definition isModelRun (e : Effect) : bool :=
  match e with ModelRun _ _ _ => true | _ => false end.

(** The chat completions a run requested. *)
Definition modelRuns (log : list Effect) : list Effect :=
  filter (λ e, isModelRun e = true) log.

(** The user names the store answered for a key, in order. *)
Definition usernameAnswers (key : string) (log : list Effect)
  : list (option string) :=
  omap (λ e, match e with
             | DbUsername userId (Returned username) =>
                 if bool_decide (keyOf userId = key)
                 then Some username else None
             | _ => None
             end) log.

(** The last user name the store answered for a key. *)
Definition nameOf (log : list Effect) (key : string) : option string :=
  default None (last (usernameAnswers key log)).

(** The users and the posts the store found. *)
Definition usersFound (log : list Effect) : list (string * TwitterUser) :=
  omap (λ e, match e with
             | DbUser userId (Returned (Some user)) => Some (userId, user)
             | _ => None
             end) log.

Definition tweetsFound (log : list Effect) : list (string * Tweet) :=
  omap (λ e, match e with
             | DbTweet tweetId (Returned (Some tweet)) => Some (tweetId, tweet)
             | _ => None
             end) log.

(** The user-name lookups of a run: the key asked for and the answer. *)
Definition usernameLookups (log : list Effect)
  : list (string * Result (option string)) :=
  omap (λ e, match e with
             | DbUsername userId answer => Some (keyOf userId, answer)
             | _ => None
             end) log.

Definition isDbUsername (e : Effect) : bool :=
  match e with DbUsername _ _ => true | _ => false end.

Definition isDbUser (e : Effect) : bool :=
  match e with DbUser _ _ => true | _ => false end.

Definition isDbTweet (e : Effect) : bool :=
  match e with DbTweet _ _ => true | _ => false end.

(** The error of a call that was rejected. *)
Definition rejection (e : Effect) : option Error :=
  match e with
  | DbUsername _ (Threw e) | DbUser _ (Threw e) | DbTweet _ (Threw e)
  | ModelRun _ _ (Threw e) => Some e
  | _ => None
  end.

(** Every entity of the query has a truthy identifier. *)
Definition identified (query : AnswerEngineQuery) : bool :=
  forallb (λ user, truthy (twitterId user))
    (default [] (entityMap query ≫= entity_users))
  && forallb (λ tweet, truthy (entity_id tweet))
       (default [] (entityMap query ≫= entity_tweets)).

(** The prompt of lines 66-102, from what the store answered in a run. *)
Definition promptOf (env : Env) (query : AnswerEngineQuery)
    (ctx : AnswerEngineContext) (log : list Effect) : list ChatMsg :=
  [ system (botPrompt (twitterBotHandle ctx) (getCurrentDate env));
    system (entitiesPrompt
              (stringifyEntities env
                 {| raw_users := usersFound log;
                    raw_tweets := tweetsFound log |})) ]
  ++ ((λ tweet,
         {| role := if bool_decide
                         (author_id tweet = Some (twitterBotUserId ctx))
                    then RoleAssistant else RoleUser;
            content := stringifyTweet env tweet;
            name := nameOf log (keyOf (author_id tweet)) |})
      <$> query_tweets query).

(** A store that knows two users, and a model that answers with a
    mention. *)
Definition sampleEnv : Env :=
  {| getCurrentDate := "2024-02-01";
     tryGetTwitterUsernameByUserId := λ _ userId,
       Returned (match userId with
                 | Some "1" => Some "xbot"
                 | Some "2" => Some "alice"
                 | _ => None
                 end);
     tryGetUserById := λ _ userId,
       Returned (if String.eqb userId "2"
                 then Some {| user_id := "2"; user_username := "alice" |}
                 else None);
     tryGetTweetById := λ _ tweetId, Returned None;
     stringifyTweet := λ t, tweet_text (tweet t);
     stringifyEntities := λ raw,
       String.concat "," (fst <$> raw_users raw);
     chatModelRun := λ _ messages _,
       Returned (Some "@alice sure");
     stripUserMentions := λ content,
       match content with
       | Some s => Returned (String.substring 7 (String.length s - 7) s)
       | None => Threw (Rejected "content is null")
       end |}.

Definition post (author : option string) (text : string) : AuthoredTweet :=
  {| author_id := author;
     tweet := {| tweet_id := text; tweet_text := text;
                 referenced_tweets := [] |} |}.

Definition sampleCtx : AnswerEngineContext :=
  {| twitterBotHandle := "@xbot"; twitterBotUserId := "1" |}.

Definition sampleQuery : AnswerEngineQuery :=
  {| query_tweets :=
       [post (Some "2") "hi"; post (Some "1") "hello";
        post (Some "3") "hey"; post (Some "2") "bye";
        post (Some "3") "ho"];
     entityMap :=
       Some {| entity_users :=
                 Some [{| twitterId := Some "2" |};
                       {| twitterId := Some "3" |}];
               entity_tweets := None |} |}.

(** A query with an entity that has no identifier. *)
Definition brokenQuery : AnswerEngineQuery :=
  {| query_tweets := [post (Some "2") "hi"];
     entityMap :=
       Some {| entity_users :=
                 Some [{| twitterId := Some "2" |};
                       {| twitterId := None |}];
               entity_tweets := None |} |}.

End AnswerEngine.

(** * Properties *)

Example max_ex1 : maxTwitterId (Some "999") (Some "1000") = Some "1000".
Proof. reflexivity. Qed.

Example max_ex2 : maxTwitterId None (Some "7") = Some "7".
Proof. reflexivity. Qed.

Example max_ex3 :
  maxTwitterId (Some "1760384146004996333") (Some "1760384146004996299")
  = Some "1760384146004996333".
Proof. reflexivity. Qed.

Example max_ex4 : maxTwitterId (Some "") None = None.
Proof. reflexivity. Qed.

Example numeral_ex :
  isNumeral "1760384146004996333" = true
  ∧ decimalValue "1760384146004996333" = Some 1760384146004996333%N
  ∧ isNumeral "007" = false.
Proof. by vm_compute. Qed.

(** *** Order lemmas *)

Lemma string_compare_refl (s : string) : String.compare s s = Eq.
Proof.
  induction s as [|c s IH]; simpl; [done|].
  unfold Ascii.compare. by rewrite N.compare_refl.
Qed.

Lemma string_ltb_irrefl (s : string) : String.ltb s s = false.
Proof. unfold String.ltb. by rewrite string_compare_refl. Qed.

Lemma string_ltb_false_le (a b : string) :
  String.ltb b a = false ↔ String.le a b.
Proof.
  unfold String.le, String.leb, String.ltb.
  rewrite (String.compare_antisym a b).
  destruct (String.compare b a); simpl; naive_solver.
Qed.

Lemma numLe_alt (a b : string) :
  numLe a b ↔
  String.length a < String.length b ∨
  (String.length a = String.length b ∧ String.le a b).
Proof.
  unfold numLe, numLtb.
  destruct (Nat.compare_spec (String.length b) (String.length a)) as [E|L|G].
  - rewrite string_ltb_false_le. split; [auto|]. intros [?|[_ ?]]; [lia|done].
  - split; [done|]. intros [?|[? _]]; lia.
  - split; [auto|done].
Qed.

#[global] Instance numLe_preorder : PreOrder numLe.
Proof.
  split.
  - intros a. apply numLe_alt. right. split; [done|]. reflexivity.
  - intros a b c [H1|[H1 H1']]%numLe_alt [H2|[H2 H2']]%numLe_alt;
      apply numLe_alt; [left; lia..|].
    right. split; [congruence|]. by etrans.
Qed.

#[global] Instance numLe_total : Total numLe.
Proof.
  intros a b. rewrite !numLe_alt.
  destruct (Nat.lt_total (String.length a) (String.length b)) as [?|[E|?]];
    [auto..| |auto].
  destruct (total String.le a b); [left|right]; right; done.
Qed.

Lemma numLe_empty (s : string) : numLe "" s.
Proof.
  apply numLe_alt. destruct s as [|c s]; simpl; [|left; lia].
  right. split; [done|]. reflexivity.
Qed.

(** *** The order is the order of the numbers *)

Lemma digitOf_bound (c : ascii) (d : N) : digitOf c = Some d → (d <= 9)%N.
Proof.
  unfold digitOf.
  destruct (_ && _) eqn:E; [|done]. intros [= <-].
  apply andb_true_iff in E as [_ E%N.leb_le]. lia.
Qed.

Lemma digitOf_compare (c1 c2 : ascii) (d1 d2 : N) :
  digitOf c1 = Some d1 → digitOf c2 = Some d2 →
  Ascii.compare c1 c2 = (d1 ?= d2)%N.
Proof.
  unfold digitOf, Ascii.compare.
  destruct ((48 <=? N_of_ascii c1)%N && _) eqn:E1; [|done]. intros [= <-].
  destruct ((48 <=? N_of_ascii c2)%N && _) eqn:E2; [|done]. intros [= <-].
  apply andb_true_iff in E1 as [E1%N.leb_le _].
  apply andb_true_iff in E2 as [E2%N.leb_le _].
  destruct (N.compare_spec (N_of_ascii c1) (N_of_ascii c2)) as [E|L|G];
    symmetry.
  - apply N.compare_eq_iff. lia.
  - apply N.compare_lt_iff. lia.
  - apply N.compare_gt_iff. lia.
Qed.

Lemma decimalValue_cons (c : ascii) (s : string) (v : N) :
  decimalValue (String c s) = Some v →
  ∃ d w, digitOf c = Some d ∧ decimalValue s = Some w
         ∧ v = (d * 10 ^ N.of_nat (String.length s) + w)%N.
Proof.
  cbn [decimalValue].
  destruct (digitOf c) as [d|]; [|done].
  destruct (decimalValue s) as [w|]; [|done].
  intros [= <-]. eauto.
Qed.

Lemma decimalValue_bound (s : string) (v : N) :
  decimalValue s = Some v → (v < 10 ^ N.of_nat (String.length s))%N.
Proof.
  revert v. induction s as [|c s IH]; intros v.
  - intros [= <-]. simpl. lia.
  - intros (d & w & Hd & Hw & ->)%decimalValue_cons.
    apply digitOf_bound in Hd. specialize (IH w Hw).
    change (String.length (String c s)) with (S (String.length s)).
    rewrite Nat2N.inj_succ, N.pow_succ_r'. nia.
Qed.

(** Numerals of one length compare as their numbers do. *)
Lemma string_compare_decimal (a b : string) (x y : N) :
  String.length a = String.length b →
  decimalValue a = Some x → decimalValue b = Some y →
  String.compare a b = (x ?= y)%N.
Proof.
  revert b x y. induction a as [|c1 a IH]; intros [|c2 b] x y Hlen; try done.
  - by intros [= <-] [= <-].
  - intros (d1 & w1 & Hd1 & Hw1 & ->)%decimalValue_cons
           (d2 & w2 & Hd2 & Hw2 & ->)%decimalValue_cons.
    injection Hlen as Hlen.
    cbn [String.compare]. rewrite (digitOf_compare c1 c2 d1 d2 Hd1 Hd2).
    rewrite (IH b w1 w2 Hlen Hw1 Hw2), Hlen.
    pose proof (decimalValue_bound a w1 Hw1) as B1.
    pose proof (decimalValue_bound b w2 Hw2) as B2.
    rewrite Hlen in B1.
    set (P := (10 ^ N.of_nat (String.length b))%N) in *.
    destruct (N.compare_spec d1 d2) as [->|L|G].
    + destruct (N.compare_spec w1 w2) as [->|L|G]; symmetry.
      * by apply N.compare_eq_iff.
      * apply N.compare_lt_iff. lia.
      * apply N.compare_gt_iff. lia.
    + symmetry. apply N.compare_lt_iff. nia.
    + symmetry. apply N.compare_gt_iff. nia.
Qed.

(** A numeral of two digits or more is at least the power of ten of its
    length. *)
Lemma numeral_lower_bound (s : string) (v : N) :
  isNumeral s = true → 1 < String.length s → decimalValue s = Some v →
  (10 ^ N.of_nat (String.length s - 1) <= v)%N.
Proof.
  destruct s as [|c s]; [done|]. intros Hnum Hlen Hv.
  unfold isNumeral in Hnum. rewrite Hv in Hnum.
  apply decimalValue_cons in Hv as (d & w & Hd & Hw & ->).
  apply orb_true_iff in Hnum as [Hc|Hs].
  - assert (d ≠ 0%N) as Hd0.
    { intros ->. unfold digitOf in Hd.
      destruct ((48 <=? N_of_ascii c)%N && _) eqn:Hr; [|done].
      injection Hd as Hd.
      apply andb_true_iff in Hr as [Hr%N.leb_le _].
      assert (N_of_ascii c = 48%N) as E by lia.
      apply (f_equal ascii_of_N) in E. rewrite ascii_N_embedding in E.
      subst c. done. }
    change (String.length (String c s) - 1) with (String.length s - 0).
    rewrite Nat.sub_0_r. nia.
  - apply String.eqb_eq in Hs. subst s. simpl in Hlen. lia.
Qed.

(** On identifiers as the platform writes them, [numLtb] is the strict
    order of the numbers they denote. *)
Lemma numLtb_numeric (a b : string) (x y : N) :
  isNumeral a = true → isNumeral b = true →
  decimalValue a = Some x → decimalValue b = Some y →
  numLtb a b = true ↔ (x < y)%N.
Proof.
  intros Ha Hb Hx Hy. unfold numLtb.
  pose proof (decimalValue_bound a x Hx) as Bx.
  pose proof (decimalValue_bound b y Hy) as By.
  assert (0 < String.length a ∧ 0 < String.length b) as [La Lb].
  { destruct a, b; try done. simpl. lia. }
  destruct (Nat.compare_spec (String.length a) (String.length b))
    as [E|L|G].
  - unfold String.ltb.
    rewrite (string_compare_decimal a b x y E Hx Hy).
    destruct (N.compare_spec x y); split; (done || lia).
  - split; [intros _|done].
    pose proof (numeral_lower_bound b y Hb ltac:(lia) Hy) as Low.
    assert (10 ^ N.of_nat (String.length a)
            <= 10 ^ N.of_nat (String.length b - 1))%N.
    { apply N.pow_le_mono_r; lia. }
    lia.
  - split; [done|]. intros Hlt.
    pose proof (numeral_lower_bound a x Ha ltac:(lia) Hx) as Low.
    assert (10 ^ N.of_nat (String.length b)
            <= 10 ^ N.of_nat (String.length a - 1))%N.
    { apply N.pow_le_mono_r; lia. }
    lia.
Qed.

#[global] Instance idLe_preorder : PreOrder idLe.
Proof.
  split.
  - intros a. unfold idLe. reflexivity.
  - intros a b c. unfold idLe. apply transitivity.
Qed.

#[global] Instance idLe_total : Total idLe.
Proof. intros a b. unfold idLe. apply total, _. Qed.

#[global] Instance idEq_equiv : Equivalence idEq.
Proof.
  split.
  - by intros a.
  - by intros a b.
  - intros a b c. unfold idEq. congruence.
Qed.

Lemma idEq_le (a b : option string) : idEq a b → idLe a b.
Proof. unfold idEq, idLe. intros ->. reflexivity. Qed.

Lemma idLe_falsy (a b : option string) : truthy a = false → idLe a b.
Proof. unfold idLe, idKey. intros ->. apply numLe_empty. Qed.

Lemma numLtb_empty_r (s : string) : numLtb s "" = false.
Proof. by destruct s. Qed.

Lemma truthy_Some (v : option string) :
  truthy v = true → ∃ c s, v = Some (String c s).
Proof. destruct v as [[|c s]|]; simpl; try done. eauto. Qed.

(** The key of a maximum is the larger of the two keys. *)
Lemma maxTwitterId_key (a b : option string) :
  idKey (maxTwitterId a b) =
  if numLtb (idKey a) (idKey b) then idKey b else idKey a.
Proof.
  unfold maxTwitterId, idKey.
  destruct (truthy a) eqn:Ha, (truthy b) eqn:Hb; simpl.
  - destruct (numLtb _ _); by rewrite ?Ha, ?Hb.
  - by rewrite Ha, numLtb_empty_r.
  - rewrite Hb. by destruct (truthy_Some _ Hb) as (c & s & ->).
  - done.
Qed.

Lemma maxTwitterId_ub_l (a b : option string) : idLe a (maxTwitterId a b).
Proof.
  unfold idLe. rewrite maxTwitterId_key.
  destruct (numLtb (idKey a) (idKey b)) eqn:E; [|reflexivity].
  destruct (total numLe (idKey a) (idKey b)) as [?|H]; [done|].
  unfold numLe in H. congruence.
Qed.

Lemma maxTwitterId_ub_r (a b : option string) : idLe b (maxTwitterId a b).
Proof.
  unfold idLe. rewrite maxTwitterId_key.
  destruct (numLtb (idKey a) (idKey b)) eqn:E; [reflexivity|done].
Qed.

Lemma maxTwitterId_lub (a b c : option string) :
  idLe a c → idLe b c → idLe (maxTwitterId a b) c.
Proof.
  unfold idLe. rewrite maxTwitterId_key. by destruct (numLtb _ _).
Qed.

Lemma maxTwitterId_cases (a b : option string) :
  idEq (maxTwitterId a b) a ∨ idEq (maxTwitterId a b) b.
Proof.
  unfold idEq. rewrite maxTwitterId_key. destruct (numLtb _ _); auto.
Qed.

(** When the first argument is at most the second, the maximum is the
    second (as an identifier). *)
Lemma maxTwitterId_le_r (a b : option string) :
  idLe a b → idEq (maxTwitterId a b) b.
Proof.
  unfold idLe, idEq. rewrite maxTwitterId_key. intros H.
  destruct (numLtb (idKey a) (idKey b)) eqn:E; [done|].
  apply numLe_alt in H. apply numLe_alt in E.
  destruct H as [H|[H1 H2]], E as [E|[E1 E2]]; try lia.
  by apply (anti_symm String.le).
Qed.

Lemma maxTwitterId_truthy (a b : option string) :
  truthy (maxTwitterId a b) = truthy a || truthy b.
Proof.
  unfold maxTwitterId.
  destruct (truthy a) eqn:Ha, (truthy b) eqn:Hb; simpl; try done.
  by destruct (numLtb _ _).
Qed.

(** ** The bot-noise classifier *)

Section KnownBotsFacts.
Import KnownBots.

Example known_bot_ex : isLikelyTwitterBot "ThreadReaderApp" = true.
Proof. vm_compute. reflexivity. Qed.

Example status_ex : isLikelyTwitterBot "GitHubStatus" = true.
Proof. vm_compute. reflexivity. Qed.

Example alice_ex : isLikelyTwitterBot "alice" = false.
Proof. vm_compute. reflexivity. Qed.

Example botanist_ex : isLikelyTwitterBot "botanist" = false.
Proof. vm_compute. reflexivity. Qed.

Lemma lowerChar_idemp (c : ascii) : lowerChar (lowerChar c) = lowerChar c.
Proof. destruct c as [[] [] [] [] [] [] [] []]; reflexivity. Qed.

Lemma toLowerCase_idemp (s : string) :
  toLowerCase (toLowerCase s) = toLowerCase s.
Proof.
  induction s as [|c s IH]; simpl; [done|]. by rewrite lowerChar_idemp, IH.
Qed.

Lemma testSuffixRegex_endsWith (pat s : string) :
  testSuffixRegex pat s = true ↔ endsWith pat s.
Proof.
  split.
  - induction s as [|c s IH]; cbn [testSuffixRegex].
    + rewrite orb_false_r. intros ->%String.eqb_eq. by exists "".
    + intros [->%String.eqb_eq|H]%orb_true_iff; [by exists ""|].
      destruct (IH H) as [pre ->]. by exists (String c pre).
  - intros [pre ->]. induction pre as [|c pre IH].
    + change ("" +:+ pat) with pat.
      destruct pat; cbn [testSuffixRegex]; by rewrite String.eqb_refl.
    + change (String c pre +:+ pat) with (String c (pre +:+ pat)).
      cbn [testSuffixRegex]. rewrite IH. apply orb_true_r.
Qed.

Lemma isKnownTwitterBot_spec (username : string) :
  isKnownTwitterBot username = true ↔
  toLowerCase username ∈ twitterKnownBots.
Proof. unfold isKnownTwitterBot. apply bool_decide_eq_true. Qed.

End KnownBotsFacts.

(** C8: [isLikelyTwitterBot] answers [true] exactly when the lowercased
    user name is in the curated set or ends with ["bot"], ["gpt"] or
    ["status"]; the answer depends on the user name only through its
    lowercase form; ["foobot"] is recognised by its suffix although it is
    not in the curated set, and ["threadreaderapp"] by the set. *)
Theorem isLikelyTwitterBot_correct :
  (∀ username : string,
     KnownBots.isLikelyTwitterBot username = true ↔
     KnownBots.toLowerCase username ∈ KnownBots.twitterKnownBots
     ∨ KnownBots.endsWith "bot" (KnownBots.toLowerCase username)
     ∨ KnownBots.endsWith "gpt" (KnownBots.toLowerCase username)
     ∨ KnownBots.endsWith "status" (KnownBots.toLowerCase username))
  ∧ (∀ u v : string,
       KnownBots.toLowerCase u = KnownBots.toLowerCase v →
       KnownBots.isLikelyTwitterBot u = KnownBots.isLikelyTwitterBot v)
  ∧ (KnownBots.isLikelyTwitterBot "foobot" = true
     ∧ ("foobot" ∉ KnownBots.twitterKnownBots)
     ∧ KnownBots.endsWith "bot" "foobot")
  ∧ (KnownBots.isLikelyTwitterBot "threadreaderapp" = true
     ∧ "threadreaderapp" ∈ KnownBots.twitterKnownBots)
  ∧ KnownBots.isLikelyTwitterBot "FooBOT" = true.
Proof.
  split; [|split; [|split; [|split]]].
  - intros username. unfold KnownBots.isLikelyTwitterBot.
    rewrite <- !testSuffixRegex_endsWith, <- isKnownTwitterBot_spec.
    unfold KnownBots.isKnownTwitterBot at 1.
    rewrite toLowerCase_idemp.
    fold (KnownBots.isKnownTwitterBot username).
    destruct (KnownBots.isKnownTwitterBot username),
      (KnownBots.testSuffixRegex "bot" _),
      (KnownBots.testSuffixRegex "gpt" _),
      (KnownBots.testSuffixRegex "status" _); intuition congruence.
  - intros u v E. unfold KnownBots.isLikelyTwitterBot. by rewrite E.
  - split; [by vm_compute|]. split.
    + apply (bool_decide_eq_false_1 _). by vm_compute.
    + by exists "foo".
  - split; [by vm_compute|].
    apply (bool_decide_eq_true_1 _). by vm_compute.
  - by vm_compute.
Qed.

Lemma isLikelyTwitterBot_correct_witness :
  KnownBots.isLikelyTwitterBot "AskDexa" = KnownBots.isLikelyTwitterBot "askdexa"
  ∧ KnownBots.isLikelyTwitterBot "StatusGPT" = true.
Proof.
  split.
  - apply (proj1 (proj2 isLikelyTwitterBot_correct)). reflexivity.
  - apply (proj1 isLikelyTwitterBot_correct "StatusGPT").
    right. right. left. by exists "status".
Defined.

(** ** The control loop *)

Lemma numLtb_antisym (x y : string) :
  numLtb x y = false → numLtb y x = false → x = y.
Proof.
  intros H1 H2.
  assert (numLe y x) as [L|[E L]]%numLe_alt by exact H1.
  all: assert (numLe x y) as [L'|[E' L']]%numLe_alt by exact H2; try lia.
  by apply (anti_symm String.le).
Qed.

Lemma numLtb_asym (x y : string) : numLtb x y = true → numLtb y x = false.
Proof.
  intros H. destruct (total numLe x y) as [L|L]; unfold numLe in L; congruence.
Qed.

Lemma maxTwitterId_comm (a b : option string) :
  idEq (maxTwitterId a b) (maxTwitterId b a).
Proof.
  unfold idEq. rewrite !maxTwitterId_key.
  destruct (numLtb (idKey a) (idKey b)) eqn:E1,
    (numLtb (idKey b) (idKey a)) eqn:E2; try done.
  - apply numLtb_asym in E1. congruence.
  - by apply numLtb_antisym.
Qed.

Lemma maxTwitterId_proper (a a' b b' : option string) :
  idEq a a' → idEq b b' → idEq (maxTwitterId a b) (maxTwitterId a' b').
Proof. unfold idEq. rewrite !maxTwitterId_key. by intros -> ->. Qed.

Section MainFacts.
Import Main.

Example advance_ex :
  store (advanceCursor
           {| batch_sinceMentionId := Some "1200";
              hasTwitterRateLimitError := false;
              hasTwitterAuthError := false;
              hasNetworkError := false |}
           {| ctx := {| ctx_sinceMentionId := Some "900"; dryRun := false;
                        noCache := false; earlyExit := false;
                        resolveAllMentions := false; debugTweetIds := [] |};
              store := Some "1000";
              effects := [] |})
  = Some "1200".
Proof. reflexivity. Qed.

(** *** The blocks when every call resolves *)

Lemma addEffects_app (l k : list Effect) (s : State) :
  addEffects k (addEffects l s) = addEffects (l ++ k) s.
Proof. unfold addEffects. simpl. by rewrite app_assoc. Qed.

Lemma addEffects_nil (s : State) : addEffects [] s = s.
Proof. destruct s. unfold addEffects. simpl. by rewrite app_nil_r. Qed.

Lemma syncCursorOr_resolved (s : State) :
  syncCursorOr None s = Done (syncCursor s).
Proof. unfold syncCursor, syncCursorOr. simpl. by destruct (_ && _). Qed.

Lemma syncCursor_eq (s : State) :
  syncCursor s =
  let ctx' :=
    withSinceMentionId (ctx s)
      (maxTwitterId (ctx_sinceMentionId (ctx s)) (store s)) in
  let eff := effects s ++ [DbGetSinceMentionId] in
  if truthy (ctx_sinceMentionId ctx') && negb (dryRun ctx')
  then {| ctx := ctx';
          store := ctx_sinceMentionId ctx';
          effects := eff ++ [DbSetSinceMentionId (ctx_sinceMentionId ctx')] |}
  else {| ctx := ctx'; store := store s; effects := eff |}.
Proof. unfold syncCursor, syncCursorOr. simpl. by destruct (_ && _). Qed.

Lemma advanceCursorOr_resolved (batch : TweetMentionBatch) (s : State) :
  advanceCursorOr None batch s = Done (advanceCursor batch s).
Proof.
  unfold advanceCursor, advanceCursorOr. destruct (_ && _); [|done].
  destruct (negb _); [|done]. by rewrite syncCursorOr_resolved.
Qed.

Lemma advanceCursor_eq (batch : TweetMentionBatch) (s : State) :
  advanceCursor batch s =
  if truthy (batch_sinceMentionId batch)
     && (length (debugTweetIds (ctx s)) =? 0)%nat
  then
    let s' :=
      {| ctx := withSinceMentionId (ctx s)
                  (maxTwitterId (ctx_sinceMentionId (ctx s))
                                (batch_sinceMentionId batch));
         store := store s;
         effects := effects s |} in
    if negb (resolveAllMentions (ctx s')) then syncCursor s' else s'
  else s.
Proof.
  unfold advanceCursor, advanceCursorOr. destruct (_ && _); [|done].
  simpl. destruct (negb _); [|done]. by rewrite syncCursorOr_resolved.
Qed.

Lemma awaitAll_resolved (calls : list (Effect * Await)) (s : State) :
  awaitAll None calls s = Done (addEffects (calls.*1) s).
Proof.
  revert s. induction calls as [|[call a] calls IH]; intros s.
  - by rewrite addEffects_nil.
  - cbn [awaitAll isRejected]. by rewrite IH, addEffects_app.
Qed.

Lemma mitigateOr_resolved (batch : TweetMentionBatch) (s : State) :
  mitigateOr None batch s = Done (mitigate batch s).
Proof. unfold mitigate, mitigateOr. by rewrite awaitAll_resolved. Qed.

Lemma mitigate_eq (batch : TweetMentionBatch) (s : State) :
  mitigate batch s =
  addEffects
    ((if hasNetworkError batch then [Delay 10000%N] else []) ++
     (if hasTwitterRateLimitError batch then [Delay 30000%N] else []) ++
     (if hasTwitterAuthError batch then [RefreshTwitterAuth] else []))
    s.
Proof.
  unfold mitigate, mitigateOr, mitigations. rewrite awaitAll_resolved.
  by destruct (hasNetworkError batch), (hasTwitterRateLimitError batch),
    (hasTwitterAuthError batch).
Qed.

Lemma iteration_Responded (batch : TweetMentionBatch) (s : State) :
  iteration (Responded batch) s =
  let s := advanceCursor batch s in
  if earlyExit (ctx s) then (s, false)
  else if (0 <? length (debugTweetIds (ctx s)))%nat then (s, false)
  else (mitigate batch s, true).
Proof.
  unfold iteration, afterBatch. rewrite advanceCursorOr_resolved. cbn zeta.
  destruct (earlyExit _); [done|]. destruct (0 <? _)%nat; [done|].
  by rewrite mitigateOr_resolved.
Qed.

Lemma iteration_Failed (s : State) :
  iteration Failed s = (addEffects [Delay 5000%N; RefreshTwitterAuth] s, true).
Proof. done. Qed.

(** *** The blocks whatever is rejected *)

Ltac no_cursor_write :=
  let v := fresh "v" in
  let Hin := fresh "Hin" in
  unfold noCursorWrite; simpl; intros v Hin;
  repeat (apply elem_of_cons in Hin as [Hin|Hin]; [discriminate|]);
  by apply elem_of_nil in Hin.

Lemma noCursorWrite_app (l k : list Effect) :
  noCursorWrite l → noCursorWrite k → noCursorWrite (l ++ k).
Proof. intros Hl Hk v [?|?]%elem_of_app; [by eapply Hl|by eapply Hk]. Qed.

Lemma noCursorWrite_nil : noCursorWrite [].
Proof. intros v. apply not_elem_of_nil. Qed.

Lemma noCursorAccess_write (l : list Effect) :
  noCursorAccess l → noCursorWrite l.
Proof.
  intros Hl v Hin. unfold noCursorAccess in Hl. rewrite Forall_forall in Hl.
  by apply Hl in Hin.
Qed.

Lemma noCursorAccess_app (l k : list Effect) :
  noCursorAccess l → noCursorAccess k → noCursorAccess (l ++ k).
Proof. intros Hl Hk. by apply Forall_app. Qed.

(** The cursor handling: the store never regresses, the flags stay, the
    in-memory cursor never regresses, and a dry run writes nothing. *)
Lemma syncCursorOr_facts (rejected : option Await) (s : State) :
  let s' := stateOf (syncCursorOr rejected s) in
  idLe (store s) (store s')
  ∧ sameFlags (ctx s) (ctx s')
  ∧ idLe (ctx_sinceMentionId (ctx s)) (ctx_sinceMentionId (ctx s'))
  ∧ ∃ l, effects s' = effects s ++ l
         ∧ (dryRun (ctx s) = true → store s' = store s ∧ noCursorWrite l).
Proof.
  unfold syncCursorOr.
  destruct (isRejected rejected GetSinceMentionId); cbn [stateOf].
  { split; [reflexivity|]. split; [done|]. split; [reflexivity|].
    eexists. split; [by rewrite <- app_assoc|].
    intros _. split; [done|]. no_cursor_write. }
  cbn [ctx_sinceMentionId withSinceMentionId dryRun].
  destruct (dryRun (ctx s)) eqn:Hdry.
  { rewrite andb_false_r. cbn [stateOf ctx store effects].
    split; [reflexivity|]. split; [done|].
    split; [apply maxTwitterId_ub_l|].
    eexists. split; [done|]. intros _. split; [done|]. no_cursor_write. }
  destruct (truthy _ && _);
    [destruct (isRejected rejected SetSinceMentionId)|];
    cbn [stateOf ctx store effects ctx_sinceMentionId withSinceMentionId].
  all: split; [first [reflexivity|apply maxTwitterId_ub_r]|].
  all: split; [done|]. all: split; [apply maxTwitterId_ub_l|].
  all: eexists; split; [by rewrite <- ?app_assoc|]; done.
Qed.

Lemma advanceCursorOr_facts (rejected : option Await)
    (batch : TweetMentionBatch) (s : State) :
  let s' := stateOf (advanceCursorOr rejected batch s) in
  idLe (store s) (store s')
  ∧ sameFlags (ctx s) (ctx s')
  ∧ idLe (ctx_sinceMentionId (ctx s)) (ctx_sinceMentionId (ctx s'))
  ∧ ∃ l, effects s' = effects s ++ l
         ∧ (dryRun (ctx s) = true → store s' = store s ∧ noCursorWrite l).
Proof.
  assert (∃ l, effects s = effects s ++ l
               ∧ (dryRun (ctx s) = true →
                  store s = store s ∧ noCursorWrite l)) as Hnil.
  { exists []. split; [by rewrite app_nil_r|].
    intros _. split; [done|]. apply noCursorWrite_nil. }
  unfold advanceCursorOr. destruct (_ && _).
  2:{ cbn [stateOf]. split; [reflexivity|]. split; [done|].
      split; [reflexivity|done]. }
  cbn [ctx resolveAllMentions withSinceMentionId].
  destruct (negb _).
  2:{ cbn [stateOf ctx store effects ctx_sinceMentionId withSinceMentionId].
      split; [reflexivity|]. split; [done|].
      split; [apply maxTwitterId_ub_l|done]. }
  match goal with |- context [syncCursorOr rejected ?s0] =>
    destruct (syncCursorOr_facts rejected s0) as (F1 & F2 & F3 & l & F4 & F5)
  end.
  cbn [ctx store effects ctx_sinceMentionId withSinceMentionId] in *.
  split; [done|]. split; [done|].
  split; [etrans; [apply maxTwitterId_ub_l|exact F3]|].
  exists l. split; [done|]. exact F5.
Qed.

(** The mitigations and the [catch] leave the context and the store as
    they are, and do not access the cursor. *)
Lemma awaitAll_facts (rejected : option Await)
    (calls : list (Effect * Await)) (s : State) :
  noCursorAccess (calls.*1) →
  let s' := stateOf (awaitAll rejected calls s) in
  ctx s' = ctx s ∧ store s' = store s
  ∧ ∃ l, effects s' = effects s ++ l ∧ noCursorAccess l.
Proof.
  revert s. induction calls as [|[call a] calls IH]; intros s Hcalls.
  - cbn. split; [done|]. split; [done|]. exists [].
    split; [by rewrite app_nil_r|constructor].
  - cbn [awaitAll]. rewrite fmap_cons in Hcalls.
    apply Forall_cons in Hcalls as [Hcall Hcalls]. cbn [fst] in Hcall.
    destruct (isRejected rejected a).
    + cbn. split; [done|]. split; [done|]. eexists. split; [done|].
      by repeat constructor.
    + destruct (IH (addEffects [call] s) Hcalls) as (I1 & I2 & l & I3 & I4).
      cbn zeta. rewrite I1, I2, I3. cbn.
      split; [done|]. split; [done|]. exists (call :: l).
      split; [by rewrite <- app_assoc|]. by constructor.
Qed.

Lemma mitigateOr_facts (rejected : option Await) (batch : TweetMentionBatch)
    (s : State) :
  let s' := stateOf (mitigateOr rejected batch s) in
  ctx s' = ctx s ∧ store s' = store s
  ∧ ∃ l, effects s' = effects s ++ l ∧ noCursorAccess l.
Proof.
  apply awaitAll_facts. unfold mitigations.
  destruct (hasNetworkError batch), (hasTwitterRateLimitError batch),
    (hasTwitterAuthError batch); by repeat constructor.
Qed.

Lemma catch_facts (inCatch : option CatchAwait) (s : State) :
  let s' := (catch inCatch s).1 in
  ctx s' = ctx s ∧ store s' = store s
  ∧ ∃ l, effects s' = effects s ++ l ∧ noCursorAccess l.
Proof.
  destruct inCatch as [[|]|]; cbn.
  all: split; [done|]; split; [done|]; eexists; split; [done|].
  all: by repeat constructor.
Qed.

(** After the batch was returned, the context and the store are those the
    cursor handling leaves, and the cursor is not accessed any more. *)
Lemma afterBatch_facts (rejected : option Await)
    (inCatch : option CatchAwait) (batch : TweetMentionBatch) (s : State) :
  let s0 := stateOf (advanceCursorOr rejected batch s) in
  let s' := (afterBatch rejected inCatch batch s).1 in
  ctx s' = ctx s0 ∧ store s' = store s0
  ∧ ∃ l, effects s' = effects s0 ++ l ∧ noCursorAccess l.
Proof.
  assert (∀ s0 : State,
            ctx s0 = ctx s0 ∧ store s0 = store s0
            ∧ ∃ l, effects s0 = effects s0 ++ l ∧ noCursorAccess l) as Hnil.
  { intros s0. split; [done|]. split; [done|]. exists [].
    split; [by rewrite app_nil_r|constructor]. }
  unfold afterBatch.
  destruct (advanceCursorOr rejected batch s) as [s0|s0]; cbn [stateOf].
  2:{ apply catch_facts. }
  destruct (earlyExit (ctx s0)); [apply Hnil|].
  destruct (0 <? _)%nat; [apply Hnil|].
  pose proof (mitigateOr_facts rejected batch s0) as (M1 & M2 & l & M3 & M4).
  destruct (mitigateOr rejected batch s0) as [s1|s1]; cbn [stateOf fst] in *.
  { split; [done|]. split; [done|]. by exists l. }
  destruct (catch_facts inCatch s1) as (C1 & C2 & k & C3 & C4).
  cbn zeta in *. rewrite C1, C2, C3, M1, M2, M3.
  split; [done|]. split; [done|]. exists (l ++ k).
  split; [by rewrite app_assoc|by apply noCursorAccess_app].
Qed.

(** The state the cursor handling of an iteration leaves. *)
Lemma iteration_facts (o : BatchOutcome) (s : State) :
  let s0 :=
    match o with
    | Failed | FailedFatally _ => s
    | Responded batch => advanceCursor batch s
    | Interrupted batch rejected _ =>
        stateOf (advanceCursorOr (Some rejected) batch s)
    end in
  let s' := (iteration o s).1 in
  ctx s' = ctx s0 ∧ store s' = store s0
  ∧ ∃ l, effects s' = effects s0 ++ l ∧ noCursorAccess l.
Proof.
  destruct o as [batch| |batch rejected inCatch|inCatch]; cbn [iteration].
  - apply (afterBatch_facts None None batch s).
  - apply catch_facts.
  - apply (afterBatch_facts (Some rejected) inCatch batch s).
  - apply catch_facts.
Qed.

Lemma syncCursor_store (s : State) :
  store (syncCursor s) =
  if truthy (maxTwitterId (ctx_sinceMentionId (ctx s)) (store s))
     && negb (dryRun (ctx s))
  then maxTwitterId (ctx_sinceMentionId (ctx s)) (store s)
  else store s.
Proof. rewrite syncCursor_eq. simpl. by destruct (_ && _). Qed.

Lemma advanceCursor_store_mono (batch : TweetMentionBatch) (s : State) :
  idLe (store s) (store (advanceCursor batch s)).
Proof. apply (advanceCursorOr_facts None batch s). Qed.

Lemma iteration_store (o : BatchOutcome) (s : State) :
  store (iteration o s).1 =
  match o with
  | Failed | FailedFatally _ => store s
  | Responded batch => store (advanceCursor batch s)
  | Interrupted batch rejected _ =>
      store (stateOf (advanceCursorOr (Some rejected) batch s))
  end.
Proof.
  destruct (iteration_facts o s) as (_ & -> & _). by destruct o.
Qed.

Lemma iteration_store_mono (o : BatchOutcome) (s : State) :
  idLe (store s) (store (iteration o s).1).
Proof.
  rewrite iteration_store.
  destruct o as [batch| |batch rejected inCatch|inCatch]; try reflexivity.
  - apply advanceCursor_store_mono.
  - apply (advanceCursorOr_facts (Some rejected) batch s).
Qed.

Lemma mainLoop_store_mono (outcomes : list BatchOutcome) (s : State) :
  idLe (store s) (store (mainLoop outcomes s)).
Proof.
  revert s. induction outcomes as [|o outcomes IH]; intros s; simpl.
  - reflexivity.
  - pose proof (iteration_store_mono o s) as Hs'.
    destruct (iteration o s) as [s' continue]. simpl in Hs'.
    destruct continue; [|done]. etrans; [exact Hs'|apply IH].
Qed.

Lemma advanceCursor_flags (batch : TweetMentionBatch) (s : State) :
  sameFlags (ctx s) (ctx (advanceCursor batch s)).
Proof. apply (advanceCursorOr_facts None batch s). Qed.

Lemma iteration_flags (o : BatchOutcome) (s : State) :
  sameFlags (ctx s) (ctx (iteration o s).1).
Proof.
  destruct (iteration_facts o s) as (-> & _).
  destruct o as [batch| |batch rejected inCatch|inCatch]; try done.
  - apply advanceCursor_flags.
  - apply (advanceCursorOr_facts (Some rejected) batch s).
Qed.

Lemma advanceCursor_dryRun (batch : TweetMentionBatch) (s : State) :
  dryRun (ctx s) = true →
  store (advanceCursor batch s) = store s ∧
  ∃ l, effects (advanceCursor batch s) = effects s ++ l ∧ noCursorWrite l.
Proof.
  intros D.
  destruct (advanceCursorOr_facts None batch s) as (_ & _ & _ & l & Hl & Hd).
  destruct (Hd D) as [Hst Hw]. split; [exact Hst|]. by exists l.
Qed.

Lemma iteration_dryRun (o : BatchOutcome) (s : State) :
  dryRun (ctx s) = true →
  store (iteration o s).1 = store s ∧
  ∃ l, effects (iteration o s).1 = effects s ++ l ∧ noCursorWrite l.
Proof.
  intros D. destruct (iteration_facts o s) as (_ & -> & l & -> & Hl).
  apply noCursorAccess_write in Hl.
  assert (∀ rejected batch,
            store (stateOf (advanceCursorOr rejected batch s)) = store s
            ∧ ∃ k, effects (stateOf (advanceCursorOr rejected batch s))
                   = effects s ++ k ∧ noCursorWrite k) as Hadv.
  { intros rejected batch.
    destruct (advanceCursorOr_facts rejected batch s)
      as (_ & _ & _ & k & Hk & Hd).
    destruct (Hd D) as [Hst Hw]. split; [exact Hst|]. by exists k. }
  destruct o as [batch| |batch rejected inCatch|inCatch].
  - destruct (Hadv None batch) as (Hst & k & Hk & Hw).
    split; [exact Hst|]. exists (k ++ l).
    unfold advanceCursor. rewrite Hk, <- app_assoc.
    split; [done|by apply noCursorWrite_app].
  - split; [done|]. by exists l.
  - destruct (Hadv (Some rejected) batch) as (Hst & k & Hk & Hw).
    split; [exact Hst|]. exists (k ++ l). rewrite Hk, <- app_assoc.
    split; [done|by apply noCursorWrite_app].
  - split; [done|]. by exists l.
Qed.

Lemma mainLoop_dryRun (outcomes : list BatchOutcome) (s : State) :
  dryRun (ctx s) = true →
  store (mainLoop outcomes s) = store s ∧
  ∃ l, effects (mainLoop outcomes s) = effects s ++ l ∧ noCursorWrite l.
Proof.
  revert s. induction outcomes as [|o outcomes IH]; intros s D; simpl.
  - split; [done|]. exists []. split; [by rewrite app_nil_r|].
    intros v. apply not_elem_of_nil.
  - pose proof (iteration_dryRun o s D) as (Hst & l & Hl & Hw).
    pose proof (iteration_flags o s) as (D' & _).
    destruct (iteration o s) as [s' continue]. simpl in *.
    destruct continue; [|by eauto].
    destruct (IH s') as (Hst' & l' & Hl' & Hw'); [congruence|].
    split; [congruence|]. exists (l ++ l').
    split; [by rewrite Hl', Hl, app_assoc|]. by apply noCursorWrite_app.
Qed.

Lemma advanceCursor_ctx (batch : TweetMentionBatch) (s : State) :
  truthy (batch_sinceMentionId batch) = true →
  debugTweetIds (ctx s) = [] →
  ctx_sinceMentionId (ctx (advanceCursor batch s)) =
  let merged :=
    maxTwitterId (ctx_sinceMentionId (ctx s)) (batch_sinceMentionId batch) in
  if resolveAllMentions (ctx s) then merged
  else maxTwitterId merged (store s).
Proof.
  intros T D. rewrite advanceCursor_eq. rewrite T, D. simpl.
  destruct (resolveAllMentions _); simpl; [done|].
  rewrite syncCursor_eq. simpl. by destruct (_ && _).
Qed.

Lemma advanceCursor_write (batch : TweetMentionBatch) (s : State) :
  truthy (batch_sinceMentionId batch) = true →
  debugTweetIds (ctx s) = [] →
  resolveAllMentions (ctx s) = false →
  dryRun (ctx s) = false →
  let written :=
    maxTwitterId
      (maxTwitterId (ctx_sinceMentionId (ctx s)) (batch_sinceMentionId batch))
      (store s) in
  store (advanceCursor batch s) = written ∧
  effects (advanceCursor batch s) =
    effects s ++ [DbGetSinceMentionId; DbSetSinceMentionId written].
Proof.
  intros T D R W written. rewrite advanceCursor_eq. rewrite T, D. simpl.
  rewrite R. simpl.
  rewrite syncCursor_eq. simpl. rewrite W, !maxTwitterId_truthy, T.
  rewrite orb_true_r. simpl. by rewrite <- app_assoc.
Qed.

End MainFacts.

(** C1: the persisted cursor never regresses, over any run of the control
    loop and over each batch; when a batch carries a cursor (and the run is
    neither a debug, an exhaustive nor a dry run), the value written is the
    maximum of the in-memory cursor merged with the batch's cursor and of
    the value re-read from the store just before, and when the batch's
    cursor advanced (it is at least the in-memory cursor) that is the
    maximum of the previously persisted value and the batch's cursor. *)
Theorem cursor_monotone :
  (∀ (outcomes : list Main.BatchOutcome) (s : Main.State),
     idLe (Main.store s) (Main.store (Main.mainLoop outcomes s)))
  ∧ (∀ (batch : TweetMentionBatch) (s : Main.State),
       idLe (Main.store s) (Main.store (Main.advanceCursor batch s)))
  ∧ (∀ (batch : TweetMentionBatch) (s : Main.State),
       truthy (batch_sinceMentionId batch) = true →
       debugTweetIds (Main.ctx s) = [] →
       resolveAllMentions (Main.ctx s) = false →
       dryRun (Main.ctx s) = false →
       let written :=
         maxTwitterId
           (maxTwitterId (ctx_sinceMentionId (Main.ctx s))
              (batch_sinceMentionId batch))
           (Main.store s) in
       Main.store (Main.advanceCursor batch s) = written
       ∧ Main.effects (Main.advanceCursor batch s) =
           Main.effects s ++
           [Main.DbGetSinceMentionId; Main.DbSetSinceMentionId written]
       ∧ idLe (batch_sinceMentionId batch) written
       ∧ (idLe (ctx_sinceMentionId (Main.ctx s)) (batch_sinceMentionId batch) →
          idEq written
            (maxTwitterId (Main.store s) (batch_sinceMentionId batch)))).
Proof.
  split; [exact mainLoop_store_mono|].
  split; [exact advanceCursor_store_mono|].
  intros batch s T D R W written.
  destruct (advanceCursor_write batch s T D R W) as [Hst Heff].
  split; [exact Hst|]. split; [exact Heff|]. split.
  - unfold written. etrans; [apply maxTwitterId_ub_r|apply maxTwitterId_ub_l].
  - intros Hadv. unfold written.
    etrans; [|apply maxTwitterId_comm].
    apply maxTwitterId_proper; [|done]. by apply maxTwitterId_le_r.
Qed.

Lemma cursor_monotone_witness :
  let batch :=
    {| batch_sinceMentionId := Some "1200";
       hasTwitterRateLimitError := false;
       hasTwitterAuthError := false;
       hasNetworkError := false |} in
  let s :=
    {| Main.ctx := {| ctx_sinceMentionId := Some "900"; dryRun := false;
                      noCache := false; earlyExit := false;
                      resolveAllMentions := false; debugTweetIds := [] |};
       Main.store := Some "1000";
       Main.effects := [] |} in
  Main.store (Main.advanceCursor batch s) = Some "1200"
  ∧ idEq (Some "1200")
      (maxTwitterId (Main.store s) (batch_sinceMentionId batch)).
Proof.
  intros batch s.
  destruct (proj2 (proj2 cursor_monotone) batch s) as (H1 & _ & _ & H2);
    [reflexivity..|].
  split; [exact H1|]. apply H2. reflexivity.
Defined.

(** C9: in a dry run no iteration of the control loop writes the cursor:
    the persisted cursor is left as it was and [setSinceMentionId] is not
    among the effects, although a batch still advances the in-memory
    cursor. *)
Theorem dryRun_never_writes_cursor
    (outcomes : list Main.BatchOutcome) (s : Main.State) :
  dryRun (Main.ctx s) = true →
  (Main.store (Main.mainLoop outcomes s) = Main.store s
   ∧ ∃ l, Main.effects (Main.mainLoop outcomes s) = Main.effects s ++ l
          ∧ Main.noCursorWrite l)
  ∧ (∀ batch : TweetMentionBatch,
       truthy (batch_sinceMentionId batch) = true →
       debugTweetIds (Main.ctx s) = [] →
       Main.store (Main.advanceCursor batch s) = Main.store s
       ∧ idLe (batch_sinceMentionId batch)
              (ctx_sinceMentionId (Main.ctx (Main.advanceCursor batch s)))).
Proof.
  intros D. split; [by apply mainLoop_dryRun|].
  intros batch T Dbg. split; [by apply advanceCursor_dryRun|].
  rewrite advanceCursor_ctx by done. simpl.
  destruct (resolveAllMentions _); [apply maxTwitterId_ub_r|].
  etrans; [apply maxTwitterId_ub_r|apply maxTwitterId_ub_l].
Qed.

Lemma dryRun_never_writes_cursor_witness :
  let batch :=
    {| batch_sinceMentionId := Some "1200";
       hasTwitterRateLimitError := false;
       hasTwitterAuthError := false;
       hasNetworkError := true |} in
  let s :=
    {| Main.ctx := {| ctx_sinceMentionId := Some "900"; dryRun := true;
                      noCache := false; earlyExit := false;
                      resolveAllMentions := false; debugTweetIds := [] |};
       Main.store := Some "1000";
       Main.effects := [] |} in
  Main.store (Main.mainLoop [Main.Responded batch; Main.Failed] s) = Some "1000"
  ∧ Main.store (Main.advanceCursor batch s) = Some "1000".
Proof.
  intros batch s.
  destruct (dryRun_never_writes_cursor
              [Main.Responded batch; Main.Failed] s) as [[H1 _] H2];
    [reflexivity|].
  split; [exact H1|]. apply (H2 batch); reflexivity.
Defined.


(** ** The thread resolver *)

Section ThreadFacts.
Import Thread.
Context (env : Env).

Lemma rootOf_snoc (anc : list Message) (p m : Message) :
  rootOf (anc ++ [p]) m = rootOf anc p.
Proof. by destruct anc. Qed.

(** The walk along [parentMessageId] pushes the ancestors, newest first,
    as fresh objects, and ends at the oldest turn. *)
Lemma walkParents_chain (m : Message) (anc : list Message) :
  ParentChain env m anc →
  ∀ (fuel next ref : nat) (acc : list MessageObj),
    length anc < fuel →
    ∃ (root : MessageObj) (objs : list MessageObj),
      walkParents env fuel next {| obj_ref := ref; obj_val := m |} acc
        = Some (root, acc ++ objs)
      ∧ obj_val root = rootOf anc m
      ∧ obj_val <$> objs = reverse anc
      ∧ Forall (λ o, next ≤ obj_ref o) objs.
Proof.
  induction 1 as [m Hroot|m p anc Hp Hget Hchain IH];
    intros fuel next ref acc Hfuel.
  - destruct fuel as [|fuel]; [simpl in Hfuel; lia|].
    exists {| obj_ref := ref; obj_val := m |}, []. simpl.
    rewrite app_nil_r. repeat split; [|constructor].
    destruct Hroot as [->|Hnone]; [done|].
    destruct (truthy _); [|done]. by rewrite Hnone.
  - rewrite length_app in Hfuel. simpl in Hfuel.
    destruct fuel as [|fuel]; [lia|].
    destruct (IH fuel (S next) next
                (acc ++ [{| obj_ref := next; obj_val := p |}]))
      as (root & objs & Hwalk & Hval & Hvals & Hrefs); [lia|].
    exists root, ({| obj_ref := next; obj_val := p |} :: objs).
    simpl. rewrite Hp, Hget. simpl. rewrite Hwalk.
    split; [by rewrite <- app_assoc|].
    split; [by rewrite rootOf_snoc|].
    split; [rewrite reverse_snoc; f_equal; exact Hvals|].
    constructor; [simpl; lia|].
    eapply Forall_impl; [exact Hrefs|]. simpl. lia.
Qed.

Lemma walkReplies_chain (t : Tweet) (older : list Tweet) :
  ReplyChain env t older →
  ∀ (fuel : nat) (acc : list Tweet),
    length older < fuel →
    walkReplies env fuel t acc = Some (acc ++ reverse older).
Proof.
  induction 1 as [t Hend|t r t' older Hfind Hget Hchain IH];
    intros fuel acc Hfuel.
  - destruct fuel as [|fuel]; [simpl in Hfuel; lia|]. simpl.
    rewrite app_nil_r.
    destruct (List.find isRepliedTo (referenced_tweets t)) as [r|] eqn:E;
      [|done].
    by rewrite (Hend r).
  - rewrite length_app in Hfuel. simpl in Hfuel.
    destruct fuel as [|fuel]; [lia|]. simpl.
    rewrite Hfind, Hget, IH by lia.
    by rewrite reverse_snoc, <- app_assoc.
Qed.

Lemma resolvePrevTweets_chain (root : Message) (b : bool)
    (prev : list Tweet) (fuel : nat) :
  PrevTweets env root b prev →
  length prev < fuel →
  resolvePrevTweets env fuel b root = Some (reverse prev).
Proof.
  intros [|b' Hnone|t older Hget Hchain] Hfuel; unfold resolvePrevTweets.
  - done.
  - rewrite Hnone. by destruct b'.
  - rewrite Hget. by rewrite (walkReplies_chain t older Hchain).
Qed.

(** Turns read from the store are rendered as the spec renders earlier
    turns. *)
Lemma render_fetched (objs : list MessageObj) :
  Forall (λ o, 1 ≤ obj_ref o) objs →
  filter (λ m, keepMessage m = true) objs ≫= chatMessagesForMessage =
  filter (λ m, hasError m = false) (obj_val <$> objs) ≫= renderTurn.
Proof.
  induction 1 as [|o objs Ho Hobjs IH]; [done|].
  rewrite fmap_cons, !filter_cons.
  assert (Nat.eqb (obj_ref o) leafRef = false) as Href.
  { apply Nat.eqb_neq. unfold leafRef. lia. }
  assert (keepMessage o = negb (hasError (obj_val o))) as Hk.
  { unfold keepMessage, hasError. by rewrite Href, orb_false_r. }
  destruct (decide (keepMessage o = true)) as [K|K],
    (decide (hasError (obj_val o) = false)) as [E|E].
  - rewrite !bind_cons, IH. f_equal.
    unfold chatMessagesForMessage, renderTurn.
    by rewrite Href, andb_true_r.
  - rewrite Hk in K. by destruct (hasError (obj_val o)).
  - rewrite Hk, E in K. done.
  - exact IH.
Qed.

(** The resolver computes the rendered context of the spec. *)
Lemma resolveMessageThread_render (leaf : Message) (anc : list Message)
    (b : bool) (prev : list Tweet) (fuel : nat) :
  ParentChain env leaf anc →
  PrevTweets env (rootOf anc leaf) b prev →
  length anc < fuel →
  length prev < fuel →
  resolveMessageThread env fuel leaf b = Some (renderThread prev anc leaf).
Proof.
  intros Hchain Hprev Hf1 Hf2. unfold resolveMessageThread.
  destruct (walkParents_chain leaf anc Hchain fuel (S leafRef) leafRef
              [{| obj_ref := leafRef; obj_val := leaf |}] Hf1)
    as (root & objs & -> & Hroot & Hvals & Hrefs).
  rewrite Hroot, (resolvePrevTweets_chain _ _ _ _ Hprev Hf2).
  unfold renderThread. f_equal.
  rewrite reverse_involutive. f_equal.
  change ([{| obj_ref := leafRef; obj_val := leaf |}] ++ objs)
    with ({| obj_ref := leafRef; obj_val := leaf |} :: objs).
  rewrite reverse_cons, filter_app, bind_app.
  rewrite render_fetched.
  2:{ apply Forall_reverse. eapply Forall_impl; [exact Hrefs|].
      unfold leafRef. simpl. lia. }
  rewrite fmap_reverse, Hvals, reverse_involutive. f_equal.
  rewrite filter_cons, decide_True.
  2:{ unfold keepMessage. simpl. apply orb_true_r. }
  rewrite filter_nil. unfold chatMessagesForMessage. simpl.
  by rewrite andb_false_r.
Qed.

Lemma chain_prefix (leaf e : Message) (anc1 anc2 : list Message) :
  ParentChain env leaf (anc1 ++ e :: anc2) → ParentChain env e anc1.
Proof.
  remember (anc1 ++ e :: anc2) as anc eqn:E.
  intros H. revert anc2 E.
  induction H as [m Hroot|m p anc Hp Hget Hchain IH]; intros anc2 E.
  - by destruct anc1.
  - destruct anc2 as [|x anc2 _] using rev_ind.
    + apply app_inj_tail in E as [-> ->]. exact Hchain.
    + rewrite app_comm_cons, app_assoc in E.
      apply app_inj_tail in E as [-> ->]. by eapply IH.
Qed.

Lemma chain_withResponse (m : Message) (r : option string)
    (anc : list Message) :
  ParentChain env m anc → ParentChain env (withResponse m r) anc.
Proof.
  intros H. destruct H as [m Hroot|m p anc Hp Hget Hchain].
  - by apply chain_root.
  - by apply chain_step.
Qed.

Lemma prev_same_post (root root' : Message) (b : bool) (prev : list Tweet) :
  promptTweetId root' = promptTweetId root →
  PrevTweets env root b prev → PrevTweets env root' b prev.
Proof.
  intros E [|b' Hnone|t older Hget Hchain].
  - apply prev_disabled.
  - apply prev_unresolved. by rewrite E.
  - apply (prev_chain _ _ t); [by rewrite E|done].
Qed.

Lemma filter_drop_failed (e : Message) (anc1 anc2 : list Message) :
  hasError e = true →
  filter (λ m, hasError m = false) (anc1 ++ e :: anc2) =
  filter (λ m, hasError m = false) (anc1 ++ anc2).
Proof.
  intros He. rewrite !filter_app, filter_cons.
  rewrite decide_False; [done|]. by rewrite He.
Qed.

End ThreadFacts.

Example resolve_sample :
  Thread.resolveMessageThread Thread.sampleEnv 5 Thread.sampleT3 true =
  Some [Thread.MsgUser "proof assistants are fun";
        Thread.MsgUser "what is rocq?";
        Thread.MsgAssistant "a proof assistant";
        Thread.MsgUser "who makes it?"; Thread.MsgAssistant "inria";
        Thread.MsgUser "since when?"].
Proof. vm_compute. reflexivity. Qed.

Example resolve_sample_failed :
  Thread.resolveMessageThread Thread.sampleEnvFailed 5 Thread.sampleT3 false =
  Some [Thread.MsgUser "what is rocq?";
        Thread.MsgAssistant "a proof assistant";
        Thread.MsgUser "since when?"].
Proof. vm_compute. reflexivity. Qed.

Example resolve_sample_retry :
  Thread.resolveMessageThread Thread.sampleEnvFailed 5 Thread.sampleT2failed
    false =
  Some [Thread.MsgUser "what is rocq?";
        Thread.MsgAssistant "a proof assistant";
        Thread.MsgUser "who makes it?"].
Proof. vm_compute. reflexivity. Qed.

Example resolve_out_of_fuel :
  Thread.resolveMessageThread Thread.sampleEnv 2 Thread.sampleT3 true = None.
Proof. vm_compute. reflexivity. Qed.

(** C5: the resolver returns the thread oldest first: the remote posts
    that precede the oldest turn (as user entries, oldest first), then the
    earlier turns from the root on (prompt, then response), then the prompt
    of the leaf as the last entry. The response of the leaf is never
    rendered: the output is the same whatever that response is. For turns
    [T1] (root), [T2] and the leaf [T3], none failed, the output renders
    [T1], [T2], [T3] in this order. *)
Theorem thread_order (env : Thread.Env) (leaf : Message)
    (anc : list Message) (b : bool) (prev : list Tweet) (fuel : nat) :
  Thread.ParentChain env leaf anc →
  Thread.PrevTweets env (Thread.rootOf anc leaf) b prev →
  length anc < fuel →
  length prev < fuel →
  Thread.resolveMessageThread env fuel leaf b =
    Some (((λ t, Thread.MsgUser (tweet_text t)) <$> prev) ++
          (filter (λ m, Thread.hasError m = false) anc ≫= Thread.renderTurn) ++
          [Thread.MsgUser (prompt leaf)])
  ∧ (∀ r : option string,
       Thread.resolveMessageThread env fuel (Thread.withResponse leaf r) b =
       Thread.resolveMessageThread env fuel leaf b)
  ∧ (∀ T1 T2 : Message,
       anc = [T1; T2] →
       Thread.hasError T1 = false →
       Thread.hasError T2 = false →
       Thread.resolveMessageThread env fuel leaf b =
         Some (((λ t, Thread.MsgUser (tweet_text t)) <$> prev) ++
               Thread.renderTurn T1 ++ Thread.renderTurn T2 ++
               [Thread.MsgUser (prompt leaf)])).
Proof.
  intros Hchain Hprev Hf1 Hf2.
  pose proof (resolveMessageThread_render env leaf anc b prev fuel
                Hchain Hprev Hf1 Hf2) as Hr.
  split; [exact Hr|]. split.
  - intros r. rewrite Hr.
    rewrite (resolveMessageThread_render env _ anc b prev fuel); [done| | |done..].
    + by apply chain_withResponse.
    + destruct anc; [|done].
      by apply (prev_same_post env leaf).
  - intros T1 T2 -> E1 E2. rewrite Hr. unfold Thread.renderThread.
    rewrite !filter_cons, filter_nil, !decide_True by done.
    rewrite !bind_cons. change ([] ≫= Thread.renderTurn) with (@nil Thread.Msg).
    by rewrite app_nil_r, <- !app_assoc.
Qed.

Lemma thread_order_witness :
  Thread.resolveMessageThread Thread.sampleEnv 3 Thread.sampleT3 true =
  Some [Thread.MsgUser "proof assistants are fun";
        Thread.MsgUser "what is rocq?";
        Thread.MsgAssistant "a proof assistant";
        Thread.MsgUser "who makes it?"; Thread.MsgAssistant "inria";
        Thread.MsgUser "since when?"].
Proof.
  refine (proj1 (thread_order Thread.sampleEnv Thread.sampleT3
            [Thread.sampleT1; Thread.sampleT2] true [Thread.samplePost90] 3
            _ _ _ _)).
  - apply (Thread.chain_step _ Thread.sampleT3 Thread.sampleT2
             [Thread.sampleT1]); [reflexivity..|].
    apply (Thread.chain_step _ Thread.sampleT2 Thread.sampleT1 []);
      [reflexivity..|].
    apply Thread.chain_root. left. reflexivity.
  - apply (Thread.prev_chain _ _ Thread.samplePost100); [reflexivity|].
    apply (Thread.reply_step _ Thread.samplePost100
             {| ref_type := "replied_to"; ref_id := "90" |}
             Thread.samplePost90 []); [reflexivity..|].
    apply Thread.reply_end. intros r Hr. discriminate Hr.
  - simpl. lia.
  - simpl. lia.
Defined.

(** C6: a turn before the leaf that carries an error contributes nothing
    to the rendered context (the output is that of the thread without it),
    while the same turn, resolved as the leaf, is retained: its prompt is
    the last entry of the output. *)
Theorem error_turn_exclusion (env : Thread.Env) (leaf e : Message)
    (anc1 anc2 : list Message) (b : bool) (prev : list Tweet) (fuel : nat) :
  Thread.ParentChain env leaf (anc1 ++ e :: anc2) →
  Thread.hasError e = true →
  Thread.PrevTweets env (Thread.rootOf (anc1 ++ e :: anc2) leaf) b prev →
  length (anc1 ++ e :: anc2) < fuel →
  length prev < fuel →
  Thread.resolveMessageThread env fuel leaf b =
    Some (Thread.renderThread prev (anc1 ++ anc2) leaf)
  ∧ Thread.resolveMessageThread env fuel e b =
      Some (Thread.renderThread prev anc1 e)
  ∧ (∃ out, Thread.resolveMessageThread env fuel e b = Some out
            ∧ last out = Some (Thread.MsgUser (prompt e))).
Proof.
  intros Hchain He Hprev Hf1 Hf2.
  assert (Thread.resolveMessageThread env fuel e b =
          Some (Thread.renderThread prev anc1 e)) as Hleaf.
  { apply resolveMessageThread_render; [by eapply chain_prefix| | |done].
    - by destruct anc1.
    - rewrite length_app in Hf1. lia. }
  split; [|split; [exact Hleaf|]].
  - rewrite (resolveMessageThread_render env leaf _ b prev fuel
               Hchain Hprev Hf1 Hf2).
    unfold Thread.renderThread. by rewrite filter_drop_failed.
  - eexists. split; [exact Hleaf|].
    unfold Thread.renderThread. by rewrite app_assoc, last_snoc.
Qed.

Lemma error_turn_exclusion_witness :
  Thread.resolveMessageThread Thread.sampleEnvFailed 3 Thread.sampleT3 false =
    Some [Thread.MsgUser "what is rocq?";
          Thread.MsgAssistant "a proof assistant";
          Thread.MsgUser "since when?"]
  ∧ Thread.resolveMessageThread Thread.sampleEnvFailed 3
      Thread.sampleT2failed false =
    Some [Thread.MsgUser "what is rocq?";
          Thread.MsgAssistant "a proof assistant";
          Thread.MsgUser "who makes it?"].
Proof.
  refine (let H := error_turn_exclusion Thread.sampleEnvFailed Thread.sampleT3
            Thread.sampleT2failed [Thread.sampleT1] [] false [] 3 _ _ _ _ _
          in conj (proj1 H) (proj1 (proj2 H))).
  - apply (Thread.chain_step _ Thread.sampleT3 Thread.sampleT2failed
             [Thread.sampleT1]); [reflexivity..|].
    apply (Thread.chain_step _ Thread.sampleT2failed Thread.sampleT1 []);
      [reflexivity..|].
    apply Thread.chain_root. left. reflexivity.
  - reflexivity.
  - apply Thread.prev_disabled.
  - simpl. lia.
  - simpl. lia.
Defined.

(** C7: for a leaf without [parentMessageId] whose post has no resolvable
    replied-to reference (or with the remote thread not asked for), the
    resolver returns the single user entry of the leaf's prompt. *)
Theorem single_turn_thread (env : Thread.Env) (leaf : Message) (b : bool)
    (fuel : nat) :
  truthy (parentMessageId leaf) = false →
  (b = false
   ∨ Thread.remote_tweets env !! promptTweetId leaf = None
   ∨ ∃ t, Thread.remote_tweets env !! promptTweetId leaf = Some t
          ∧ ∀ r, List.find Thread.isRepliedTo (referenced_tweets t) = Some r →
                 Thread.remote_tweets env !! ref_id r = None) →
  0 < fuel →
  Thread.resolveMessageThread env fuel leaf b =
    Some [Thread.MsgUser (prompt leaf)].
Proof.
  intros Hp Hprev Hfuel.
  apply (resolveMessageThread_render env leaf [] b [] fuel); [| |done..].
  - apply Thread.chain_root. by left.
  - destruct Hprev as [->|[Hnone|(t & Hget & Hend)]].
    + apply Thread.prev_disabled.
    + by apply Thread.prev_unresolved.
    + destruct b; [|apply Thread.prev_disabled].
      apply (Thread.prev_chain _ _ t); [done|]. by apply Thread.reply_end.
Qed.

Lemma single_turn_thread_witness :
  Thread.resolveMessageThread
    {| Thread.db_messages := ∅;
       Thread.remote_tweets := <["90" := Thread.samplePost90]> ∅ |}
    1
    {| msg_id := "90"; prompt := "proof assistants are fun";
       promptTweetId := "90"; response := Some "indeed";
       parentMessageId := None; error := None |}
    true
  = Some [Thread.MsgUser "proof assistants are fun"].
Proof.
  apply single_turn_thread.
  - reflexivity.
  - right. right. exists Thread.samplePost90.
    split; [reflexivity|]. intros r Hr. discriminate Hr.
  - lia.
Defined.

(** ** The mention fetcher *)

Section MentionsFacts.
Import Mentions.

Lemma raiseSince_app (s : option string) (a b : list Tweet) :
  raiseSince s (a ++ b) = raiseSince (raiseSince s a) b.
Proof. apply foldl_app. Qed.

Lemma raiseSince_ge (s : option string) (data : list Tweet) :
  idLe s (raiseSince s data).
Proof.
  revert s. induction data as [|m data IH]; intros s; simpl; [reflexivity|].
  etrans; [apply maxTwitterId_ub_l|apply IH].
Qed.

Lemma raiseSince_mono (s s' : option string) (data : list Tweet) :
  idLe s s' → idLe s (raiseSince s' data).
Proof. intros H. etrans; [exact H|apply raiseSince_ge]. Qed.

Lemma raiseSince_bound (s : option string) (data : list Tweet) (m : Tweet) :
  m ∈ data → idLe (Some (tweet_id m)) (raiseSince s data).
Proof.
  revert s. induction data as [|m' data IH]; intros s Hm.
  - by apply elem_of_nil in Hm.
  - apply elem_of_cons in Hm as [->|Hm]; simpl; [|by apply IH].
    apply raiseSince_mono, maxTwitterId_ub_r.
Qed.

Lemma raiseSince_attained (s : option string) (data : list Tweet) :
  idEq (raiseSince s data) s
  ∨ ∃ m, m ∈ data ∧ idEq (raiseSince s data) (Some (tweet_id m)).
Proof.
  revert s. induction data as [|m data IH]; intros s; simpl; [by left|].
  destruct (IH (maxTwitterId s (Some (tweet_id m)))) as [E|(m' & Hm' & E)].
  - destruct (maxTwitterId_cases s (Some (tweet_id m))) as [E'|E'].
    + left. by etrans.
    + right. exists m. split; [apply elem_of_cons; by left|by etrans].
  - right. exists m'. split; [apply elem_of_cons; by right|done].
Qed.

Lemma addUsers_app (m : gmap string TwitterUser) (a b : list TwitterUser) :
  addUsers m (a ++ b) = addUsers (addUsers m a) b.
Proof. apply foldl_app. Qed.

Lemma addTweets_app (m : gmap string Tweet) (a b : list Tweet) :
  addTweets m (a ++ b) = addTweets (addTweets m a) b.
Proof. apply foldl_app. Qed.

Lemma addPages_nil (r : TweetMentionFetchResult) : addPages r [] = r.
Proof. destruct r. unfold addPages. simpl. by rewrite app_nil_r. Qed.

Lemma addPages_app (r : TweetMentionFetchResult) (ps qs : list Page) :
  addPages (addPages r ps) qs = addPages r (ps ++ qs).
Proof.
  unfold addPages, pageMentions. simpl.
  by rewrite !bind_app, raiseSince_app, addUsers_app, addTweets_app,
    app_assoc.
Qed.

Lemma addPosts_nil (r : TweetMentionFetchResult) : addPosts r [] = r.
Proof. destruct r. unfold addPosts. simpl. by rewrite app_nil_r. Qed.

(** A body that runs to its end merges the page. *)
Lemma processPage_resolved (env : Env) (ctx : Context) (userId : string)
    (st st' : QueryState) (page : Page) :
  processPage env ctx userId st page = (st', None) →
  st' =
  {| qs_result := addPages (qs_result st) [page];
     qs_effects := qs_effects st ++ pageEffects ctx userId [page];
     numMentionsInQuery := numMentionsInQuery st + length (page_data page);
     numPagesInQuery := S (numPagesInQuery st) |}.
Proof.
  unfold processPage.
  destruct (if _ && _ then _ else None) as [err|]; [done|].
  intros [= <-].
  unfold addPages, pageEffects, pageMentions.
  rewrite !bind_cons. change ([] ≫= page_data) with (@nil Tweet).
  change ([] ≫= page_users) with (@nil TwitterUser).
  change ([] ≫= page_tweets) with (@nil Tweet).
  rewrite !app_nil_r.
  destruct (page_data page) as [|m data]; simpl; [|done].
  by rewrite app_nil_r, Nat.add_0_r.
Qed.

(** A body left at a rejected write has appended the posts of the page,
    and nothing else. *)
Lemma processPage_rejected (env : Env) (ctx : Context) (userId : string)
    (st st' : QueryState) (page : Page) (err : ApiError) :
  processPage env ctx userId st page = (st', Some err) →
  st' =
  {| qs_result := addPosts (qs_result st) (page_data page);
     qs_effects :=
       qs_effects st ++
       [ApiPage page; DbUpsertTweetMentions userId (page_data page);
        DbRejected err];
     numMentionsInQuery := numMentionsInQuery st + length (page_data page);
     numPagesInQuery := S (numPagesInQuery st) |}
  ∧ noCache ctx = false ∧ page_data page ≠ [].
Proof.
  unfold processPage.
  destruct ((0 <? length (page_data page))%nat && negb (noCache ctx))
    eqn:Hwrite; [|done].
  destruct (upsertTweetMentionsForUserId _ _ _ _) as [err'|]; [|done].
  intros [= <- <-]. apply andb_true_iff in Hwrite as [Hdata Hnc].
  split; [by rewrite <- app_assoc|].
  split; [by apply negb_true_iff|].
  intros E. by rewrite E in Hdata.
Qed.

Lemma pageEffects_app (ctx : Context) (userId : string) (ps qs : list Page) :
  pageEffects ctx userId (ps ++ qs) =
  pageEffects ctx userId ps ++ pageEffects ctx userId qs.
Proof. apply bind_app. Qed.

Lemma pageEffects_one (ctx : Context) (userId : string) (p : Page) :
  pageEffects ctx userId [p] =
  ApiPage p ::
  (if (0 <? length (page_data p))%nat && negb (noCache ctx)
   then [DbUpsertTweetMentions userId (page_data p)]
   else []).
Proof. unfold pageEffects. rewrite bind_cons. apply app_nil_r. Qed.

Lemma pageMentions_app (ps qs : list Page) :
  pageMentions (ps ++ qs) = pageMentions ps ++ pageMentions qs.
Proof. apply bind_app. Qed.

Lemma pageMentions_one (p : Page) : pageMentions [p] = page_data p.
Proof. unfold pageMentions. rewrite bind_cons. apply app_nil_r. Qed.

(** The pages of a query are merged one after the other, up to the end or
    to a page [cut] short by a rejected write. *)
Lemma consumePages_run (env : Env) (ctx : Context) (userId : string)
    (ps : list Page) :
  ∀ st st' rej,
    consumePages env ctx userId st ps = (st', rej) →
    ∃ merged cut,
      qs_result st' =
        addPosts (addPages (qs_result st) merged) (pageMentions cut)
      ∧ qs_effects st' =
          qs_effects st ++ pageEffects ctx userId merged ++
          (cut ≫= λ p,
             [ApiPage p; DbUpsertTweetMentions userId (page_data p)]) ++
          match rej with Some err => [DbRejected err] | None => [] end
      ∧ numMentionsInQuery st' =
          numMentionsInQuery st + length (pageMentions (merged ++ cut))
      ∧ match rej with
        | None => cut = [] ∧ merged = ps
        | Some err =>
            ∃ p, cut = [p] ∧ noCache ctx = false ∧ page_data p ≠ []
        end.
Proof.
  induction ps as [|p ps IH]; intros st st' rej Hrun.
  - injection Hrun as <- <-. exists [], []. rewrite addPages_nil, addPosts_nil.
    unfold pageEffects, pageMentions. simpl.
    by rewrite app_nil_r, Nat.add_0_r.
  - cbn [consumePages] in Hrun.
    destruct (processPage env ctx userId st p) as [st1 [err|]] eqn:Hp.
    + injection Hrun as <- <-.
      apply processPage_rejected in Hp as (-> & Hnc & Hdata).
      exists [], [p]. cbn [qs_result qs_effects numMentionsInQuery].
      rewrite addPages_nil, pageMentions_one.
      split; [done|].
      split; [unfold pageEffects; rewrite bind_cons; by simplify_list_eq|].
      split; [cbn [app]; by rewrite pageMentions_one|by eauto].
    + apply processPage_resolved in Hp as ->.
      destruct (IH _ _ _ Hrun) as (merged & cut & H1 & H2 & H3 & H4).
      cbn [qs_result qs_effects numMentionsInQuery] in *.
      exists (p :: merged), cut.
      change (p :: merged) with ([p] ++ merged).
      rewrite <- addPages_app, pageEffects_app, <- !app_assoc.
      rewrite pageMentions_app, pageMentions_one, length_app.
      split; [done|]. split; [by rewrite H2, <- !app_assoc|].
      split; [rewrite H3, pageMentions_app, length_app; lia|].
      destruct rej; [done|]. destruct H4 as [-> ->]. done.
Qed.

(** The [n]-th query of a call: its pages [merged], the page [cut] short
    by a rejected write if there is one, and what the effects show of
    them. *)
Lemma runQuery_run (env : Env) (ctx : Context) (userId : string)
    (n : nat) (result : TweetMentionFetchResult) (effects : list Effect) :
  let run := usersIdMentions env n userId (sinceMentionId result) in
  let st := (runQuery env ctx userId n result effects).1 in
  let failed := (runQuery env ctx userId n result effects).2 in
  ∃ merged cut rejections,
    qs_result st = addPosts (addPages result merged) (pageMentions cut)
    ∧ qs_effects st =
        effects ++
        ApiUsersIdMentions userId (sinceMentionId result) ::
        pageEffects ctx userId merged ++
        (cut ≫= λ p,
           [ApiPage p; DbUpsertTweetMentions userId (page_data p)]) ++
        (DbRejected <$> rejections)
    ∧ numMentionsInQuery st = length (pageMentions (merged ++ cut))
    ∧ length rejections = length cut
    ∧ ((cut = [] ∧ merged = pages run ∧ failed = failure run)
       ∨ (∃ p err, cut = [p] ∧ rejections = [err] ∧ failed = Some err
                   ∧ noCache ctx = false ∧ page_data p ≠ [])).
Proof.
  intros run st failed. unfold st, failed, runQuery. fold run.
  destruct (consumePages env ctx userId _ (pages run)) as [st' rej] eqn:Hrun.
  destruct (consumePages_run _ _ _ _ _ _ _ Hrun)
    as (merged & cut & H1 & H2 & H3 & H4).
  cbn [fst snd qs_result qs_effects numMentionsInQuery] in *.
  exists merged, cut,
    (match rej with Some err => [err] | None => [] end).
  split; [done|]. split; [|split; [done|]].
  - rewrite H2, <- !app_assoc. by destruct rej.
  - destruct rej as [err|].
    + destruct H4 as (p & -> & Hnc & Hdata). split; [done|]. right.
      by exists p, err.
    + destruct H4 as [-> ->]. split; [done|]. by left.
Qed.

(** *** The loop and its big-step description *)

Context (env : Env) (ctx : Context) (userId : string)
        (since_id : option string).

Local Abbreviation seed := (cacheSeed env ctx userId since_id).

Lemma fetchLoop_step (fuel n : nat) (result : TweetMentionFetchResult)
    (effects : list Effect) :
  fetchLoop env ctx userId (S fuel) n result effects =
  let st := (runQuery env ctx userId n result effects).1 in
  match (runQuery env ctx userId n result effects).2 with
  | None =>
      let eff := qs_effects st ++
        [LogQueryStats (numMentionsInQuery st) (numPagesInQuery st)] in
      if (numMentionsInQuery st <? 5)%nat || negb (resolveAllMentions ctx)
      then (Some (inl (qs_result st)), eff)
      else fetchLoop env ctx userId fuel (S n) (qs_result st) eff
  | Some err =>
      let eff := qs_effects st ++ [LogFetchError err] in
      if (0 <? length (mentions (qs_result st)))%nat
      then (Some (inl (qs_result st)), eff)
      else (Some (inr (fetchError env err)), eff)
  end.
Proof.
  cbn [fetchLoop]. by destruct (runQuery env ctx userId n result effects).
Qed.


(** Whatever the function answers is an end of the loop. *)
Lemma fetchLoop_end (fuel n : nat) (result : TweetMentionFetchResult)
    (effects : list Effect) x effects' :
  LoopAt env ctx userId since_id n result effects →
  fetchLoop env ctx userId fuel n result effects = (Some x, effects') →
  LoopEnd env ctx userId since_id x effects'.
Proof.
  revert n result effects.
  induction fuel as [|fuel IH]; intros n result effects Hat; [done|].
  rewrite fetchLoop_step.
  destruct (runQuery env ctx userId n result effects) as [st failed] eqn:Hrun.
  simpl. destruct failed as [err|].
  - destruct (0 <? _)%nat eqn:Hlen; intros [= <- <-].
    + by eapply end_partial.
    + by eapply end_failed.
  - destruct (_ || _) eqn:Hstop.
    + intros [= <- <-]. by eapply end_complete.
    + apply IH. by eapply loop_next.
Qed.

Lemma loopAt_start : LoopAt env ctx userId since_id 0 seed.1 seed.2.
Proof. apply loop_start. unfold cacheSeed. by destruct (readCache _ _ _ _ _). Qed.

(** *** What the effects tell *)

Lemma pageEffects_trace (ps : list Page) :
  pagesReceived (pageEffects ctx userId ps) = ps
  ∧ queriesSent (pageEffects ctx userId ps) = []
  ∧ queryYields (pageEffects ctx userId ps) = []
  ∧ fetchErrors (pageEffects ctx userId ps) = []
  ∧ (noCache ctx = true →
     Forall (λ e, isCacheEffect e = false) (pageEffects ctx userId ps))
  ∧ writeRejections (pageEffects ctx userId ps) = [].
Proof.
  induction ps as [|p ps (IH1 & IH2 & IH3 & IH4 & IH5 & IH6)].
  - repeat split; (done || (intros _; constructor)).
  - change (p :: ps) with ([p] ++ ps). rewrite pageEffects_app.
    unfold pagesReceived, queriesSent, queryYields, fetchErrors,
      writeRejections in *.
    rewrite !bind_app, IH1, IH2, IH3, IH4, IH6.
    rewrite pageEffects_one.
    repeat split.
    1-4, 6: by destruct (_ && _).
    intros Hnc. apply Forall_app. split; [|by apply IH5].
    rewrite Hnc, andb_false_r. by repeat constructor.
Qed.

(** The effects of a page cut short by a rejected write. *)
Lemma cutEffects_trace (cut : list Page) (rejections : list ApiError) :
  let eff :=
    (cut ≫= λ p, [ApiPage p; DbUpsertTweetMentions userId (page_data p)])
    ++ (DbRejected <$> rejections) in
  pagesReceived eff = cut
  ∧ queriesSent eff = []
  ∧ queryYields eff = []
  ∧ fetchErrors eff = []
  ∧ writeRejections eff = rejections.
Proof.
  assert (∀ l : list ApiError,
            pagesReceived (DbRejected <$> l) = []
            ∧ queriesSent (DbRejected <$> l) = []
            ∧ queryYields (DbRejected <$> l) = []
            ∧ fetchErrors (DbRejected <$> l) = []
            ∧ writeRejections (DbRejected <$> l) = l) as Hrej.
  { induction l as [|e l (H1 & H2 & H3 & H4 & H5)]; [done|].
    unfold pagesReceived, queriesSent, queryYields, fetchErrors,
      writeRejections in *.
    rewrite fmap_cons, !bind_cons, H1, H2, H3, H4, H5. done. }
  assert (∀ ps : list Page,
            let eff :=
              ps ≫= λ p,
                [ApiPage p; DbUpsertTweetMentions userId (page_data p)] in
            pagesReceived eff = ps
            ∧ queriesSent eff = []
            ∧ queryYields eff = []
            ∧ fetchErrors eff = []
            ∧ writeRejections eff = []) as Hcut.
  { induction ps as [|p ps (H1 & H2 & H3 & H4 & H5)]; [done|].
    cbn zeta in *.
    unfold pagesReceived, queriesSent, queryYields, fetchErrors,
      writeRejections in *.
    rewrite !bind_cons, !bind_app, H1, H2, H3, H4, H5. done. }
  destruct (Hrej rejections) as (H1 & H2 & H3 & H4 & H5).
  destruct (Hcut cut) as (I1 & I2 & I3 & I4 & I5).
  cbn zeta in *.
  unfold pagesReceived, queriesSent, queryYields, fetchErrors,
    writeRejections in *.
  rewrite !bind_app, H1, H2, H3, H4, H5, I1, I2, I3, I4, I5.
  by rewrite !app_nil_r.
Qed.

Lemma seed_trace :
  pagesReceived seed.2 = [] ∧ queriesSent seed.2 = []
  ∧ queryYields seed.2 = [] ∧ fetchErrors seed.2 = []
  ∧ (noCache ctx = true → seed.2 = [])
  ∧ writeRejections seed.2 = [].
Proof.
  unfold cacheSeed, readCache. destruct (noCache ctx); [done|].
  destruct (getCachedUserMentionsForUserSince _ _ _) as [c|]; [|done].
  by destruct (0 <? _)%nat.
Qed.

(** The [n]-th query of a call, as its effects show it: the pages
    [merged], the page [cut] short by a rejected write if there is one,
    and the error the [catch] receives. *)
Lemma runQuery_trace (n : nat) (result : TweetMentionFetchResult)
    (effects : list Effect) :
  let run := usersIdMentions env n userId (sinceMentionId result) in
  let st := (runQuery env ctx userId n result effects).1 in
  let failed := (runQuery env ctx userId n result effects).2 in
  ∃ merged cut rejections,
    ((cut = [] ∧ merged = pages run ∧ failed = failure run)
     ∨ (∃ p err, cut = [p] ∧ rejections = [err] ∧ failed = Some err
                 ∧ noCache ctx = false ∧ page_data p ≠ []))
    ∧ qs_result st = addPosts (addPages result merged) (pageMentions cut)
    ∧ numMentionsInQuery st = length (pageMentions (merged ++ cut))
    ∧ pagesReceived (qs_effects st) = pagesReceived effects ++ merged ++ cut
    ∧ queriesSent (qs_effects st) =
        queriesSent effects ++ [sinceMentionId result]
    ∧ queryYields (qs_effects st) = queryYields effects
    ∧ fetchErrors (qs_effects st) = fetchErrors effects
    ∧ (noCache ctx = true →
       Forall (λ e, isCacheEffect e = false) effects →
       Forall (λ e, isCacheEffect e = false) (qs_effects st))
    ∧ writeRejections (qs_effects st) = writeRejections effects ++ rejections
    ∧ length rejections = length cut.
Proof.
  intros run st failed.
  destruct (runQuery_run env ctx userId n result effects)
    as (merged & cut & rejections & R1 & R2 & R3 & R4 & R5).
  fold run st failed in R1, R2, R3, R5.
  exists merged, cut, rejections.
  destruct (pageEffects_trace merged) as (P1 & P2 & P3 & P4 & P5 & P6).
  pose proof (cutEffects_trace cut rejections) as C. cbn zeta in C.
  set (X := (cut ≫= _) ++ (DbRejected <$> rejections)) in *.
  destruct C as (C1 & C2 & C3 & C4 & C5).
  split; [done|]. split; [done|]. split; [done|].
  rewrite R2.
  unfold pagesReceived, queriesSent, queryYields, fetchErrors,
    writeRejections in *.
  rewrite !bind_app, !bind_cons, !bind_app.
  rewrite P1, P2, P3, P4, P6, C1, C2, C3, C4, C5.
  cbn [app]. rewrite ?app_nil_r.
  split; [done|]. split; [done|]. split; [done|]. split; [done|].
  split; [|done].
  intros Hnc Heff. apply Forall_app. split; [done|].
  constructor; [done|]. apply Forall_app. split; [by apply P5|].
  unfold X.
  destruct R5 as [(-> & _)|(p & err & _ & _ & _ & Hnc' & _)];
    [|congruence].
  assert (rejections = []) as -> by (by destruct rejections).
  constructor.
Qed.

(** A query that ran to its end merged all its pages. *)
Lemma runQuery_complete (n : nat) (result : TweetMentionFetchResult)
    (effects : list Effect) (st : QueryState) :
  runQuery env ctx userId n result effects = (st, None) →
  let run := usersIdMentions env n userId (sinceMentionId result) in
  failure run = None
  ∧ qs_result st = addPages result (pages run)
  ∧ numMentionsInQuery st = length (pageMentions (pages run))
  ∧ pagesReceived (qs_effects st) = pagesReceived effects ++ pages run
  ∧ queriesSent (qs_effects st) =
      queriesSent effects ++ [sinceMentionId result]
  ∧ queryYields (qs_effects st) = queryYields effects
  ∧ fetchErrors (qs_effects st) = fetchErrors effects
  ∧ (noCache ctx = true →
     Forall (λ e, isCacheEffect e = false) effects →
     Forall (λ e, isCacheEffect e = false) (qs_effects st))
  ∧ writeRejections (qs_effects st) = writeRejections effects.
Proof.
  intros Hrun run.
  destruct (runQuery_trace n result effects)
    as (merged & cut & rejections & R0 & R1 & R2 & R3 & R4 & R5 & R6 & R7
        & R8 & R9).
  rewrite Hrun in *. cbn [fst snd] in *. fold run in R0.
  destruct R0 as [(Hc & Hm & Hf)|(p & err & _ & _ & [=] & _)].
  subst cut merged. destruct rejections; [|done].
  rewrite !app_nil_r in *.
  change (pageMentions []) with (@nil Tweet) in R1.
  rewrite addPosts_nil in R1. done.
Qed.

(** What holds whenever the loop starts an iteration. *)
Lemma loopAt_inv (n : nat) (result : TweetMentionFetchResult)
    (effects : list Effect) :
  LoopAt env ctx userId since_id n result effects →
  result = addPages seed.1 (pagesReceived effects)
  ∧ length (queriesSent effects) = n
  ∧ length (queryYields effects) = n
  ∧ Forall (λ y, 5 ≤ y) (queryYields effects)
  ∧ fetchErrors effects = []
  ∧ (0 < n → resolveAllMentions ctx = true)
  ∧ (noCache ctx = true → Forall (λ e, isCacheEffect e = false) effects)
  ∧ writeRejections effects = [].
Proof.
  induction 1 as [result effects Hseed|n result effects st Hat IH Hrun Hgo].
  - destruct seed_trace as (S1 & S2 & S3 & S4 & S5 & S6).
    unfold cacheSeed in *. rewrite Hseed in *. simpl in *.
    rewrite S1, S2, S3, S4, S6, addPages_nil.
    repeat split; try done; try lia.
    intros Hnc. rewrite (S5 Hnc). constructor.
  - destruct IH as (I1 & I2 & I3 & I4 & I5 & I6 & I7 & I8).
    destruct (runQuery_complete n result effects st Hrun)
      as (_ & R1 & R2 & R3 & R4 & R5 & R6 & R7 & R8).
    simpl in *.
    apply orb_false_iff in Hgo as [Hfive Hall].
    apply Nat.ltb_ge in Hfive. apply negb_false_iff in Hall.
    unfold pagesReceived, queriesSent, queryYields, fetchErrors,
      writeRejections in *.
    rewrite !bind_app, !bind_cons. simpl.
    rewrite R3, R4, R5, R6, R8, !app_nil_r, !length_app. simpl.
    repeat split; try done; try lia.
    + by rewrite R1, I1 at 1; rewrite addPages_app.
    + apply Forall_app. split; [done|]. by repeat constructor.
    + intros Hnc. apply Forall_app. split; [by apply R7; auto|].
      by repeat constructor.
Qed.

Lemma trace_snoc (effects : list Effect) (e : Effect) :
  pagesReceived (effects ++ [e]) =
    pagesReceived effects ++ match e with ApiPage p => [p] | _ => [] end
  ∧ queriesSent (effects ++ [e]) =
    queriesSent effects ++
    match e with ApiUsersIdMentions _ s => [s] | _ => [] end
  ∧ queryYields (effects ++ [e]) =
    queryYields effects ++ match e with LogQueryStats k _ => [k] | _ => [] end
  ∧ fetchErrors (effects ++ [e]) =
    fetchErrors effects ++ match e with LogFetchError err => [err] | _ => [] end
  ∧ writeRejections (effects ++ [e]) =
    writeRejections effects ++ match e with DbRejected err => [err] | _ => [] end.
Proof.
  unfold pagesReceived, queriesSent, queryYields, fetchErrors,
    writeRejections.
  rewrite !bind_app, !bind_cons.
  repeat split; f_equal; apply app_nil_r.
Qed.

(** The facts of [runQuery_trace] for a query known by its outcome. *)
Ltac run_facts n result eff Hrun R :=
  let merged := fresh "merged" in
  let cut := fresh "cut" in
  let rejections := fresh "rejections" in
  pose proof (runQuery_trace n result eff) as (merged & cut & rejections & R);
  rewrite Hrun in R; cbn [fst snd] in R.

(** The pages merged and the page cut short, read off the effects. *)
Lemma merged_cut (effects : list Effect) (ps cut : list Page) :
  pagesReceived effects = ps ++ cut →
  length (writeRejections effects) = length cut →
  pagesMerged effects = ps ∧ pagesCut effects = cut.
Proof.
  intros Hp Hr. unfold pagesMerged, pagesCut. rewrite Hp, Hr, length_app.
  replace (length ps + length cut - length cut) with (length ps) by lia.
  by rewrite take_app_length, drop_app_length.
Qed.

Lemma merged_all (effects : list Effect) :
  writeRejections effects = [] →
  pagesMerged effects = pagesReceived effects ∧ pagesCut effects = [].
Proof.
  intros Hr. apply merged_cut; [by rewrite app_nil_r|by rewrite Hr].
Qed.

(** A result the loop ends with is what was gathered: the seed with the
    pages merged, and the posts of a page cut short by a rejected
    write. *)
Lemma loopEnd_result (r : TweetMentionFetchResult) (effects : list Effect) :
  LoopEnd env ctx userId since_id (inl r) effects →
  r = gatheredFrom seed.1 effects
  ∧ length (writeRejections effects) ≤ 1.
Proof.
  inversion 1 as [n result eff st Hat Hrun Hstop
                 |n result eff st err Hat Hrun Hlen|]; subst.
  all: destruct (loopAt_inv n result eff Hat)
         as (I1 & _ & _ & _ & _ & _ & _ & I8).
  all: run_facts n result eff Hrun R;
       destruct R as (R0 & R1 & _ & R3 & _ & _ & _ & _ & R8 & R9).
  all: rewrite I8 in R8; cbn [app] in R8.
  all: unfold gatheredFrom.
  all: match goal with |- context [qs_effects ?s ++ [?e]] =>
         destruct (trace_snoc (qs_effects s) e) as (T1 & _ & _ & _ & T5);
         rewrite app_nil_r in T1, T5;
         destruct (merged_cut (qs_effects s ++ [e])
                     (pagesReceived eff ++ merged) cut) as [-> ->];
           [by rewrite T1, R3, app_assoc|by rewrite T5, R8|]
       end.
  all: rewrite T5, R8, R9, R1; rewrite I1 at 1.
  all: rewrite addPages_app.
  all: split; [done|].
  all: destruct R0 as [(-> & _)|(p & e' & -> & _)]; simpl; lia.
Qed.

Lemma loopEnd_noCache x (effects : list Effect) :
  noCache ctx = true →
  LoopEnd env ctx userId since_id x effects →
  Forall (λ e, isCacheEffect e = false) effects
  ∧ writeRejections effects = [].
Proof.
  intros Hnc.
  inversion 1 as [n result eff st Hat Hrun Hstop
                 |n result eff st err Hat Hrun Hlen
                 |n result eff st err Hat Hrun Hlen]; subst.
  all: destruct (loopAt_inv n result eff Hat)
         as (_ & _ & _ & _ & _ & _ & I7 & I8).
  all: run_facts n result eff Hrun R;
       destruct R as (R0 & _ & _ & _ & _ & _ & _ & R7 & R8 & R9).
  all: match goal with |- context [qs_effects ?s ++ [?e]] =>
         destruct (trace_snoc (qs_effects s) e) as (_ & _ & _ & _ & T5) end.
  all: rewrite app_nil_r in T5; rewrite I8 in R8; cbn [app] in R8.
  all: split;
         [apply Forall_app; split; [by apply R7; auto|by repeat constructor]|].
  all: rewrite T5, R8.
  all: destruct R0 as [(-> & _)|(p & e' & _ & _ & _ & Hnc' & _)];
         [by destruct rejections|congruence].
Qed.



(** A completed call is an end of the loop, followed by the flush when it
    returns. *)
Lemma getTwitterUserIdMentions_end (fuel : nat) (c : Completion)
    (effects : list Effect) :
  getTwitterUserIdMentions env fuel userId since_id ctx = Some (c, effects) →
  ∃ x eff,
    LoopEnd env ctx userId since_id x eff
    ∧ match x with
      | inl r =>
          c = Return r
          ∧ effects = eff ++ [DbUpsertTweets (tweets r);
                              DbUpsertTwitterUsers (users r)]
      | inr err => c = Throw err ∧ effects = eff
      end.
Proof.
  unfold getTwitterUserIdMentions.
  pose proof loopAt_start as Hat. unfold cacheSeed in Hat.
  destruct (readCache env ctx userId since_id (emptyResult since_id))
    as [result eff0]. simpl in Hat.
  destruct (fetchLoop env ctx userId fuel 0 result eff0)
    as [[[r|err]|] eff] eqn:Hloop; [| |done].
  - intros [= <- <-]. exists (inl r), eff.
    split; [by eapply fetchLoop_end|done].
  - intros [= <- <-]. exists (inr err), eff.
    split; [by eapply fetchLoop_end|done].
Qed.



Lemma addTweets_mono (l : list Tweet) (m : gmap string Tweet) (k : string) :
  is_Some (m !! k) → is_Some (addTweets m l !! k).
Proof.
  revert m. induction l as [|t l IH]; intros m Hk; [done|].
  change (addTweets m (t :: l)) with (addTweets (<[tweet_id t := t]> m) l).
  apply IH. rewrite lookup_insert_is_Some.
  destruct (decide (tweet_id t = k)); auto.
Qed.

Lemma addTweets_lookup (l : list Tweet) (m : gmap string Tweet) (t : Tweet) :
  t ∈ l → is_Some (addTweets m l !! tweet_id t).
Proof.
  revert m. induction l as [|t' l IH]; intros m Ht.
  - by apply elem_of_nil in Ht.
  - change (addTweets m (t' :: l))
      with (addTweets (<[tweet_id t' := t']> m) l).
    apply elem_of_cons in Ht as [->|Ht]; [|by apply IH].
    apply addTweets_mono. rewrite lookup_insert_is_Some. by left.
Qed.

Lemma addUsers_mono (l : list TwitterUser) (m : gmap string TwitterUser)
    (k : string) :
  is_Some (m !! k) → is_Some (addUsers m l !! k).
Proof.
  revert m. induction l as [|u l IH]; intros m Hk; [done|].
  change (addUsers m (u :: l)) with (addUsers (<[user_id u := u]> m) l).
  apply IH. rewrite lookup_insert_is_Some.
  destruct (decide (user_id u = k)); auto.
Qed.

Lemma addUsers_lookup (l : list TwitterUser) (m : gmap string TwitterUser)
    (u : TwitterUser) :
  u ∈ l → is_Some (addUsers m l !! user_id u).
Proof.
  revert m. induction l as [|u' l IH]; intros m Hu.
  - by apply elem_of_nil in Hu.
  - change (addUsers m (u' :: l))
      with (addUsers (<[user_id u' := u']> m) l).
    apply elem_of_cons in Hu as [->|Hu]; [|by apply IH].
    apply addUsers_mono. rewrite lookup_insert_is_Some. by left.
Qed.

Lemma addTweets_from (l : list Tweet) (m : gmap string Tweet) (k : string) :
  is_Some (addTweets m l !! k) →
  is_Some (m !! k) ∨ ∃ t, t ∈ l ∧ tweet_id t = k.
Proof.
  revert m. induction l as [|t l IH]; intros m Hk; [by left|].
  change (addTweets m (t :: l)) with (addTweets (<[tweet_id t := t]> m) l)
    in Hk.
  destruct (IH _ Hk) as [Hm|(t' & Hin & E)].
  - apply lookup_insert_is_Some in Hm as [E|[_ Hm]]; [|by left].
    right. exists t. split; [apply elem_of_cons; by left|done].
  - right. exists t'. split; [apply elem_of_cons; by right|done].
Qed.

Lemma addUsers_from (l : list TwitterUser) (m : gmap string TwitterUser)
    (k : string) :
  is_Some (addUsers m l !! k) →
  is_Some (m !! k) ∨ ∃ u, u ∈ l ∧ user_id u = k.
Proof.
  revert m. induction l as [|u l IH]; intros m Hk; [by left|].
  change (addUsers m (u :: l)) with (addUsers (<[user_id u := u]> m) l)
    in Hk.
  destruct (IH _ Hk) as [Hm|(u' & Hin & E)].
  - apply lookup_insert_is_Some in Hm as [E|[_ Hm]]; [|by left].
    right. exists u. split; [apply elem_of_cons; by left|done].
  - right. exists u'. split; [apply elem_of_cons; by right|done].
Qed.

Lemma flush_trace (effects : list Effect) (r : TweetMentionFetchResult) :
  let flushed :=
    effects ++ [DbUpsertTweets (tweets r); DbUpsertTwitterUsers (users r)] in
  pagesReceived flushed = pagesReceived effects
  ∧ queriesSent flushed = queriesSent effects
  ∧ queryYields flushed = queryYields effects
  ∧ fetchErrors flushed = fetchErrors effects
  ∧ writeRejections flushed = writeRejections effects.
Proof.
  unfold pagesReceived, queriesSent, queryYields, fetchErrors,
    writeRejections.
  rewrite !bind_app, !bind_cons. repeat split; apply app_nil_r.
Qed.

Lemma flush_merged (effects : list Effect) (r : TweetMentionFetchResult) :
  let flushed :=
    effects ++ [DbUpsertTweets (tweets r); DbUpsertTwitterUsers (users r)] in
  pagesMerged flushed = pagesMerged effects
  ∧ pagesCut flushed = pagesCut effects.
Proof.
  intros flushed. destruct (flush_trace effects r) as (F1 & _ & _ & _ & F5).
  unfold pagesMerged, pagesCut. fold flushed in F1, F5. by rewrite F1, F5.
Qed.

Lemma merged_cut_received (effects : list Effect) :
  pageMentions (pagesMerged effects) ++ pageMentions (pagesCut effects)
  = pageMentions (pagesReceived effects).
Proof.
  unfold pagesMerged, pagesCut.
  by rewrite <- pageMentions_app, take_drop.
Qed.

(** *** The seed from the cache *)

Lemma seed_since_ge : idLe since_id (sinceMentionId seed.1).
Proof.
  unfold cacheSeed, readCache. destruct (noCache ctx); [reflexivity|].
  destruct (getCachedUserMentionsForUserSince _ _ _) as [c|]; [|reflexivity].
  destruct (0 <? _)%nat; [|reflexivity]. apply maxTwitterId_ub_l.
Qed.

Lemma seed_sound :
  cacheSound env →
  (∀ m, m ∈ mentions seed.1 →
        idLe (Some (tweet_id m)) (sinceMentionId seed.1))
  ∧ (idEq (sinceMentionId seed.1) since_id
     ∨ ∃ m, m ∈ mentions seed.1
            ∧ idEq (sinceMentionId seed.1) (Some (tweet_id m))).
Proof.
  intros Hsound. unfold cacheSeed, readCache.
  assert (∀ m, m ∈ mentions (emptyResult since_id) →
               idLe (Some (tweet_id m)) since_id) as Hempty.
  { intros m Hm. by apply elem_of_nil in Hm. }
  destruct (noCache ctx); [by split; [|left]|].
  destruct (getCachedUserMentionsForUserSince _ _ _) as [c|] eqn:Hc;
    [|by split; [|left]].
  destruct (0 <? _)%nat eqn:Hlen; [|by split; [|left]].
  destruct (Hsound _ _ _ Hc) as [(m & Hm & Hatt) Hbound].
  { intros E. by rewrite E in Hlen. }
  simpl. split.
  - intros m' Hm'. etrans; [by apply Hbound|apply maxTwitterId_ub_r].
  - destruct (maxTwitterId_cases since_id (sinceMentionId c)) as [E|E].
    + by left.
    + right. exists m. split; [done|by etrans].
Qed.

End MentionsFacts.

Lemma idLe_antisym (a b : option string) : idLe a b → idLe b a → idEq a b.
Proof. unfold idLe, idEq, numLe. intros H1 H2. by apply numLtb_antisym. Qed.

Example fetch_partial_ex :
  ∃ r eff,
    Mentions.getTwitterUserIdMentions Mentions.envThirdPageFails 1 "bot"
      (Some "100") (Mentions.sampleCtx true false) = Some (Mentions.Return r, eff)
    ∧ tweet_id <$> mentions r = ["101"; "102"; "105"]
    ∧ sinceMentionId r = Some "105".
Proof. eexists _, _. split; [vm_compute; reflexivity|]. by split. Qed.

Example fetch_backlog_ex :
  (snd <$> Mentions.getTwitterUserIdMentions Mentions.envBacklog 5 "bot"
     (Some "100") (Mentions.sampleCtx true true)) ≫=
    (λ eff, Some (Mentions.queryYields eff)) = Some [5; 5; 1].
Proof. vm_compute. reflexivity. Qed.

Example fetch_out_of_fuel_ex :
  Mentions.getTwitterUserIdMentions Mentions.envBacklog 2 "bot"
    (Some "100") (Mentions.sampleCtx true true) = None.
Proof. vm_compute. reflexivity. Qed.

(** C2 (amended): the returned [sinceMentionId] is at least the input
    [since_id]; it is the seed's cursor (the input, merged on a cache hit
    with the cached result's [sinceMentionId]) raised to the identifiers of
    the posts fetched live on the pages whose body ran to its end, so at
    least each of them. That is every post fetched live unless the write
    of a page to the cache was rejected (which cannot be when the cache is
    bypassed): the posts of that page are returned, and the cursor is not
    raised to them. When no write was rejected and the cached result
    carries the maximum identifier of its posts, the returned cursor is at
    least every post of the result and is the input [since_id] or the
    identifier of a returned post: the true maximum of the returned posts
    as soon as one of them is at least the input [since_id]. *)
Theorem returned_sinceId (env : Mentions.Env) (fuel : nat) (userId : string)
    (since_id : option string) (ctx : Context)
    (r : TweetMentionFetchResult) (eff : list Mentions.Effect) :
  Mentions.getTwitterUserIdMentions env fuel userId since_id ctx
    = Some (Mentions.Return r, eff) →
  let seeded :=
    (Mentions.readCache env ctx userId since_id
       (Mentions.emptyResult since_id)).1 in
  let live := Mentions.pageMentions (Mentions.pagesReceived eff) in
  let raised := Mentions.pageMentions (Mentions.pagesMerged eff) in
  mentions r = mentions seeded ++ live
  ∧ sinceMentionId r = Mentions.raiseSince (sinceMentionId seeded) raised
  ∧ idLe since_id (sinceMentionId r)
  ∧ (∀ m, m ∈ raised → idLe (Some (tweet_id m)) (sinceMentionId r))
  ∧ live = raised ++ Mentions.pageMentions (Mentions.pagesCut eff)
  ∧ length (Mentions.pagesCut eff) = length (Mentions.writeRejections eff)
  ∧ length (Mentions.writeRejections eff) ≤ 1
  ∧ (noCache ctx = true → Mentions.writeRejections eff = [])
  ∧ (Mentions.cacheSound env → Mentions.writeRejections eff = [] →
     (∀ m, m ∈ mentions r → idLe (Some (tweet_id m)) (sinceMentionId r))
     ∧ (idEq (sinceMentionId r) since_id
        ∨ ∃ m, m ∈ mentions r ∧ idEq (sinceMentionId r) (Some (tweet_id m)))
     ∧ ((∃ m, m ∈ mentions r ∧ idLe since_id (Some (tweet_id m))) →
        Mentions.isMaxId (sinceMentionId r) (mentions r))).
Proof.
  intros Hcall seeded live raised.
  apply getTwitterUserIdMentions_end in Hcall
    as ([r'|err] & eff' & Hend & Hc); [|by destruct Hc].
  destruct Hc as [[= <-] ->].
  pose proof (loopEnd_result env ctx userId since_id r eff' Hend) as [Hr Hone].
  destruct (flush_trace eff' r) as (Hpages & _ & _ & _ & Hrej).
  destruct (flush_merged eff' r) as (Hmerged & Hcut).
  cbn zeta in Hpages, Hrej, Hmerged, Hcut.
  unfold live, raised. rewrite Hpages, Hrej, Hmerged, Hcut.
  fold seeded in Hr. unfold Mentions.gatheredFrom in Hr.
  pose proof (merged_cut_received eff') as Hlive.
  assert (mentions r =
          mentions seeded ++
          Mentions.pageMentions (Mentions.pagesReceived eff')) as Hm.
  { rewrite Hr at 1. cbn [Mentions.addPosts Mentions.addPages mentions].
    by rewrite <- app_assoc, Hlive. }
  assert (sinceMentionId r =
          Mentions.raiseSince (sinceMentionId seeded)
            (Mentions.pageMentions (Mentions.pagesMerged eff'))) as Hs.
  { by rewrite Hr at 1. }
  pose proof (seed_since_ge env ctx userId since_id) as Hge.
  fold seeded in Hge.
  assert (idLe since_id (sinceMentionId r)) as Hin.
  { rewrite Hs. by apply raiseSince_mono. }
  assert (∀ m, m ∈ Mentions.pageMentions (Mentions.pagesMerged eff') →
               idLe (Some (tweet_id m)) (sinceMentionId r)) as Hraised.
  { intros m Hin'. rewrite Hs. by apply raiseSince_bound. }
  do 4 (split; [done|]). split; [done|].
  split.
  { unfold Mentions.pagesCut. rewrite length_drop.
    assert (length (Mentions.writeRejections eff')
            ≤ length (Mentions.pagesReceived eff')) as Hle; [|lia].
    inversion Hend as [n result eff0 st Hat Hrun Hstop
                      |n result eff0 st err Hat Hrun Hlen|]; subst.
    all: destruct (loopAt_inv env ctx userId since_id n result eff0 Hat)
           as (_ & _ & _ & _ & _ & _ & _ & I8).
    all: pose proof (runQuery_trace env ctx userId n result eff0)
           as (merged & cut & rejections & R);
         rewrite Hrun in R; cbn [fst snd] in R;
         destruct R as (_ & _ & _ & R3 & _ & _ & _ & _ & R8 & R9).
    all: match goal with |- context [Mentions.qs_effects ?s ++ [?e]] =>
           destruct (trace_snoc (Mentions.qs_effects s) e)
             as (-> & _ & _ & _ & ->)
         end.
    all: rewrite !app_nil_r, R3, R8, I8, !length_app, R9; simpl; lia. }
  split; [done|]. split.
  { intros Hnc.
    by destruct (loopEnd_noCache env ctx userId since_id _ eff' Hnc Hend). }
  intros Hsound Hnone.
  destruct (merged_all eff' Hnone) as [Hall Hno].
  rewrite Hall in Hs, Hraised.
  destruct (seed_sound env ctx userId since_id Hsound) as [Hb Ha].
  fold seeded in Hb, Ha.
  assert (∀ m, m ∈ mentions r → idLe (Some (tweet_id m)) (sinceMentionId r))
    as Hbound.
  { intros m. rewrite Hm. intros [Hin'|Hin']%elem_of_app; [|by apply Hraised].
    rewrite Hs. apply raiseSince_mono. by apply Hb. }
  assert (idEq (sinceMentionId r) since_id
          ∨ ∃ m, m ∈ mentions r ∧ idEq (sinceMentionId r) (Some (tweet_id m)))
    as Hatt.
  { rewrite Hs, Hm.
    destruct (raiseSince_attained (sinceMentionId seeded)
                (Mentions.pageMentions (Mentions.pagesReceived eff')))
      as [E|(m & Hin' & E)].
    - destruct Ha as [E'|(m & Hin' & E')].
      + left. by etrans.
      + right. exists m. split; [apply elem_of_app; by left|by etrans].
    - right. exists m. split; [apply elem_of_app; by right|done]. }
  split; [done|]. split; [done|].
  intros (m & Hin' & Hle). split; [|done].
  destruct Hatt as [E|Hex]; [|done].
  exists m. split; [done|]. apply idLe_antisym; [|by apply Hbound].
  etrans; [apply idEq_le, E|done].
Qed.

Lemma envCached_sound : Mentions.cacheSound Mentions.envCached.
Proof.
  intros userId since c [= <-] _. split.
  - exists (Mentions.post "120"). split; [apply elem_of_cons; by left|done].
  - intros m Hm. simpl in Hm.
    apply elem_of_cons in Hm as [->|Hm]; [reflexivity|].
    apply elem_of_cons in Hm as [->|Hm]; [reflexivity|].
    by apply elem_of_nil in Hm.
Qed.

Lemma returned_sinceId_witness :
  ∃ r eff,
    Mentions.getTwitterUserIdMentions Mentions.envCached 1 "bot" None
      (Mentions.sampleCtx false false) = Some (Mentions.Return r, eff)
    ∧ tweet_id <$> mentions r = ["120"; "118"; "125"]
    ∧ Mentions.isMaxId (sinceMentionId r) (mentions r).
Proof.
  eexists _, _. split; [vm_compute; reflexivity|]. split; [reflexivity|].
  refine (proj2 (proj2
            (proj2 (proj2 (proj2 (proj2 (proj2 (proj2 (proj2 (proj2
               (returned_sinceId
                  Mentions.envCached 1 "bot" None
                  (Mentions.sampleCtx false false) _ _ _))))))))
               envCached_sound _)) _).
  - vm_compute. reflexivity.
  - reflexivity.
  - exists (Mentions.post "125"). split; [|reflexivity].
    apply elem_of_cons. right. apply elem_of_cons. right.
    apply elem_of_cons. by left.
Defined.

(** C2 as stated fails: with no new mention the call returns no post and
    the input [since_id], which is the identifier of no returned post; and
    when the timeline answers with a post older than the cursor, the
    returned [sinceMentionId] is the input, not the identifier of that
    post. *)
Lemma returned_sinceId_not_max :
  (∃ r eff,
     Mentions.getTwitterUserIdMentions Mentions.envQuiet 1 "bot" (Some "100")
       (Mentions.sampleCtx true false) = Some (Mentions.Return r, eff)
     ∧ mentions r = []
     ∧ sinceMentionId r = Some "100"
     ∧ ¬ Mentions.isMaxId (sinceMentionId r) (mentions r))
  ∧ (∃ r eff,
       Mentions.getTwitterUserIdMentions Mentions.envStale 1 "bot" (Some "100")
         (Mentions.sampleCtx true false) = Some (Mentions.Return r, eff)
       ∧ mentions r = [Mentions.post "50"]
       ∧ sinceMentionId r = Some "100"
       ∧ ¬ Mentions.isMaxId (sinceMentionId r) (mentions r)).
Proof.
  split.
  - eexists _, _. split; [vm_compute; reflexivity|]. repeat split.
    intros [(m & Hm & _) _]. by apply elem_of_nil in Hm.
  - eexists _, _. split; [vm_compute; reflexivity|]. repeat split.
    intros [(m & Hm & E) _]. simpl in Hm.
    apply list_elem_of_singleton in Hm as ->. discriminate E.
Qed.




(** A write to the cache that is rejected ends the call like a remote
    error: the posts of that page are returned, the cursor and the users
    and tweets are those of the pages before, and the page after is not
    asked for. *)
Example fetch_write_rejected_ex :
  ∃ r eff,
    Mentions.getTwitterUserIdMentions Mentions.envWriteRejected 1 "bot"
      (Some "100") (Mentions.sampleCtx false false)
      = Some (Mentions.Return r, eff)
    ∧ tweet_id <$> mentions r = ["101"; "102"; "105"]
    ∧ sinceMentionId r = Some "102"
    ∧ users r = ∅
    ∧ Mentions.fetchErrors eff = [Mentions.cacheDown]
    ∧ Mentions.writeRejections eff = [Mentions.cacheDown].
Proof.
  eexists _, _. split; [vm_compute; reflexivity|]. by repeat split.
Qed.




(** C10 as stated fails: with [noCache] set the posts of the mentions are
    written nowhere. A call that bypasses the cache returns the mentions
    101, 102 and 105, and the only post it writes to [db] is the tweet 99
    that a page includes. *)
Lemma noCache_mentions_not_flushed :
  ¬ Mentions.FlushesAllObserved Mentions.envThirdPageFails 1 "bot"
      (Some "100") (Mentions.sampleCtx true false).
Proof.
  intros H.
  assert (∃ r eff,
            Mentions.getTwitterUserIdMentions Mentions.envThirdPageFails 1
              "bot" (Some "100") (Mentions.sampleCtx true false)
              = Some (Mentions.Return r, eff)
            ∧ Mentions.pageMentions (Mentions.pagesReceived eff)
              = [Mentions.post "101"; Mentions.post "102";
                 Mentions.post "105"]
            ∧ Mentions.tweetsWritten eff = ["99"])
    as (r & eff & Hcall & Hlive & Hwritten).
  { eexists _, _. split; [vm_compute; reflexivity|].
    split; vm_compute; reflexivity. }
  specialize (H r eff Hcall (Mentions.post "101")).
  rewrite Hlive, Hwritten in H.
  assert ("101" ∈ ["99"]) as Hin.
  { apply H. apply elem_of_cons. by left. }
  apply list_elem_of_singleton in Hin. discriminate Hin.
Qed.

(** C10 (amended): with [noCache] set a call neither reads the cached
    mention pages nor writes pages into them (so no such write is
    rejected); and every call that returns, also after an error, ends with
    the flush of the tweets and of the users of its result. These hold
    every referenced tweet and every user of every page whose body ran to
    its end, and nothing but those and the entries of the cache seed: the
    posts of the mentions are not among what is flushed, unless a page
    includes them. *)
Theorem noCache_flush (env : Mentions.Env) (fuel : nat) (userId : string)
    (since_id : option string) (ctx : Context) (c : Mentions.Completion)
    (eff : list Mentions.Effect) :
  Mentions.getTwitterUserIdMentions env fuel userId since_id ctx
    = Some (c, eff) →
  let seeded :=
    (Mentions.readCache env ctx userId since_id
       (Mentions.emptyResult since_id)).1 in
  (noCache ctx = true →
   Forall (λ e, Mentions.isCacheEffect e = false) eff
   ∧ Mentions.writeRejections eff = []
   ∧ Mentions.pagesMerged eff = Mentions.pagesReceived eff
   ∧ seeded = Mentions.emptyResult since_id)
  ∧ (∀ r, c = Mentions.Return r →
       (∃ eff0,
          eff = eff0 ++ [Mentions.DbUpsertTweets (tweets r);
                         Mentions.DbUpsertTwitterUsers (users r)])
       ∧ (∀ t, t ∈ Mentions.pagesMerged eff ≫= Mentions.page_tweets →
               is_Some (tweets r !! tweet_id t))
       ∧ (∀ u, u ∈ Mentions.pagesMerged eff ≫= Mentions.page_users →
               is_Some (users r !! user_id u))
       ∧ (∀ k, is_Some (tweets r !! k) →
               is_Some (tweets seeded !! k)
               ∨ ∃ t, t ∈ Mentions.pagesMerged eff ≫= Mentions.page_tweets
                      ∧ tweet_id t = k)
       ∧ (∀ k, is_Some (users r !! k) →
               is_Some (users seeded !! k)
               ∨ ∃ u, u ∈ Mentions.pagesMerged eff ≫= Mentions.page_users
                      ∧ user_id u = k)).
Proof.
  intros Hcall seeded.
  apply getTwitterUserIdMentions_end in Hcall as (x & eff0 & Hend & Hc).
  split.
  - intros Hnc.
    pose proof (loopEnd_noCache env ctx userId since_id x eff0 Hnc Hend)
      as [H0 Hrej].
    assert (Forall (λ e, Mentions.isCacheEffect e = false) eff
            ∧ Mentions.writeRejections eff = []) as [Hno Hnone].
    { destruct x as [r|e]; destruct Hc as [_ ->]; [|done].
      destruct (flush_trace eff0 r) as (_ & _ & _ & _ & ->).
      split; [|done]. apply Forall_app. split; [done|].
      by repeat constructor. }
    split; [done|]. split; [done|].
    split; [by apply merged_all|].
    unfold seeded, Mentions.readCache. by rewrite Hnc.
  - intros r ->. destruct x as [r'|e]; destruct Hc as [Hc ->]; [|done].
    injection Hc as <-.
    pose proof (loopEnd_result env ctx userId since_id r eff0 Hend)
      as [Hr _].
    destruct (flush_merged eff0 r) as (-> & _).
    fold seeded in Hr. unfold Mentions.gatheredFrom in Hr.
    assert (tweets r =
            Mentions.addTweets (tweets seeded)
              (Mentions.pagesMerged eff0 ≫= Mentions.page_tweets)) as Ht.
    { by rewrite Hr at 1. }
    assert (users r =
            Mentions.addUsers (users seeded)
              (Mentions.pagesMerged eff0 ≫= Mentions.page_users)) as Hu.
    { by rewrite Hr at 1. }
    split; [by eauto|]. split; [|split; [|split]].
    + intros t Hin. rewrite Ht. by apply addTweets_lookup.
    + intros u Hin. rewrite Hu. by apply addUsers_lookup.
    + intros k. rewrite Ht. apply addTweets_from.
    + intros k. rewrite Hu. apply addUsers_from.
Qed.

Lemma noCache_flush_witness :
  ∃ r eff,
    Mentions.getTwitterUserIdMentions Mentions.envThirdPageFails 1 "bot"
      (Some "100") (Mentions.sampleCtx true false)
      = Some (Mentions.Return r, eff)
    ∧ Forall (λ e, Mentions.isCacheEffect e = false) eff
    ∧ is_Some (tweets r !! "99")
    ∧ is_Some (users r !! "7").
Proof.
  eexists _, _. split; [vm_compute; reflexivity|].
  match goal with
  | |- Forall _ ?eff ∧ is_Some (tweets ?r !! _) ∧ _ =>
      destruct (noCache_flush Mentions.envThirdPageFails 1 "bot"
                  (Some "100") (Mentions.sampleCtx true false)
                  (Mentions.Return r) eff) as [H1 H2];
        [vm_compute; reflexivity|];
      destruct (H2 r eq_refl) as (_ & Ht & Hu & _)
  end.
  split; [exact (proj1 (H1 eq_refl))|]. split.
  - apply (Ht (Mentions.post "99")).
    change (Mentions.post "99" ∈ [Mentions.post "99"]).
    apply elem_of_cons. by left.
  - apply (Hu {| user_id := "7"; user_username := "alice" |}).
    change ({| user_id := "7"; user_username := "alice" |}
            ∈ [{| user_id := "7"; user_username := "alice" |}]).
    apply elem_of_cons. by left.
Defined.

(** ** Runs of the control loop *)

(** Goals [idLe a b] between maxima. *)
Ltac id_le :=
  lazymatch goal with
  | |- idLe (maxTwitterId _ _) _ => apply maxTwitterId_lub; id_le
  | |- idLe ?a ?a => reflexivity
  | |- idLe ?a (maxTwitterId ?x ?y) =>
      first [ transitivity x; [id_le|apply maxTwitterId_ub_l]
            | transitivity y; [id_le|apply maxTwitterId_ub_r] ]
  end.

Ltac id_eq := apply idLe_antisym; id_le.

Section MainRunsFacts.
Import Main MainRuns.

Lemma mainLoop_flags (outcomes : list BatchOutcome) (s : State) :
  sameFlags (ctx s) (ctx (mainLoop outcomes s)).
Proof.
  revert s. induction outcomes as [|o outcomes IH]; intros s; simpl; [done|].
  pose proof (iteration_flags o s) as Hf.
  destruct (iteration o s) as [s' continue]. simpl in Hf.
  destruct continue; [|done].
  specialize (IH s'). unfold sameFlags in *. intuition congruence.
Qed.

(** A loop without [earlyExit] and debug tweet ids goes on after every
    outcome, unless a call is rejected inside the [catch]. *)
Lemma iteration_goes_on (o : BatchOutcome) (s : State) :
  earlyExit (ctx s) = false →
  debugTweetIds (ctx s) = [] →
  catchHolds o = true →
  (iteration o s).2 = true.
Proof.
  intros He Hd Hc.
  assert (∀ rejected batch, (afterBatch rejected None batch s).2 = true)
    as Hafter.
  { intros rejected batch. unfold afterBatch.
    destruct (advanceCursorOr_facts rejected batch s)
      as (_ & (_ & _ & He' & Hd' & _) & _).
    destruct (advanceCursorOr rejected batch s) as [s0|s0];
      cbn [stateOf] in *; [|done].
    rewrite He', He, Hd', Hd. cbn.
    by destruct (mitigateOr rejected batch s0). }
  destruct o as [batch| |batch rejected [c|]|c]; try done; apply Hafter.
Qed.

Lemma mainLoop_failures (n : nat) (outcomes : list BatchOutcome) (s : State) :
  mainLoop (replicate n Failed ++ outcomes) s =
  mainLoop outcomes (addEffects (failureEffects n) s).
Proof.
  revert s. induction n as [|n IH]; intros s.
  - by rewrite addEffects_nil.
  - cbn [replicate app mainLoop iteration catch]. rewrite IH, addEffects_app.
    done.
Qed.

Lemma advanceCursorOr_debug (rejected : option Await)
    (batch : TweetMentionBatch) (s : State) :
  debugTweetIds (ctx s) ≠ [] → advanceCursorOr rejected batch s = Done s.
Proof.
  intros Hd. unfold advanceCursorOr.
  destruct (debugTweetIds (ctx s)); [done|]. simpl.
  by rewrite andb_false_r.
Qed.

Lemma advanceCursor_debug (batch : TweetMentionBatch) (s : State) :
  debugTweetIds (ctx s) ≠ [] → advanceCursor batch s = s.
Proof.
  intros Hd. unfold advanceCursor. by rewrite advanceCursorOr_debug.
Qed.

(** In exhaustive mode the cursor handling awaits nothing. *)
Lemma advanceCursorOr_exhaustive (rejected : option Await)
    (batch : TweetMentionBatch) (s : State) :
  resolveAllMentions (ctx s) = true →
  advanceCursorOr rejected batch s = Done (advanceCursor batch s).
Proof.
  intros Hall. unfold advanceCursor, advanceCursorOr.
  destruct (_ && _); [|done]. cbn. by rewrite Hall.
Qed.

Lemma failureEffects_S (n : nat) :
  failureEffects (S n) = [Delay 5000%N; RefreshTwitterAuth] ++ failureEffects n.
Proof. done. Qed.

Lemma foldl_max_proper (a a' : option string) (l : list (option string)) :
  idEq a a' → idEq (foldl maxTwitterId a l) (foldl maxTwitterId a' l).
Proof.
  revert a a'. induction l as [|x l IH]; intros a a' E; simpl; [done|].
  apply IH. by apply maxTwitterId_proper.
Qed.

Lemma foldl_max_ge (a : option string) (l : list (option string)) :
  idLe a (foldl maxTwitterId a l).
Proof.
  revert a. induction l as [|x l IH]; intros a; simpl; [reflexivity|].
  etrans; [apply maxTwitterId_ub_l|apply IH].
Qed.

(** The effects of the cursor handling are accesses to the store only. *)
Lemma advanceCursor_effects (batch : TweetMentionBatch) (s : State) :
  ∃ l, effects (advanceCursor batch s) = effects s ++ l
       ∧ totalDelay l = 0%N ∧ refreshes l = 0
       ∧ (resolveAllMentions (ctx s) = true → l = []).
Proof.
  rewrite advanceCursor_eq. destruct (_ && _).
  2:{ exists []. by rewrite app_nil_r. }
  simpl. destruct (resolveAllMentions (ctx s)); simpl.
  { exists []. by rewrite app_nil_r. }
  rewrite syncCursor_eq. simpl. destruct (_ && _); simpl.
  - rewrite <- app_assoc. by eexists.
  - by eexists.
Qed.

Lemma iteration_ctx (o : BatchOutcome) (s : State) :
  ctx (iteration o s).1 =
  match o with
  | Failed | FailedFatally _ => ctx s
  | Responded batch => ctx (advanceCursor batch s)
  | Interrupted batch rejected _ =>
      ctx (stateOf (advanceCursorOr (Some rejected) batch s))
  end.
Proof.
  destruct (iteration_facts o s) as (-> & _). by destruct o.
Qed.

Lemma advanceCursor_falsy (batch : TweetMentionBatch) (s : State) :
  truthy (batch_sinceMentionId batch) = false → advanceCursor batch s = s.
Proof. intros E. rewrite advanceCursor_eq. by rewrite E. Qed.

Lemma totalDelay_app (l k : list Effect) :
  totalDelay (l ++ k) = (totalDelay l + totalDelay k)%N.
Proof.
  induction l as [|e l IH]; simpl; [done|].
  unfold totalDelay in *. simpl. rewrite IH. destruct e; lia.
Qed.

Lemma refreshes_app (l k : list Effect) :
  refreshes (l ++ k) = refreshes l + refreshes k.
Proof. unfold refreshes. by rewrite bind_app, length_app. Qed.

Lemma cursorAccesses_app (l k : list Effect) :
  cursorAccesses (l ++ k) = cursorAccesses l ++ cursorAccesses k.
Proof. apply bind_app. Qed.

Lemma cursorAccesses_none (l : list Effect) :
  noCursorAccess l → cursorAccesses l = [].
Proof.
  induction 1 as [|e l He _ IH]; [done|].
  unfold cursorAccesses in *. rewrite bind_cons, IH. by destruct e.
Qed.

Lemma batchCursors_cons (o : BatchOutcome) (outcomes : list BatchOutcome) :
  batchCursors (o :: outcomes) =
  match o with
  | Responded batch | Interrupted batch _ _ =>
      if truthy (batch_sinceMentionId batch)
      then batch_sinceMentionId batch :: batchCursors outcomes
      else batchCursors outcomes
  | Failed | FailedFatally _ => batchCursors outcomes
  end.
Proof.
  unfold batchCursors. rewrite bind_cons.
  destruct o as [batch| |batch rejected inCatch|inCatch]; try done.
  all: by destruct (truthy _).
Qed.

End MainRunsFacts.

(** X1: when the loop ends. A call to [respondToNewMentions] that throws
    never ends it, unless a call of the [catch] is rejected, which rejects
    [main]. A returned batch ends it with [earlyExit] or debug tweet ids.
    When a call awaited after the batch is rejected, the [catch] takes
    over before the [break]: the loop goes on, unless a call of the
    [catch] is rejected in turn. A rejection the iteration does not come
    to changes nothing. *)
Theorem loop_end_rule (o : Main.BatchOutcome) (rest : list Main.BatchOutcome)
    (s : Main.State) :
  (Main.iteration o s).2 = negb (MainRuns.endsLoop (Main.ctx s) o)
  ∧ Main.mainLoop (o :: rest) s =
    (if MainRuns.endsLoop (Main.ctx s) o then (Main.iteration o s).1
     else Main.mainLoop rest (Main.iteration o s).1).
Proof.
  assert ((Main.iteration o s).2 = negb (MainRuns.endsLoop (Main.ctx s) o))
    as Hend.
  { destruct o as [batch| |batch rejected inCatch|inCatch].
    - rewrite iteration_Responded. cbn zeta.
      destruct (advanceCursor_flags batch s) as (_ & _ & -> & -> & _).
      unfold MainRuns.endsLoop.
      destruct (earlyExit (Main.ctx s)); [done|].
      by destruct (debugTweetIds (Main.ctx s)).
    - done.
    - destruct s as [[cur dry nocache early exhaustive debug] st eff].
      unfold MainRuns.endsLoop, MainRuns.reaches, Main.iteration,
        Main.afterBatch, Main.advanceCursorOr, Main.syncCursorOr,
        Main.mitigateOr, Main.mitigations.
      cbn [Main.ctx Main.store Main.effects ctx_sinceMentionId dryRun
           earlyExit debugTweetIds resolveAllMentions withSinceMentionId].
      rewrite !maxTwitterId_truthy.
      destruct (truthy (batch_sinceMentionId batch)); rewrite ?orb_true_r.
      all: destruct debug, exhaustive, dry, early, rejected,
             (hasNetworkError batch), (hasTwitterRateLimitError batch),
             (hasTwitterAuthError batch), inCatch as [[|]|]; reflexivity.
    - by destruct inCatch. }
  split; [exact Hend|]. cbn [Main.mainLoop].
  destruct (Main.iteration o s) as [s' continue]. cbn [fst snd] in *.
  rewrite Hend. by destruct (MainRuns.endsLoop (Main.ctx s) o).
Qed.

(** A rejected write of the cursor keeps the [earlyExit] loop going; a
    rejected credential refresh inside the [catch] ends any loop. *)
Example loop_end_ex :
  let s := MainRuns.sampleState (Some "900") (Some "1000") false true false [] in
  let b := MainRuns.sampleBatch (Some "1200") false false false in
  MainRuns.endsLoop (Main.ctx s) (Main.Responded b) = true
  ∧ MainRuns.endsLoop (Main.ctx s)
      (Main.Interrupted b Main.SetSinceMentionId None) = false
  ∧ MainRuns.endsLoop (Main.ctx s) (Main.FailedFatally Main.CatchRefresh)
    = true
  ∧ Main.effects (Main.mainLoop [Main.FailedFatally Main.CatchRefresh;
                                 Main.Responded b] s) =
    [Main.Delay 5000; Main.RefreshTwitterAuth; Main.CallRejected].
Proof. by repeat split. Qed.

(** X2: with [earlyExit] or debug tweet ids the loop ends at the first
    batch that is returned and whose cursor handling is not rejected,
    right after the cursor handling: no backoff follows whatever the error
    flags of the batch, and what would come later is never asked for.
    Calls that threw before it are retried. But when, with [earlyExit],
    the store rejects the read or the write of the cursor, the [break] is
    skipped: the [catch] waits 5 s and refreshes the credentials, and the
    loop goes on with the next call, the in-memory cursor advanced already
    and the persisted one as it was. *)
Theorem mainLoop_stops_at_first_batch (n : nat) (batch : TweetMentionBatch)
    (rest : list Main.BatchOutcome) (s : Main.State) :
  (earlyExit (Main.ctx s) = true ∨ debugTweetIds (Main.ctx s) ≠ [] →
   Main.mainLoop (replicate n Main.Failed ++ Main.Responded batch :: rest) s =
   Main.advanceCursor batch (Main.addEffects (MainRuns.failureEffects n) s))
  ∧ (earlyExit (Main.ctx s) = true →
     debugTweetIds (Main.ctx s) = [] →
     resolveAllMentions (Main.ctx s) = false →
     truthy (batch_sinceMentionId batch) = true →
     let merged :=
       maxTwitterId (ctx_sinceMentionId (Main.ctx s))
         (batch_sinceMentionId batch) in
     Main.mainLoop
       (Main.Interrupted batch Main.GetSinceMentionId None :: rest) s =
     Main.mainLoop rest
       {| Main.ctx := withSinceMentionId (Main.ctx s) merged;
          Main.store := Main.store s;
          Main.effects :=
            Main.effects s ++
            [Main.DbGetSinceMentionId; Main.CallRejected;
             Main.Delay 5000; Main.RefreshTwitterAuth] |}
     ∧ (dryRun (Main.ctx s) = false →
        Main.mainLoop
          (Main.Interrupted batch Main.SetSinceMentionId None :: rest) s =
        Main.mainLoop rest
          {| Main.ctx :=
               withSinceMentionId (Main.ctx s)
                 (maxTwitterId merged (Main.store s));
             Main.store := Main.store s;
             Main.effects :=
               Main.effects s ++
               [Main.DbGetSinceMentionId;
                Main.DbSetSinceMentionId
                  (maxTwitterId merged (Main.store s));
                Main.CallRejected;
                Main.Delay 5000; Main.RefreshTwitterAuth] |})).
Proof.
  split.
  - intros Hstop. rewrite mainLoop_failures.
    set (s' := Main.addEffects (MainRuns.failureEffects n) s).
    cbn [Main.mainLoop]. rewrite iteration_Responded. cbn zeta.
    destruct (advanceCursor_flags batch s') as (_ & _ & -> & -> & _).
    change (Main.ctx s') with (Main.ctx s).
    destruct Hstop as [->|Hd]; [done|].
    destruct (earlyExit (Main.ctx s)); [done|].
    by destruct (debugTweetIds (Main.ctx s)).
  - intros He Hd Hall Hb merged.
    cbn [Main.mainLoop Main.iteration].
    unfold Main.afterBatch, Main.advanceCursorOr.
    rewrite Hb, Hd. cbn [length Nat.eqb andb].
    cbn [Main.ctx resolveAllMentions withSinceMentionId]. rewrite Hall.
    cbn [negb]. unfold Main.syncCursorOr. cbn [Main.isRejected].
    split.
    + cbn [Main.catch]. unfold Main.addEffects.
      cbn [Main.ctx Main.store Main.effects]. by rewrite <- !app_assoc.
    + intros Hdry.
      cbn [Main.ctx Main.store Main.effects ctx_sinceMentionId dryRun
           withSinceMentionId].
      rewrite Hdry, !maxTwitterId_truthy, Hb, orb_true_r.
      cbn [negb andb orb Main.catch]. unfold Main.addEffects.
      cbn [Main.ctx Main.store Main.effects]. by rewrite <- !app_assoc.
Qed.

Lemma mainLoop_stops_at_first_batch_witness :
  let s := MainRuns.sampleState (Some "900") (Some "1000") false true false [] in
  let b := MainRuns.sampleBatch (Some "1200") true true true in
  Main.effects (Main.mainLoop (replicate 1 Main.Failed ++
                                 Main.Responded b :: [Main.Failed]) s) =
  [Main.Delay 5000; Main.RefreshTwitterAuth; Main.DbGetSinceMentionId;
   Main.DbSetSinceMentionId (Some "1200")]
  ∧ Main.effects
      (Main.mainLoop [Main.Interrupted b Main.SetSinceMentionId None;
                      Main.Responded b] s) =
    [Main.DbGetSinceMentionId; Main.DbSetSinceMentionId (Some "1200");
     Main.CallRejected; Main.Delay 5000; Main.RefreshTwitterAuth;
     Main.DbGetSinceMentionId; Main.DbSetSinceMentionId (Some "1200")].
Proof.
  intros s b. split.
  - rewrite (proj1 (mainLoop_stops_at_first_batch 1 b [Main.Failed] s));
      [reflexivity|].
    left. reflexivity.
  - rewrite (proj2 (proj2 (mainLoop_stops_at_first_batch 0 b
                             [Main.Responded b] s)
                      eq_refl eq_refl eq_refl eq_refl) eq_refl).
    reflexivity.
Defined.

(** X3: with debug tweet ids the cursor is left alone: the loop ends at the
    first returned batch with the context and the persisted cursor as they
    were, whatever the batches carry and whatever call would be rejected
    after them, having done nothing but the retries of the calls that
    threw before (up to a call rejected inside the [catch], which ends
    the run): 5 s and a credential refresh for each of them. *)
Theorem debug_run_leaves_cursor (outcomes : list Main.BatchOutcome)
    (s : Main.State) :
  debugTweetIds (Main.ctx s) ≠ [] →
  Main.mainLoop outcomes s =
    Main.addEffects (MainRuns.retryEffects outcomes) s
  ∧ (Forall (λ o, MainRuns.catchHolds o = true) outcomes →
     Main.mainLoop outcomes s =
     Main.addEffects
       (MainRuns.failureEffects (MainRuns.leadingFailures outcomes)) s).
Proof.
  intros Hd.
  assert (Main.mainLoop outcomes s =
          Main.addEffects (MainRuns.retryEffects outcomes) s) as Hrun.
  { revert s Hd.
    induction outcomes as [|[batch| |batch rejected inCatch|[|]] outcomes IH];
      intros s Hd.
    - by rewrite addEffects_nil.
    - cbn [Main.mainLoop Main.iteration MainRuns.retryEffects].
      unfold Main.afterBatch. rewrite advanceCursorOr_debug by done.
      rewrite addEffects_nil.
      destruct (earlyExit (Main.ctx s)); [done|].
      by destruct (debugTweetIds (Main.ctx s)).
    - cbn [Main.mainLoop Main.iteration Main.catch MainRuns.retryEffects].
      rewrite IH by done. by rewrite addEffects_app.
    - cbn [Main.mainLoop Main.iteration MainRuns.retryEffects].
      unfold Main.afterBatch. rewrite advanceCursorOr_debug by done.
      rewrite addEffects_nil.
      destruct (earlyExit (Main.ctx s)); [done|].
      by destruct (debugTweetIds (Main.ctx s)).
    - done.
    - done. }
  split; [exact Hrun|]. intros Hcatch. rewrite Hrun. f_equal.
  clear Hrun Hd.
  induction Hcatch as [|[batch| |batch rejected inCatch|inCatch] outcomes
                         Ho _ IH]; try done.
  cbn [MainRuns.retryEffects MainRuns.leadingFailures]. by rewrite IH.
Qed.

Lemma debug_run_leaves_cursor_witness :
  let s := MainRuns.sampleState (Some "0") (Some "1000") false false false
             ["1760384146004996333"] in
  let b := MainRuns.sampleBatch (Some "1760384146004996333") false false false in
  Main.store (Main.mainLoop [Main.Failed; Main.Responded b; Main.Failed] s)
    = Some "1000"
  ∧ ctx_sinceMentionId
      (Main.ctx (Main.mainLoop [Main.Failed; Main.Responded b; Main.Failed] s))
    = Some "0".
Proof.
  intros s b.
  rewrite (proj1 (debug_run_leaves_cursor
                    [Main.Failed; Main.Responded b; Main.Failed] s
                    ltac:(done))).
  by split.
Defined.

(** X4: in exhaustive mode ([resolveAllMentions]) the loop never reads nor
    writes the persisted cursor, which stays as it was, whatever call is
    rejected; the in-memory cursor alone is raised, to the maximum of its
    value and the cursors of the batches (here for a loop that goes on: no
    [earlyExit], no debug tweet ids, no call rejected inside the
    [catch]). *)
Theorem exhaustive_run_skips_store (outcomes : list Main.BatchOutcome)
    (s : Main.State) :
  resolveAllMentions (Main.ctx s) = true →
  Main.store (Main.mainLoop outcomes s) = Main.store s
  ∧ MainRuns.cursorAccesses (Main.effects (Main.mainLoop outcomes s))
    = MainRuns.cursorAccesses (Main.effects s)
  ∧ (earlyExit (Main.ctx s) = false → debugTweetIds (Main.ctx s) = [] →
     Forall (λ o, MainRuns.catchHolds o = true) outcomes →
     ctx_sinceMentionId (Main.ctx (Main.mainLoop outcomes s)) =
     foldl maxTwitterId (ctx_sinceMentionId (Main.ctx s))
       (MainRuns.batchCursors outcomes)).
Proof.
  revert s. induction outcomes as [|o outcomes IH]; intros s Hall; [done|].
  cbn [Main.mainLoop].
  pose proof (iteration_flags o s) as (_ & Hall' & He' & Hd' & _).
  pose proof (iteration_facts o s) as (Hctx & Hst & l & Hl & Hacc).
  cbn zeta in Hctx, Hst, Hl.
  apply cursorAccesses_none in Hacc.
  assert (match o with
          | Main.Failed | Main.FailedFatally _ => s
          | Main.Responded batch => Main.advanceCursor batch s
          | Main.Interrupted batch rejected _ =>
              Main.stateOf (Main.advanceCursorOr (Some rejected) batch s)
          end =
          match o with
          | Main.Failed | Main.FailedFatally _ => s
          | Main.Responded batch | Main.Interrupted batch _ _ =>
              Main.advanceCursor batch s
          end) as Hs0.
  { destruct o; try done. by rewrite advanceCursorOr_exhaustive. }
  rewrite Hs0 in Hctx, Hst, Hl. clear Hs0.
  assert (Main.store (Main.iteration o s).1 = Main.store s
          ∧ MainRuns.cursorAccesses (Main.effects (Main.iteration o s).1)
            = MainRuns.cursorAccesses (Main.effects s)) as [Hst' Hacc'].
  { rewrite Hst, Hl, cursorAccesses_app, Hacc, app_nil_r.
    destruct o as [batch| |batch rejected inCatch|inCatch]; try done.
    all: destruct (advanceCursor_effects batch s) as (k & Hk & _ & _ & Hnil).
    all: rewrite (Hnil Hall), app_nil_r in Hk; rewrite Hk.
    all: split; [|done].
    all: rewrite advanceCursor_eq.
    all: destruct (truthy (batch_sinceMentionId batch) && _); [|done].
    all: simpl; by rewrite Hall. }
  rewrite batchCursors_cons.
  pose proof (iteration_goes_on o s) as Hgo.
  destruct (Main.iteration o s) as [s' continue]. cbn [fst snd] in *.
  destruct continue.
  - destruct (IH s') as (I1 & I2 & I3); [congruence|].
    split; [congruence|]. split; [congruence|].
    intros He Hd Hcatch. apply Forall_cons in Hcatch as [Ho Hcatch].
    rewrite I3 by (congruence || done). rewrite Hctx.
    destruct o as [batch| |batch rejected inCatch|inCatch]; try done.
    all: rewrite advanceCursor_eq, Hd; cbn [length Nat.eqb].
    all: rewrite andb_true_r.
    all: destruct (truthy (batch_sinceMentionId batch)); [|done].
    all: simpl; by rewrite Hall.
  - split; [done|]. split; [done|]. intros He Hd Hcatch.
    apply Forall_cons in Hcatch as [Ho Hcatch].
    by specialize (Hgo He Hd Ho).
Qed.

Lemma exhaustive_run_skips_store_witness :
  let s := MainRuns.sampleState (Some "0") (Some "1000") false false true [] in
  let b c := Main.Responded (MainRuns.sampleBatch c false false false) in
  Main.store (Main.mainLoop [b (Some "500"); Main.Failed; b (Some "700")] s)
    = Some "1000"
  ∧ ctx_sinceMentionId
      (Main.ctx (Main.mainLoop [b (Some "500"); Main.Failed; b (Some "700")] s))
    = Some "700".
Proof.
  intros s b.
  destruct (exhaustive_run_skips_store
              [b (Some "500"); Main.Failed; b (Some "700")] s)
    as (H1 & _ & H3); [reflexivity|].
  split; [exact H1|]. rewrite H3; try reflexivity.
  by repeat constructor.
Defined.

(** X5: in a normal run (no dry run, not exhaustive, no debug tweet ids, no
    early exit) in which no call is rejected, the persisted cursor ends as
    the maximum of the starting in-memory cursor, the starting persisted
    cursor and the cursors of all batches, and the in-memory cursor is in
    sync with it; if no batch carries a cursor, both stay as they were.
    When the run starts with the in-memory cursor not above the persisted
    one, the result is the maximum of the persisted cursor and the batch
    cursors. *)
Theorem persisted_cursor_is_maximum (outcomes : list Main.BatchOutcome)
    (s : Main.State) :
  Forall (λ o, MainRuns.settled o = true) outcomes →
  dryRun (Main.ctx s) = false →
  resolveAllMentions (Main.ctx s) = false →
  debugTweetIds (Main.ctx s) = [] →
  earlyExit (Main.ctx s) = false →
  let final := Main.mainLoop outcomes s in
  (MainRuns.batchCursors outcomes = [] →
   Main.store final = Main.store s
   ∧ ctx_sinceMentionId (Main.ctx final) = ctx_sinceMentionId (Main.ctx s))
  ∧ (MainRuns.batchCursors outcomes ≠ [] →
     idEq (Main.store final)
       (foldl maxTwitterId
          (maxTwitterId (ctx_sinceMentionId (Main.ctx s)) (Main.store s))
          (MainRuns.batchCursors outcomes))
     ∧ ctx_sinceMentionId (Main.ctx final) = Main.store final
     ∧ (idLe (ctx_sinceMentionId (Main.ctx s)) (Main.store s) →
        idEq (Main.store final)
          (foldl maxTwitterId (Main.store s)
             (MainRuns.batchCursors outcomes)))).
Proof.
  intros Hsettled Hdry Hall Hdbg Hexit final.
  assert (∀ o st,
            Forall (λ o, MainRuns.settled o = true) o →
            dryRun (Main.ctx st) = false →
            resolveAllMentions (Main.ctx st) = false →
            debugTweetIds (Main.ctx st) = [] →
            earlyExit (Main.ctx st) = false →
            (MainRuns.batchCursors o = [] →
             Main.store (Main.mainLoop o st) = Main.store st
             ∧ ctx_sinceMentionId (Main.ctx (Main.mainLoop o st))
               = ctx_sinceMentionId (Main.ctx st))
            ∧ (MainRuns.batchCursors o ≠ [] →
               idEq (Main.store (Main.mainLoop o st))
                 (foldl maxTwitterId
                    (maxTwitterId (ctx_sinceMentionId (Main.ctx st))
                       (Main.store st))
                    (MainRuns.batchCursors o))
               ∧ ctx_sinceMentionId (Main.ctx (Main.mainLoop o st))
                 = Main.store (Main.mainLoop o st))) as Hgen.
  { clear. induction o as [|o outcomes IH];
      intros s Hsettled Hdry Hall Hdbg Hexit.
    { by split. }
    apply Forall_cons in Hsettled as [Ho Hsettled].
    cbn [Main.mainLoop].
    pose proof (iteration_goes_on o s Hexit Hdbg) as Hc.
    pose proof (iteration_flags o s) as (Hdry' & Hall' & He' & Hd' & _).
    pose proof (iteration_store o s) as Hst.
    pose proof (iteration_ctx o s) as Hctx.
    rewrite batchCursors_cons.
    destruct (Main.iteration o s) as [s' continue]. cbn [fst snd] in *.
    assert (continue = true) as ->.
    { apply Hc. by destruct o. }
    destruct (IH s') as [IH0 IH1]; [done|congruence..|].
    destruct o as [batch| | |]; [| |done|done].
    2:{ rewrite Hst, Hctx in *. by split. }
    destruct (truthy (batch_sinceMentionId batch)) eqn:Hb.
    2:{ rewrite (advanceCursor_falsy batch s Hb) in *.
        rewrite Hst, Hctx in *. by split. }
    split; [done|]. intros _.
    destruct (advanceCursor_write batch s Hb Hdbg Hall Hdry) as [Hw _].
    pose proof (advanceCursor_ctx batch s Hb Hdbg) as Hcw.
    rewrite Hall in Hcw. simpl in Hcw, Hw.
    rewrite Hctx, Hcw in *. rewrite Hst, Hw in *.
    cbn [app foldl].
    set (c := ctx_sinceMentionId (Main.ctx s)) in *.
    set (st := Main.store s) in *.
    set (b := batch_sinceMentionId batch) in *.
    destruct (MainRuns.batchCursors outcomes) as [|x cs] eqn:Hcs.
    - destruct IH0 as [-> ->]; [done|]. split; [|done].
      simpl. id_eq.
    - destruct IH1 as [E ->]; [done|]. split; [|done].
      etrans; [exact E|]. apply foldl_max_proper. id_eq. }
  destruct (Hgen outcomes s Hsettled Hdry Hall Hdbg Hexit) as [H0 H1].
  split; [exact H0|]. intros Hne. destruct (H1 Hne) as [E Hsync].
  split; [exact E|]. split; [exact Hsync|].
  intros Hle. etrans; [exact E|]. apply foldl_max_proper.
  apply idLe_antisym; [|id_le].
  apply maxTwitterId_lub; [done|reflexivity].
Qed.

Lemma persisted_cursor_is_maximum_witness :
  let s := MainRuns.sampleState (Some "900") (Some "1000") false false false [] in
  let b c := Main.Responded (MainRuns.sampleBatch c true false false) in
  idEq (Main.store (Main.mainLoop
                      [b (Some "1200"); Main.Failed; b None; b (Some "1100")] s))
       (Some "1200").
Proof.
  intros s b.
  destruct (persisted_cursor_is_maximum
              [b (Some "1200"); Main.Failed; b None; b (Some "1100")] s)
    as [_ H]; [by repeat constructor|reflexivity..|].
  destruct H as (_ & _ & H); [discriminate|].
  apply H. reflexivity.
Defined.

(** A write of the cursor that the store rejects leaves the persisted
    cursor behind the in-memory one. *)
Example rejected_write_leaves_store_behind :
  let s := MainRuns.sampleState (Some "900") (Some "1000") false false false [] in
  let b := MainRuns.sampleBatch (Some "1200") false false false in
  let final :=
    Main.mainLoop [Main.Interrupted b Main.SetSinceMentionId None] s in
  Main.store final = Some "1000"
  ∧ ctx_sinceMentionId (Main.ctx final) = Some "1200".
Proof. by split. Qed.

(** X6: the in-memory cursor never regresses, in any mode and over any
    run, whatever call is rejected. *)
Theorem in_memory_cursor_monotone (outcomes : list Main.BatchOutcome)
    (s : Main.State) :
  idLe (ctx_sinceMentionId (Main.ctx s))
       (ctx_sinceMentionId (Main.ctx (Main.mainLoop outcomes s))).
Proof.
  revert s. induction outcomes as [|o outcomes IH]; intros s; simpl.
  - reflexivity.
  - pose proof (iteration_ctx o s) as E.
    destruct (Main.iteration o s) as [s' continue]. simpl in E.
    assert (idLe (ctx_sinceMentionId (Main.ctx s))
                 (ctx_sinceMentionId (Main.ctx s'))) as Hs'.
    { rewrite E.
      destruct o as [batch| |batch rejected inCatch|inCatch];
        try reflexivity.
      - apply (advanceCursorOr_facts None batch s).
      - apply (advanceCursorOr_facts (Some rejected) batch s). }
    destruct continue; [|done]. etrans; [exact Hs'|apply IH].
Qed.

(** X7: the backoff of a loop that goes on (no [earlyExit], no debug tweet
    ids) and in which no call is rejected adds up outcome by outcome: 5 s
    and a credential refresh for each call that threw; for each returned
    batch 10 s if it met a network error, 30 s more if it met a rate
    limit, and a credential refresh if it met an auth error. The cursor
    handling never waits. *)
Theorem backoff_accounting (outcomes : list Main.BatchOutcome)
    (s : Main.State) :
  Forall (λ o, MainRuns.settled o = true) outcomes →
  earlyExit (Main.ctx s) = false →
  debugTweetIds (Main.ctx s) = [] →
  MainRuns.totalDelay (Main.effects (Main.mainLoop outcomes s)) =
    (MainRuns.totalDelay (Main.effects s) +
     foldr (λ o acc, MainRuns.outcomeDelay o + acc) 0 outcomes)%N
  ∧ MainRuns.refreshes (Main.effects (Main.mainLoop outcomes s)) =
    MainRuns.refreshes (Main.effects s) +
    foldr (λ o acc, MainRuns.outcomeRefreshes o + acc) 0 outcomes.
Proof.
  intros Hsettled. revert s.
  induction Hsettled as [|o outcomes Ho _ IH]; intros s He Hd.
  { simpl. split; lia. }
  cbn [Main.mainLoop foldr].
  pose proof (iteration_goes_on o s He Hd) as Hc.
  pose proof (iteration_flags o s) as (_ & _ & He' & Hd' & _).
  assert (MainRuns.totalDelay (Main.effects (Main.iteration o s).1) =
            (MainRuns.totalDelay (Main.effects s) + MainRuns.outcomeDelay o)%N
          ∧ MainRuns.refreshes (Main.effects (Main.iteration o s).1) =
            MainRuns.refreshes (Main.effects s) + MainRuns.outcomeRefreshes o)
    as [Hdelay Hrefresh].
  { destruct o as [batch| | |]; [| |done|done].
    - rewrite iteration_Responded. cbn zeta.
      destruct (advanceCursor_flags batch s) as (_ & _ & -> & -> & _).
      rewrite He, Hd.
      cbn [length Nat.ltb Nat.leb fst]. rewrite mitigate_eq.
      cbn [Main.addEffects Main.effects].
      destruct (advanceCursor_effects batch s) as (l & -> & Hl0 & Hr0 & _).
      rewrite !totalDelay_app, !refreshes_app, Hl0, Hr0.
      unfold MainRuns.outcomeDelay, MainRuns.outcomeRefreshes.
      destruct (hasNetworkError batch), (hasTwitterRateLimitError batch),
        (hasTwitterAuthError batch); simpl;
        change (MainRuns.refreshes [Main.RefreshTwitterAuth]) with 1;
        change (MainRuns.refreshes []) with 0; split; lia.
    - cbn [Main.iteration Main.catch fst Main.addEffects Main.effects].
      rewrite totalDelay_app, refreshes_app. simpl.
      change (MainRuns.refreshes [Main.Delay 5000; Main.RefreshTwitterAuth])
        with 1.
      split; lia. }
  destruct (Main.iteration o s) as [s' continue]. cbn [fst snd] in *.
  assert (continue = true) as ->.
  { apply Hc. by destruct o. }
  destruct (IH s') as [I1 I2]; [congruence..|].
  rewrite I1, I2, Hdelay, Hrefresh. split; lia.
Qed.

Lemma backoff_accounting_witness :
  let s := MainRuns.sampleState (Some "900") (Some "1000") false false false [] in
  let b := Main.Responded (MainRuns.sampleBatch (Some "1200") true true true) in
  MainRuns.totalDelay (Main.effects (Main.mainLoop [Main.Failed; b] s))
    = 45000%N
  ∧ MainRuns.refreshes (Main.effects (Main.mainLoop [Main.Failed; b] s)) = 2.
Proof.
  intros s b.
  exact (backoff_accounting [Main.Failed; b] s
           ltac:(by repeat constructor) eq_refl eq_refl).
Defined.

(** X8: the cursor a process starts from is never undefined. In exhaustive
    mode it is ["0"], whatever the override and the store hold, and the
    store is not read; otherwise a non-empty override wins without a read
    of the store, and else the persisted cursor is read and taken, ["0"]
    standing in only for an undefined one: an empty string in the store
    comes through as it is. *)
Theorem initial_cursor_defined (resolveAll : bool)
    (flag stored : option string) :
  let start := MainRuns.initialSinceMentionId resolveAll flag stored in
  is_Some start.1
  ∧ (resolveAll = true → start = (Some "0", []))
  ∧ (resolveAll = false → truthy flag = true → start = (flag, []))
  ∧ (resolveAll = false → truthy flag = false →
     start.2 = [Main.DbGetSinceMentionId]
     ∧ (∀ id, stored = Some id → start.1 = Some id)
     ∧ (stored = None → start.1 = Some "0"))
  ∧ (truthy start.1 = false →
     resolveAll = false ∧ truthy flag = false ∧ stored = Some "").
Proof.
  unfold MainRuns.initialSinceMentionId.
  destruct resolveAll; simpl.
  { repeat split; done. }
  destruct (truthy flag) eqn:Hf.
  - destruct flag as [f|]; [|done]. simpl in *.
    split; [done|]. split; [done|]. split; [done|]. split; [done|].
    intros E. congruence.
  - destruct stored as [[|c id]|]; simpl.
    all: split; [done|]; split; [done|]; split; [done|]; split; [|done].
    all: intros _ _; split; [done|]; split; [|done].
    all: by intros ? [= <-].
Qed.

Lemma initial_cursor_defined_witness :
  MainRuns.initialSinceMentionId true (Some "5") (Some "1000") = (Some "0", [])
  ∧ MainRuns.initialSinceMentionId false (Some "5") (Some "1000")
    = (Some "5", [])
  ∧ (MainRuns.initialSinceMentionId false (Some "") (Some "1000")).1
    = Some "1000".
Proof.
  split; [|split].
  - apply (proj1 (proj2 (initial_cursor_defined true (Some "5") (Some "1000")))
             eq_refl).
  - apply (proj1 (proj2 (proj2
             (initial_cursor_defined false (Some "5") (Some "1000"))))
             eq_refl eq_refl).
  - apply (proj1 (proj2 (proj1 (proj2 (proj2 (proj2
             (initial_cursor_defined false (Some "") (Some "1000")))))
             eq_refl eq_refl)) "1000" eq_refl).
Defined.

(** ** Calls of the mention fetcher *)

Section MentionsRunsFacts.
Import Mentions MentionsRuns.
Context (env : Env) (ctx : Context) (userId : string)
        (since_id : option string).

Local Abbreviation seed := (cacheSeed env ctx userId since_id).

Lemma StronglySorted_snoc {A} (R : A → A → Prop) (l : list A) (a : A) :
  StronglySorted R l → Forall (λ x, R x a) l → StronglySorted R (l ++ [a]).
Proof.
  induction 1 as [|x l Hl IH Hx]; intros Ha; simpl.
  - by repeat constructor.
  - apply Forall_cons in Ha as [Hxa Ha]. constructor; [by apply IH|].
    apply Forall_app. split; [done|]. by constructor.
Qed.

Lemma addPages_since_ge (r : TweetMentionFetchResult) (ps : list Page) :
  idLe (sinceMentionId r) (sinceMentionId (addPages r ps)).
Proof. apply raiseSince_ge. Qed.

(** The cursors of the queries sent so far are in order, and none is above
    the working cursor. *)
Lemma loopAt_queries (n : nat) (result : TweetMentionFetchResult)
    (effects : list Effect) :
  LoopAt env ctx userId since_id n result effects →
  StronglySorted idLe (queriesSent effects)
  ∧ Forall (λ q, idLe q (sinceMentionId result)) (queriesSent effects)
  ∧ idLe (sinceMentionId seed.1) (sinceMentionId result)
  ∧ (queriesSent effects = []
     ∨ head (queriesSent effects) = Some (sinceMentionId seed.1)).
Proof.
  induction 1 as [result effects Hseed|n result effects st Hat IH Hrun Hgo].
  - destruct (seed_trace env ctx userId since_id) as (_ & S2 & _).
    unfold cacheSeed in *. rewrite Hseed in *. simpl in *. rewrite S2.
    repeat split; [constructor|constructor|reflexivity|by left].
  - destruct IH as (I1 & I2 & I3 & I4).
    destruct (runQuery_complete env ctx userId n result effects st Hrun)
      as (_ & R1 & _ & _ & R4 & _).
    destruct (trace_snoc (qs_effects st)
                (LogQueryStats (numMentionsInQuery st) (numPagesInQuery st)))
      as (_ & -> & _).
    rewrite app_nil_r, R4, R1.
    pose proof (addPages_since_ge result
                  (pages (usersIdMentions env n userId (sinceMentionId result))))
      as Hge.
    repeat split.
    + by apply StronglySorted_snoc.
    + apply Forall_app. split; [|by repeat constructor].
      eapply Forall_impl; [exact I2|]. intros q Hq. simpl in *.
      transitivity (sinceMentionId result); [exact Hq|exact Hge].
    + transitivity (sinceMentionId result); [exact I3|exact Hge].
    + right. destruct I4 as [E|I4].
      * rewrite E. simpl. f_equal.
        destruct (loopAt_inv env ctx userId since_id n result effects Hat)
          as (_ & I5 & _).
        rewrite E in I5. simpl in I5. subst n.
        inversion Hat as [r e Hseed|]; subst. unfold cacheSeed.
        by rewrite Hseed.
      * by destruct (queriesSent effects).
Qed.

Lemma loopEnd_queries x (effects : list Effect) :
  LoopEnd env ctx userId since_id x effects →
  StronglySorted idLe (queriesSent effects)
  ∧ head (queriesSent effects) = Some (sinceMentionId seed.1).
Proof.
  inversion 1 as [n result eff st Hat Hrun Hstop
                 |n result eff st err Hat Hrun Hlen
                 |n result eff st err Hat Hrun Hlen]; subst.
  all: destruct (loopAt_queries n result eff Hat) as (I1 & I2 & _ & I4).
  all: pose proof (runQuery_trace env ctx userId n result eff)
         as (merged & cut & rejections & R);
       rewrite Hrun in R; cbn [fst snd] in R;
       destruct R as (_ & _ & _ & _ & R4 & _).
  all: match goal with |- context [qs_effects ?s ++ [?e]] =>
         destruct (trace_snoc (qs_effects s) e) as (_ & -> & _) end.
  all: rewrite app_nil_r, R4.
  all: split; [by apply StronglySorted_snoc|].
  all: destruct I4 as [E|I4]; [|by destruct (queriesSent eff)].
  all: rewrite E; simpl; f_equal.
  all: destruct (loopAt_inv env ctx userId since_id n result eff Hat)
         as (_ & I5 & _).
  all: rewrite E in I5; simpl in I5; subst n.
  all: inversion Hat as [r e Hseed|]; subst; unfold cacheSeed.
  all: by rewrite Hseed.
Qed.

(** *** Writes and reads of the cache *)

Lemma pageEffects_cache (ps : list Page) :
  cacheWrites (pageEffects ctx userId ps) =
    (if noCache ctx then [] else pageMentions ps)
  ∧ cacheReads (pageEffects ctx userId ps) = [].
Proof.
  induction ps as [|p ps [IH1 IH2]].
  - by destruct (noCache ctx).
  - change (p :: ps) with ([p] ++ ps).
    rewrite pageEffects_app, pageMentions_app, pageMentions_one.
    unfold cacheWrites, cacheReads in *.
    rewrite !bind_app, IH1, IH2, pageEffects_one.
    destruct (noCache ctx); simpl.
    + by rewrite andb_false_r.
    + rewrite andb_true_r.
      destruct (page_data p) as [|m data]; simpl; [done|].
      by rewrite !app_nil_r.
Qed.

(** The cache as a query leaves it: a write for each page that carries
    posts, that of a page cut short by a rejection included, and no
    read. *)
Lemma runQuery_cache (n : nat) (result : TweetMentionFetchResult)
    (effects : list Effect) :
  let st := (runQuery env ctx userId n result effects).1 in
  ∃ ps rest,
    pagesReceived (qs_effects st) = pagesReceived effects ++ ps
    ∧ cacheWrites (qs_effects st) =
        cacheWrites effects ++ (if noCache ctx then [] else pageMentions ps)
    ∧ cacheReads (qs_effects st) = cacheReads effects
    ∧ qs_effects st = effects ++ rest.
Proof.
  intros st.
  destruct (runQuery_run env ctx userId n result effects)
    as (merged & cut & rejections & _ & R2 & _ & R4 & R5).
  fold st in R2.
  destruct (pageEffects_trace ctx userId merged) as (P1 & _).
  destruct (pageEffects_cache merged) as [W1 W2].
  pose proof (cutEffects_trace userId cut rejections) as C. cbn zeta in C.
  assert (cacheWrites
            ((cut ≫= λ p,
                [ApiPage p; DbUpsertTweetMentions userId (page_data p)])
             ++ (DbRejected <$> rejections)) = pageMentions cut
          ∧ cacheReads
              ((cut ≫= λ p,
                  [ApiPage p; DbUpsertTweetMentions userId (page_data p)])
               ++ (DbRejected <$> rejections)) = []) as [W3 W4].
  { destruct R5 as [(-> & _)|(p & err & -> & -> & _)].
    - assert (rejections = []) as -> by (by destruct rejections). done.
    - unfold cacheWrites, cacheReads, pageMentions.
      rewrite !bind_app, !bind_cons. simpl. by rewrite !app_nil_r. }
  set (X := (cut ≫= _) ++ (DbRejected <$> rejections)) in *.
  destruct C as (C1 & _).
  exists (merged ++ cut), (ApiUsersIdMentions userId (sinceMentionId result) ::
                           pageEffects ctx userId merged ++ X).
  split; [|split; [|split; [|exact R2]]].
  - rewrite R2. unfold pagesReceived in *.
    rewrite !bind_app, !bind_cons, !bind_app, P1, C1. done.
  - rewrite R2. unfold cacheWrites in *.
    rewrite !bind_app, !bind_cons, !bind_app, W1, W3. cbn [app].
    rewrite pageMentions_app. destruct (noCache ctx) eqn:Hnc; [|done].
    destruct R5 as [(-> & _)|(p & err & _ & _ & _ & Hnc' & _)];
      [done|congruence].
  - rewrite R2. unfold cacheReads in *.
    rewrite !bind_app, !bind_cons, !bind_app, W2, W4. cbn [app].
    by rewrite app_nil_r.
Qed.

Lemma seed_cache :
  cacheWrites seed.2 = []
  ∧ cacheReads seed.2 =
      (if noCache ctx then [] else [(userId, cacheKey since_id)])
  ∧ head seed.2 =
      (if noCache ctx then None
       else Some (DbGetCachedUserMentions userId (cacheKey since_id))).
Proof.
  unfold cacheSeed, readCache, cacheKey. destruct (noCache ctx); [done|].
  destruct (getCachedUserMentionsForUserSince _ _ _) as [c|]; [|done].
  by destruct (0 <? _)%nat.
Qed.

(** The cache after a query and the line logged at its end. *)
Lemma query_cache (n : nat) (result : TweetMentionFetchResult)
    (effects : list Effect) (st : QueryState) (e : Effect) :
  cacheWrites effects =
    (if noCache ctx then [] else pageMentions (pagesReceived effects))
  ∧ cacheReads effects = cacheReads seed.2
  ∧ (∃ rest, effects = seed.2 ++ rest) →
  (runQuery env ctx userId n result effects).1 = st →
  match e with LogQueryStats _ _ | LogFetchError _ => True | _ => False end →
  cacheWrites (qs_effects st ++ [e]) =
    (if noCache ctx then []
     else pageMentions (pagesReceived (qs_effects st ++ [e])))
  ∧ cacheReads (qs_effects st ++ [e]) = cacheReads seed.2
  ∧ ∃ rest, qs_effects st ++ [e] = seed.2 ++ rest.
Proof.
  intros (I1 & I2 & rest & I3) <- He.
  destruct (runQuery_cache n result effects)
    as (ps & rest' & Q1 & Q2 & Q3 & Q4). cbn zeta in *.
  destruct (trace_snoc (qs_effects (runQuery env ctx userId n result effects).1)
              e) as (-> & _).
  unfold cacheWrites, cacheReads in *. rewrite !bind_app, !bind_cons.
  rewrite Q1, Q2, Q3, I1, I2.
  repeat split.
  - destruct e; try done.
    all: cbn [app]; rewrite !app_nil_r.
    all: destruct (noCache ctx); [done|]; by rewrite pageMentions_app.
  - destruct e; try done. all: by rewrite app_nil_r.
  - eexists. rewrite Q4, I3, <- !app_assoc. done.
Qed.

Lemma loopAt_cache (n : nat) (result : TweetMentionFetchResult)
    (effects : list Effect) :
  LoopAt env ctx userId since_id n result effects →
  cacheWrites effects =
    (if noCache ctx then [] else pageMentions (pagesReceived effects))
  ∧ cacheReads effects = cacheReads seed.2
  ∧ ∃ rest, effects = seed.2 ++ rest.
Proof.
  induction 1 as [result effects Hseed|n result effects st Hat IH Hrun Hgo].
  - destruct seed_cache as (S1 & _).
    destruct (seed_trace env ctx userId since_id) as (P1 & _).
    unfold cacheSeed in *. rewrite Hseed in *. simpl in *.
    rewrite S1, P1.
    split; [by destruct (noCache ctx)|]. split; [done|].
    exists []. by rewrite app_nil_r.
  - destruct IH as (I1 & I2 & rest & I3).
    eapply query_cache;
      [exact (conj I1 (conj I2 (ex_intro _ rest I3)))| |done].
    by rewrite Hrun.
Qed.

Lemma loopEnd_cache x (effects : list Effect) :
  LoopEnd env ctx userId since_id x effects →
  cacheWrites effects =
    (if noCache ctx then [] else pageMentions (pagesReceived effects))
  ∧ cacheReads effects = cacheReads seed.2
  ∧ ∃ rest, effects = seed.2 ++ rest.
Proof.
  inversion 1 as [n result eff st Hat Hrun Hstop
                 |n result eff st err Hat Hrun Hlen
                 |n result eff st err Hat Hrun Hlen]; subst.
  all: eapply query_cache; [exact (loopAt_cache n result eff Hat)| |done].
  all: by rewrite Hrun.
Qed.

(** *** The last entry wins *)

Lemma lastUser_cons (k : string) (u : TwitterUser) (l : list TwitterUser) :
  lastUser k (u :: l) =
  match lastUser k l with
  | Some u' => Some u'
  | None => if decide (user_id u = k) then Some u else None
  end.
Proof.
  unfold lastUser. rewrite filter_cons.
  destruct (decide (user_id u = k)); [apply last_cons|by destruct (last _)].
Qed.

Lemma addUsers_last (l : list TwitterUser) (m : gmap string TwitterUser)
    (k : string) :
  addUsers m l !! k =
  match lastUser k l with
  | Some u => Some u
  | None => m !! k
  end.
Proof.
  revert m. induction l as [|u l IH]; intros m; [done|].
  change (addUsers m (u :: l)) with (addUsers (<[user_id u := u]> m) l).
  rewrite IH, lastUser_cons. destruct (lastUser k l); [done|].
  destruct (decide (user_id u = k)) as [<-|Hne].
  - by rewrite lookup_insert_eq.
  - by rewrite lookup_insert_ne.
Qed.

Lemma lastTweet_cons (k : string) (t : Tweet) (l : list Tweet) :
  lastTweet k (t :: l) =
  match lastTweet k l with
  | Some t' => Some t'
  | None => if decide (tweet_id t = k) then Some t else None
  end.
Proof.
  unfold lastTweet. rewrite filter_cons.
  destruct (decide (tweet_id t = k)); [apply last_cons|by destruct (last _)].
Qed.

Lemma addTweets_last (l : list Tweet) (m : gmap string Tweet) (k : string) :
  addTweets m l !! k =
  match lastTweet k l with
  | Some t => Some t
  | None => m !! k
  end.
Proof.
  revert m. induction l as [|t l IH]; intros m; [done|].
  change (addTweets m (t :: l)) with (addTweets (<[tweet_id t := t]> m) l).
  rewrite IH, lastTweet_cons. destruct (lastTweet k l); [done|].
  destruct (decide (tweet_id t = k)) as [<-|Hne].
  - by rewrite lookup_insert_eq.
  - by rewrite lookup_insert_ne.
Qed.

Lemma flush_cache (effects : list Effect) (r : TweetMentionFetchResult) :
  let flushed :=
    effects ++ [DbUpsertTweets (tweets r); DbUpsertTwitterUsers (users r)] in
  cacheWrites flushed = cacheWrites effects
  ∧ cacheReads flushed = cacheReads effects.
Proof.
  unfold cacheWrites, cacheReads.
  rewrite !bind_app, !bind_cons. split; apply app_nil_r.
Qed.

End MentionsRunsFacts.

(** X9: the queries of a call carry cursors that never decrease from one
    query to the next; the first is the seed's cursor, which is at least
    the input [since_id] and is the input itself when the cache is
    bypassed. *)
Theorem query_cursors_ordered (env : Mentions.Env) (fuel : nat)
    (userId : string) (since_id : option string) (ctx : Context)
    (c : Mentions.Completion) (eff : list Mentions.Effect) :
  Mentions.getTwitterUserIdMentions env fuel userId since_id ctx
    = Some (c, eff) →
  let first := sinceMentionId (Mentions.cacheSeed env ctx userId since_id).1 in
  StronglySorted idLe (Mentions.queriesSent eff)
  ∧ head (Mentions.queriesSent eff) = Some first
  ∧ idLe since_id first
  ∧ (noCache ctx = true → first = since_id).
Proof.
  intros Hcall first.
  apply getTwitterUserIdMentions_end in Hcall as (x & eff0 & Hend & Hc).
  destruct (loopEnd_queries env ctx userId since_id x eff0 Hend) as [Hs Hh].
  assert (Mentions.queriesSent eff = Mentions.queriesSent eff0) as ->.
  { destruct x as [r|e]; destruct Hc as [_ ->]; [|done].
    by destruct (flush_trace eff0 r) as (_ & -> & _). }
  split; [done|]. split; [done|].
  split; [apply seed_since_ge|].
  intros Hnc. unfold first, Mentions.cacheSeed, Mentions.readCache.
  by rewrite Hnc.
Qed.

Lemma query_cursors_ordered_witness :
  ∃ c eff,
    Mentions.getTwitterUserIdMentions Mentions.envBacklog 3 "bot" (Some "100")
      (Mentions.sampleCtx true true) = Some (c, eff)
    ∧ Mentions.queriesSent eff = [Some "100"; Some "105"; Some "110"]
    ∧ StronglySorted idLe (Mentions.queriesSent eff).
Proof.
  eexists _, _. split; [vm_compute; reflexivity|]. split; [reflexivity|].
  refine (proj1 (query_cursors_ordered Mentions.envBacklog 3 "bot" (Some "100")
                   (Mentions.sampleCtx true true) _ _ _)).
  vm_compute. reflexivity.
Defined.

(** X10: unless the cache is bypassed, a call reads the cached mentions
    exactly once, first of all and with the cursor [since_id || '0'], and
    writes to the cache every post it receives from the timeline, page by
    page and in order (the writes as they are called, a rejected one
    included). *)
Theorem cache_mirrors_pages (env : Mentions.Env) (fuel : nat)
    (userId : string) (since_id : option string) (ctx : Context)
    (c : Mentions.Completion) (eff : list Mentions.Effect) :
  noCache ctx = false →
  Mentions.getTwitterUserIdMentions env fuel userId since_id ctx
    = Some (c, eff) →
  MentionsRuns.cacheWrites eff
    = Mentions.pageMentions (Mentions.pagesReceived eff)
  ∧ MentionsRuns.cacheReads eff = [(userId, MentionsRuns.cacheKey since_id)]
  ∧ head eff =
      Some (Mentions.DbGetCachedUserMentions userId
              (MentionsRuns.cacheKey since_id)).
Proof.
  intros Hnc Hcall.
  apply getTwitterUserIdMentions_end in Hcall as (x & eff0 & Hend & Hc).
  destruct (loopEnd_cache env ctx userId since_id x eff0 Hend)
    as (Hw & Hr & rest & Hrest).
  destruct (seed_cache env ctx userId since_id) as (_ & Hsr & Hsh).
  rewrite Hnc in Hw, Hsr, Hsh. rewrite Hsr in Hr.
  assert (head eff0 =
          Some (Mentions.DbGetCachedUserMentions userId
                  (MentionsRuns.cacheKey since_id))) as Hh.
  { rewrite Hrest.
    destruct (Mentions.cacheSeed env ctx userId since_id).2; [done|].
    exact Hsh. }
  destruct x as [r|e]; destruct Hc as [_ ->]; [|done].
  destruct (flush_cache eff0 r) as (-> & ->).
  destruct (flush_trace eff0 r) as (-> & _).
  split; [done|]. split; [done|]. by destruct eff0.
Qed.

Lemma cache_mirrors_pages_witness :
  ∃ c eff,
    Mentions.getTwitterUserIdMentions Mentions.envBacklog 3 "bot" None
      (Mentions.sampleCtx false true) = Some (c, eff)
    ∧ tweet_id <$> MentionsRuns.cacheWrites eff
      = ["101"; "102"; "103"; "104"; "105"; "106"; "107"; "108"; "109";
         "110"; "111"]
    ∧ MentionsRuns.cacheReads eff = [("bot", "0")].
Proof.
  eexists _, _. split; [vm_compute; reflexivity|]. split; [reflexivity|].
  refine (proj1 (proj2 (cache_mirrors_pages Mentions.envBacklog 3 "bot" None
                          (Mentions.sampleCtx false true) _ _ eq_refl _))).
  vm_compute. reflexivity.
Defined.

(** X11: a call throws only empty-handed: the cache seeded no mention, no
    page delivered one, and the error thrown is that of the one remote
    error caught, logged as the last effect. So a call that was seeded
    from the cache never throws. *)
Theorem throws_only_empty_handed (env : Mentions.Env) (fuel : nat)
    (userId : string) (since_id : option string) (ctx : Context)
    (e : Mentions.BotError) (eff : list Mentions.Effect) :
  Mentions.getTwitterUserIdMentions env fuel userId since_id ctx
    = Some (Mentions.Throw e, eff) →
  mentions (Mentions.cacheSeed env ctx userId since_id).1 = []
  ∧ Mentions.pageMentions (Mentions.pagesReceived eff) = []
  ∧ ∃ err, Mentions.fetchErrors eff = [err]
           ∧ e = Mentions.fetchError env err
           ∧ last eff = Some (Mentions.LogFetchError err).
Proof.
  intros Hcall.
  apply getTwitterUserIdMentions_end in Hcall
    as ([r|e'] & eff0 & Hend & Hc); [by destruct Hc|].
  destruct Hc as [[= <-] ->].
  inversion Hend as [| |n result eff' st err Hat Hrun Hlen]; subst.
  destruct (loopAt_inv env ctx userId since_id n result eff' Hat)
    as (I1 & _ & _ & _ & I5 & _).
  pose proof (runQuery_trace env ctx userId n result eff')
    as (merged & cut & rejections & R).
  rewrite Hrun in R. cbn [fst snd] in R.
  destruct R as (_ & R1 & _ & R3 & _ & _ & R6 & _).
  destruct (trace_snoc (Mentions.qs_effects st) (Mentions.LogFetchError err))
    as (-> & _ & _ & -> & _).
  rewrite app_nil_r, R3, R6, I5.
  assert (mentions (Mentions.qs_result st) = []) as Hnil.
  { apply Nat.ltb_ge in Hlen. destruct (mentions _); [done|simpl in Hlen; lia]. }
  rewrite R1 in Hnil.
  cbn [Mentions.addPosts Mentions.addPages mentions] in Hnil.
  apply app_eq_nil in Hnil as [Hm Hc].
  apply app_eq_nil in Hm as [Hm Hp].
  rewrite I1 in Hm. cbn [Mentions.addPages mentions] in Hm.
  apply app_eq_nil in Hm as [Hs Hq].
  split; [done|].
  split; [by rewrite !pageMentions_app, Hq, Hp, Hc|].
  exists err. split; [done|]. split; [done|]. apply last_snoc.
Qed.

Lemma throws_only_empty_handed_witness :
  ∃ e eff,
    Mentions.getTwitterUserIdMentions Mentions.envDown 1 "bot" (Some "100")
      (Mentions.sampleCtx false false) = Some (Mentions.Throw e, eff)
    ∧ Mentions.pageMentions (Mentions.pagesReceived eff) = [].
Proof.
  eexists _, _. split; [vm_compute; reflexivity|].
  refine (proj1 (proj2 (throws_only_empty_handed Mentions.envDown 1 "bot"
                          (Some "100") (Mentions.sampleCtx false false) _ _ _))).
  vm_compute. reflexivity.
Defined.

(** X12: in the users and the tweets of a returned result the last entry
    merged wins: under an identifier stands the last user (referenced
    tweet) with that identifier among the pages whose includes were
    merged, in order, and the seed's entry only when none of them carries
    the identifier. The pages merged are the pages received, but for a
    page whose cache write was rejected: its includes are left out. *)
Theorem last_entry_wins (env : Mentions.Env) (fuel : nat)
    (userId : string) (since_id : option string) (ctx : Context)
    (r : TweetMentionFetchResult) (eff : list Mentions.Effect) (k : string) :
  Mentions.getTwitterUserIdMentions env fuel userId since_id ctx
    = Some (Mentions.Return r, eff) →
  let seeded := (Mentions.cacheSeed env ctx userId since_id).1 in
  users r !! k =
    match MentionsRuns.lastUser k
            (Mentions.pagesMerged eff ≫= Mentions.page_users) with
    | Some u => Some u
    | None => users seeded !! k
    end
  ∧ tweets r !! k =
    match MentionsRuns.lastTweet k
            (Mentions.pagesMerged eff ≫= Mentions.page_tweets) with
    | Some t => Some t
    | None => tweets seeded !! k
    end
  ∧ (Mentions.writeRejections eff = [] →
     Mentions.pagesMerged eff = Mentions.pagesReceived eff).
Proof.
  intros Hcall seeded.
  apply getTwitterUserIdMentions_end in Hcall
    as ([r'|e] & eff0 & Hend & Hc); [|by destruct Hc].
  destruct Hc as [[= <-] ->].
  destruct (loopEnd_result env ctx userId since_id r eff0 Hend) as [Hr _].
  destruct (flush_merged eff0 r) as (-> & _).
  destruct (flush_trace eff0 r) as (-> & _ & _ & _ & ->).
  split; [|split].
  - rewrite Hr at 1. apply addUsers_last.
  - rewrite Hr at 1. apply addTweets_last.
  - intros Hw. by apply merged_all.
Qed.

Lemma last_entry_wins_witness :
  ∃ r eff,
    Mentions.getTwitterUserIdMentions MentionsRuns.envRenamed 1 "bot"
      (Some "100") (Mentions.sampleCtx true false)
      = Some (Mentions.Return r, eff)
    ∧ users r !! "7" = Some {| user_id := "7"; user_username := "alicia" |}.
Proof.
  eexists _, _. split; [vm_compute; reflexivity|].
  match goal with
  | |- users ?r !! _ = _ =>
      pose proof (λ eff H,
                    proj1 (last_entry_wins MentionsRuns.envRenamed 1 "bot"
                             (Some "100") (Mentions.sampleCtx true false)
                             r eff "7" H)) as W
  end.
  etrans; [eapply W; vm_compute; reflexivity|]. reflexivity.
Defined.

Example cached_call_survives_outage :
  ∃ r eff,
    Mentions.getTwitterUserIdMentions MentionsRuns.envCachedDown 1 "bot"
      (Some "100") (Mentions.sampleCtx false false)
      = Some (Mentions.Return r, eff)
    ∧ mentions r = [Mentions.post "120"]
    ∧ sinceMentionId r = Some "120".
Proof. eexists _, _. split; [vm_compute; reflexivity|]. by split. Qed.

(** The includes of a page whose cache write was rejected are left out of
    the result, though its posts are in it. *)
Example rejected_write_drops_includes :
  ∃ r eff,
    Mentions.getTwitterUserIdMentions Mentions.envWriteRejected 1 "bot"
      (Some "100") (Mentions.sampleCtx false false)
      = Some (Mentions.Return r, eff)
    ∧ tweet_id <$> mentions r = ["101"; "102"; "105"]
    ∧ Mentions.pagesReceived eff ≫= Mentions.page_users
      = [{| user_id := "7"; user_username := "alice" |}]
    ∧ users r !! "7" = None.
Proof. eexists _, _. split; [vm_compute; reflexivity|]. by repeat split. Qed.

(** ** Shapes of resolved threads *)

Section ThreadShapeFacts.
Import Thread ThreadShape.
Context (env : Env).

Lemma ParentChain_unique (m : Message) (anc1 anc2 : list Message) :
  ParentChain env m anc1 → ParentChain env m anc2 → anc1 = anc2.
Proof.
  intros H1. revert anc2.
  induction H1 as [m Hroot|m p anc Hp Hget Hchain IH]; intros anc2 H2.
  - destruct H2 as [m _|m p anc' Hp Hget _]; [done|].
    destruct Hroot as [E|E]; congruence.
  - destruct H2 as [m Hroot|m p' anc' Hp' Hget' Hchain'].
    + destruct Hroot as [E|E]; congruence.
    + assert (p' = p) as -> by congruence. by rewrite (IH anc').
Qed.

(** The walk along the parents ends only at the end of a chain, shorter
    than the fuel. *)
Lemma walkParents_sound (fuel next : nat) (mo root : MessageObj)
    (acc msgs : list MessageObj) :
  walkParents env fuel next mo acc = Some (root, msgs) →
  ∃ anc, ParentChain env (obj_val mo) anc ∧ length anc < fuel.
Proof.
  revert next mo acc. induction fuel as [|fuel IH]; intros next mo acc; [done|].
  cbn [walkParents].
  destruct (truthy (parentMessageId (obj_val mo))) eqn:Hp; cbn [negb].
  2:{ intros _. exists []. split; [apply chain_root; by left|simpl; lia]. }
  destruct (db_messages env !! default "" (parentMessageId (obj_val mo)))
    as [p|] eqn:Hget.
  2:{ intros _. exists []. split; [apply chain_root; by right|simpl; lia]. }
  intros (anc & Hchain & Hlen)%IH. exists (anc ++ [p]). split.
  - by apply chain_step.
  - rewrite length_app. simpl. lia.
Qed.

Lemma walkReplies_sound (fuel : nat) (t : Tweet) (acc l : list Tweet) :
  walkReplies env fuel t acc = Some l →
  ∃ older, ReplyChain env t older ∧ length older < fuel.
Proof.
  revert t acc. induction fuel as [|fuel IH]; intros t acc; [done|].
  cbn [walkReplies].
  destruct (List.find isRepliedTo (referenced_tweets t)) as [r|] eqn:Hfind.
  2:{ intros _. exists []. split; [|simpl; lia].
      apply reply_end. intros r. by rewrite Hfind. }
  destruct (remote_tweets env !! ref_id r) as [t'|] eqn:Hget.
  2:{ intros _. exists []. split; [|simpl; lia].
      apply reply_end. intros r'. rewrite Hfind. by intros [= <-]. }
  intros (older & Hchain & Hlen)%IH. exists (older ++ [t']). split.
  - by eapply reply_step.
  - rewrite length_app. simpl. lia.
Qed.

Lemma resolvePrevTweets_sound (fuel : nat) (b : bool) (root : Message)
    (l : list Tweet) :
  0 < fuel →
  resolvePrevTweets env fuel b root = Some l →
  ∃ prev, PrevTweets env root b prev ∧ length prev < fuel.
Proof.
  intros Hfuel. unfold resolvePrevTweets. destruct b.
  2:{ intros _. exists []. split; [apply prev_disabled|done]. }
  destruct (remote_tweets env !! promptTweetId root) as [t|] eqn:Hget.
  2:{ intros _. exists []. split; [by apply prev_unresolved|done]. }
  intros (older & Hchain & Hlen)%walkReplies_sound.
  exists older. split; [by eapply prev_chain|done].
Qed.

(** Whatever the resolver answers is the rendering of a thread. *)
Lemma resolveMessageThread_sound (fuel : nat) (leaf : Message) (b : bool)
    (out : list Msg) :
  resolveMessageThread env fuel leaf b = Some out →
  ∃ anc prev,
    ParentChain env leaf anc
    ∧ PrevTweets env (rootOf anc leaf) b prev
    ∧ length anc < fuel ∧ length prev < fuel
    ∧ out = renderThread prev anc leaf.
Proof.
  intros Hres. pose proof Hres as Hres'. unfold resolveMessageThread in Hres.
  destruct (walkParents env fuel (S leafRef)
              {| obj_ref := leafRef; obj_val := leaf |}
              [{| obj_ref := leafRef; obj_val := leaf |}])
    as [[root msgs]|] eqn:Hwalk; [|done].
  destruct (walkParents_sound _ _ _ _ _ _ Hwalk) as (anc & Hchain & Hlen).
  simpl in Hchain.
  destruct (walkParents_chain env leaf anc Hchain fuel (S leafRef) leafRef
              [{| obj_ref := leafRef; obj_val := leaf |}] Hlen)
    as (root' & objs & Hwalk' & Hroot & _).
  rewrite Hwalk in Hwalk'. injection Hwalk' as <- _.
  destruct (resolvePrevTweets env fuel b (obj_val root)) as [l|] eqn:Hprev;
    [|done].
  apply resolvePrevTweets_sound in Hprev as (prev & Hprev & Hlen'); [|lia].
  rewrite Hroot in Hprev.
  exists anc, prev. do 4 (split; [done|]).
  rewrite (resolveMessageThread_render env leaf anc b prev fuel) in Hres';
    [|done..].
  by injection Hres' as <-.
Qed.

Lemma alternates_users (afterUser : bool) (texts : list string)
    (l : list Msg) :
  alternates true l = true →
  (texts = [] → alternates afterUser l = true) →
  alternates afterUser ((MsgUser <$> texts) ++ l) = true.
Proof.
  intros Hl Hnil. destruct texts as [|t texts]; [by apply Hnil|].
  clear Hnil. simpl. revert t. induction texts as [|t' texts IH]; intros t.
  - done.
  - simpl. apply (IH t').
Qed.

Lemma alternates_turns (afterUser : bool) (turns : list Message)
    (p : string) :
  alternates afterUser ((turns ≫= renderTurn) ++ [MsgUser p]) = true.
Proof.
  revert afterUser. induction turns as [|m turns IH]; intros afterUser.
  - done.
  - rewrite bind_cons, <- app_assoc. unfold renderTurn at 1.
    destruct (truthy (response m)); simpl; apply IH.
Qed.

(** A rendered thread starts with a user entry, has a user entry before
    each assistant entry, and ends with the prompt of the leaf. *)
Lemma renderThread_shape (prev : list Tweet) (anc : list Message)
    (leaf : Message) :
  alternates false (renderThread prev anc leaf) = true
  ∧ last (renderThread prev anc leaf) = Some (MsgUser (prompt leaf)).
Proof.
  unfold renderThread. split.
  - rewrite (list_fmap_compose tweet_text MsgUser).
    apply alternates_users; [apply alternates_turns|].
    intros _. apply alternates_turns.
  - by rewrite !app_assoc, last_snoc.
Qed.

Lemma walkParents_diverges (P : Message → Prop) :
  ParentsNeverEnd env P →
  ∀ (fuel next : nat) (mo : MessageObj) (acc : list MessageObj),
    P (obj_val mo) → walkParents env fuel next mo acc = None.
Proof.
  intros Hclosed. induction fuel as [|fuel IH]; intros next mo acc HP; [done|].
  destruct (Hclosed _ HP) as (Hp & p & Hget & HPp).
  cbn [walkParents]. rewrite Hp, Hget. cbn [negb]. by apply IH.
Qed.

Lemma walkReplies_diverges (Q : Tweet → Prop) :
  RepliesNeverEnd env Q →
  ∀ (fuel : nat) (t : Tweet) (acc : list Tweet),
    Q t → walkReplies env fuel t acc = None.
Proof.
  intros Hclosed. induction fuel as [|fuel IH]; intros t acc HQ; [done|].
  destruct (Hclosed _ HQ) as (r & t' & Hfind & Hget & HQ').
  cbn [walkReplies]. rewrite Hfind, Hget. by apply IH.
Qed.

Lemma walkParents_ext (env' : Env) :
  db_messages env' = db_messages env →
  ∀ (fuel next : nat) (mo : MessageObj) (acc : list MessageObj),
    walkParents env' fuel next mo acc = walkParents env fuel next mo acc.
Proof.
  intros Hdb. induction fuel as [|fuel IH]; intros next mo acc; [done|].
  cbn [walkParents]. rewrite Hdb.
  destruct (negb _); [done|].
  destruct (db_messages env !! _); [|done]. apply IH.
Qed.

End ThreadShapeFacts.

(** X13: whatever the stores hold, a context the resolver returns is fit
    for a chat completion: it is not empty, it starts with a user entry,
    every assistant entry comes right after a user entry, and its last
    entry is the prompt of the leaf as a user entry. *)
Theorem resolved_thread_shape (env : Thread.Env) (fuel : nat)
    (leaf : Message) (b : bool) (out : list Thread.Msg) :
  Thread.resolveMessageThread env fuel leaf b = Some out →
  ThreadShape.alternates false out = true
  ∧ last out = Some (Thread.MsgUser (prompt leaf))
  ∧ ∃ c, head out = Some (Thread.MsgUser c).
Proof.
  intros (anc & prev & _ & _ & _ & _ & ->)%resolveMessageThread_sound.
  destruct (renderThread_shape prev anc leaf) as [Halt Hlast].
  split; [done|]. split; [done|].
  destruct (Thread.renderThread prev anc leaf) as [|[c|c] out'];
    [done|by eauto|done].
Qed.

Lemma resolved_thread_shape_witness :
  ∃ out,
    Thread.resolveMessageThread Thread.sampleEnvFailed 3 Thread.sampleT3 true
      = Some out
    ∧ ThreadShape.alternates false out = true
    ∧ last out = Some (Thread.MsgUser "since when?").
Proof.
  eexists. split; [vm_compute; reflexivity|].
  refine (let H := resolved_thread_shape Thread.sampleEnvFailed 3
                     Thread.sampleT3 true _ _ in
          conj (proj1 H) (proj1 (proj2 H))).
  vm_compute. reflexivity.
Defined.

(** X14: the resolver answers only for threads that end: whenever it
    returns, the leaf has a finite chain of stored ancestors and the oldest
    turn a finite chain of older posts, both shorter than the fuel, and the
    answer is the rendering of these. *)
Theorem resolver_answers_render_a_thread (env : Thread.Env) (fuel : nat)
    (leaf : Message) (b : bool) (out : list Thread.Msg) :
  Thread.resolveMessageThread env fuel leaf b = Some out →
  ∃ anc prev,
    Thread.ParentChain env leaf anc
    ∧ Thread.PrevTweets env (Thread.rootOf anc leaf) b prev
    ∧ length anc < fuel ∧ length prev < fuel
    ∧ out = Thread.renderThread prev anc leaf.
Proof. apply resolveMessageThread_sound. Qed.

Lemma resolver_answers_render_a_thread_witness :
  ∃ anc prev,
    Thread.ParentChain Thread.sampleEnv Thread.sampleT3 anc
    ∧ Thread.PrevTweets Thread.sampleEnv (Thread.rootOf anc Thread.sampleT3)
        true prev
    ∧ length anc < 3 ∧ length prev < 3
    ∧ [Thread.MsgUser "proof assistants are fun";
       Thread.MsgUser "what is rocq?";
       Thread.MsgAssistant "a proof assistant";
       Thread.MsgUser "who makes it?"; Thread.MsgAssistant "inria";
       Thread.MsgUser "since when?"]
      = Thread.renderThread prev anc Thread.sampleT3.
Proof.
  apply (resolver_answers_render_a_thread Thread.sampleEnv 3 Thread.sampleT3
           true).
  vm_compute. reflexivity.
Defined.

(** X15: the resolver has no guard against references that go round. From
    a turn whose parent references never end it does not return, whatever
    the fuel; nor does it, when the remote thread is asked for, if the
    reply references of the oldest turn's post never end. *)
Theorem cyclic_thread_never_resolves (env : Thread.Env) (leaf : Message)
    (fuel : nat) :
  (∀ (P : Message → Prop) (b : bool),
     ThreadShape.ParentsNeverEnd env P → P leaf →
     Thread.resolveMessageThread env fuel leaf b = None)
  ∧ (∀ (Q : Tweet → Prop) (anc : list Message) (t : Tweet),
       Thread.ParentChain env leaf anc →
       Thread.remote_tweets env !! promptTweetId (Thread.rootOf anc leaf)
         = Some t →
       ThreadShape.RepliesNeverEnd env Q → Q t →
       Thread.resolveMessageThread env fuel leaf true = None).
Proof.
  split.
  - intros P b Hclosed HP. unfold Thread.resolveMessageThread.
    by rewrite (walkParents_diverges env P Hclosed).
  - intros Q anc t Hchain Hget Hclosed HQ.
    destruct (Thread.resolveMessageThread env fuel leaf true) as [out|] eqn:Hres;
      [|done].
    apply resolveMessageThread_sound in Hres
      as (anc' & prev & Hchain' & Hprev & _ & Hlen & _).
    rewrite (ParentChain_unique env leaf anc' anc Hchain' Hchain) in Hprev.
    exfalso. inversion Hprev as [|b' Hnone|t' older Hget' Hreply]; subst.
    + congruence.
    + assert (t' = t) as -> by congruence.
      pose proof (walkReplies_chain env t prev Hreply (S (length prev)) [])
        as Hwalk.
      rewrite (walkReplies_diverges env Q Hclosed) in Hwalk by done.
      by specialize (Hwalk ltac:(lia)).
Qed.

Lemma cyclic_thread_never_resolves_witness :
  Thread.resolveMessageThread ThreadShape.envLoop 1000 ThreadShape.loopA false
    = None
  ∧ Thread.resolveMessageThread ThreadShape.envEcho 1000 ThreadShape.echoTurn
      true = None.
Proof.
  split.
  - apply (proj1 (cyclic_thread_never_resolves ThreadShape.envLoop
                    ThreadShape.loopA 1000)
             (λ m, m = ThreadShape.loopA ∨ m = ThreadShape.loopB)).
    + intros m [->| ->].
      * split; [reflexivity|]. exists ThreadShape.loopB.
        split; [reflexivity|]. by right.
      * split; [reflexivity|]. exists ThreadShape.loopA.
        split; [reflexivity|]. by left.
    + by left.
  - apply (proj2 (cyclic_thread_never_resolves ThreadShape.envEcho
                    ThreadShape.echoTurn 1000)
             (λ t, t = ThreadShape.selfReply) [] ThreadShape.selfReply).
    + apply Thread.chain_root. by left.
    + reflexivity.
    + intros t ->. eexists _, ThreadShape.selfReply.
      split; [reflexivity|]. split; [reflexivity|done].
    + reflexivity.
Defined.

(** X16: with [resolvePrevTweetsInThread] false the remote posts are not
    consulted: the answer is the same whatever posts the platform holds. *)
Theorem thread_without_remote_posts (env : Thread.Env)
    (posts : gmap string Tweet) (fuel : nat) (leaf : Message) :
  Thread.resolveMessageThread
    {| Thread.db_messages := Thread.db_messages env;
       Thread.remote_tweets := posts |} fuel leaf false
  = Thread.resolveMessageThread env fuel leaf false.
Proof.
  unfold Thread.resolveMessageThread.
  rewrite (walkParents_ext env) by done.
  by destruct (Thread.walkParents env fuel _ _ _) as [[root msgs]|].
Qed.

(** ** The curated set *)

(** X17: a user name is a known bot exactly when it is, up to the case of
    its letters, one of the names of the source list; and every known bot
    is a likely bot. *)
Theorem known_bot_up_to_case (username : string) :
  (KnownBots.isKnownTwitterBot username = true ↔
   ∃ name, name ∈ KnownBots.knownBotNames
           ∧ KnownBots.toLowerCase username = KnownBots.toLowerCase name)
  ∧ (KnownBots.isKnownTwitterBot username = true →
     KnownBots.isLikelyTwitterBot username = true).
Proof.
  split.
  - rewrite isKnownTwitterBot_spec. unfold KnownBots.twitterKnownBots.
    rewrite elem_of_list_to_set, list_elem_of_fmap. split.
    + intros (name & E & Hin). by exists name.
    + intros (name & Hin & E). by exists name.
  - intros Hknown. unfold KnownBots.isLikelyTwitterBot.
    unfold KnownBots.isKnownTwitterBot in *.
    by rewrite toLowerCase_idemp, Hknown.
Qed.

Lemma known_bot_up_to_case_witness :
  KnownBots.isKnownTwitterBot "SAVEtoNOTION" = true
  ∧ KnownBots.isLikelyTwitterBot "SAVEtoNOTION" = true.
Proof.
  assert (KnownBots.isKnownTwitterBot "SAVEtoNOTION" = true) as H.
  { apply (proj1 (known_bot_up_to_case "SAVEtoNOTION")).
    exists "SaveToNotion". split; [|reflexivity].
    apply list_elem_of_In. do 1 right. by left. }
  split; [exact H|].
  exact (proj2 (known_bot_up_to_case "SAVEtoNOTION") H).
Defined.

(** X18: the set holds lowercase names only, as its comment says: each of
    its members is its own lowercase form. *)
Theorem known_bots_are_lowercase (name : string) :
  name ∈ KnownBots.twitterKnownBots → KnownBots.toLowerCase name = name.
Proof.
  unfold KnownBots.twitterKnownBots.
  rewrite elem_of_list_to_set, list_elem_of_fmap.
  intros (n & -> & _). apply toLowerCase_idemp.
Qed.

Lemma known_bots_are_lowercase_witness :
  KnownBots.toLowerCase "savetonotion" = "savetonotion".
Proof.
  apply known_bots_are_lowercase.
  apply (bool_decide_eq_true_1 _). by vm_compute.
Defined.

(** ** The answer engine *)

Section AnswerEngineFacts.
Import AnswerEngine.

Lemma readName_insert (m : gmap string (option string)) k v k' :
  readName (<[k := v]> m) k' = if decide (k = k') then v else readName m k'.
Proof.
  unfold readName. destruct (decide (k = k')) as [->|Hne].
  - by rewrite lookup_insert_eq.
  - by rewrite lookup_insert_ne.
Qed.

Lemma lookupUsernames_known env tweet rest m log0 :
  truthy (readName m (keyOf (author_id tweet))) = true →
  lookupUsernames env (tweet :: rest) m log0
  = lookupUsernames env rest m log0.
Proof. intros H. cbn [lookupUsernames]. by rewrite H. Qed.

Lemma lookupUsernames_asked env tweet rest m log0 username :
  truthy (readName m (keyOf (author_id tweet))) = false →
  tryGetTwitterUsernameByUserId env log0 (author_id tweet)
  = Returned username →
  lookupUsernames env (tweet :: rest) m log0
  = lookupUsernames env rest (<[keyOf (author_id tweet) := username]> m)
      (log0 ++ [DbUsername (author_id tweet) (Returned username)]).
Proof.
  intros H E. cbn [lookupUsernames]. rewrite H. cbn [negb].
  unfold bind, await. by rewrite E.
Qed.

Lemma lookupUsernames_rejected env tweet rest m log0 e :
  truthy (readName m (keyOf (author_id tweet))) = false →
  tryGetTwitterUsernameByUserId env log0 (author_id tweet) = Threw e →
  lookupUsernames env (tweet :: rest) m log0
  = (Threw e, log0 ++ [DbUsername (author_id tweet) (Threw e)]).
Proof.
  intros H E. cbn [lookupUsernames]. rewrite H. cbn [negb].
  unfold bind, await. by rewrite E.
Qed.

Lemma lookupUsernames_run env tweets : ∀ m log0 res log,
  lookupUsernames env tweets m log0 = (res, log) →
  ∃ eff, log = log0 ++ eff
    ∧ Forall (λ e, isDbUsername e = true) eff
    ∧ sublist (usernameLookups eff).*1 (keyOf ∘ author_id <$> tweets)
    ∧ (∀ k, truthy (readName m k) = true → k ∉ (usernameLookups eff).*1)
    ∧ (∀ l1 k u l2,
         usernameLookups eff = l1 ++ (k, Returned u) :: l2 →
         truthy u = true → k ∉ l2.*1)
    ∧ match res with
      | Returned m' =>
          ∀ k, readName m' k
               = default (readName m k) (last (usernameAnswers k eff))
      | Threw e => last eff ≫= rejection = Some e
      end.
Proof.
  induction tweets as [|tweet rest IH]; intros m log0 res log Hrun.
  - cbn in Hrun. injection Hrun as <- <-. exists [].
    rewrite app_nil_r. split; [done|]. split; [constructor|].
    split; [constructor|]. split; [intros k _; apply not_elem_of_nil|].
    split; [|done]. intros [|??] ??? E; cbn in E; discriminate E.
  - destruct (truthy (readName m (keyOf (author_id tweet)))) eqn:Hknown.
    { rewrite lookupUsernames_known in Hrun by done.
      destruct (IH _ _ _ _ Hrun) as (eff & -> & Hcls & Hsub & Hfresh & Hmemo & Hres).
      exists eff. split; [done|]. split; [done|].
      split; [by apply sublist_cons|]. by split; [|split]. }
    destruct (tryGetTwitterUsernameByUserId env log0 (author_id tweet))
      as [username|e] eqn:Hans.
    + rewrite (lookupUsernames_asked _ _ _ _ _ username) in Hrun by done.
      destruct (IH _ _ _ _ Hrun) as (eff & -> & Hcls & Hsub & Hfresh & Hmemo & Hres).
      exists (DbUsername (author_id tweet) (Returned username) :: eff).
      split; [by rewrite <- app_assoc|]. split; [by constructor|].
      split; [by apply sublist_skip|].
      split; [|split].
      * intros k Hk. cbn -[keyOf]. rewrite elem_of_cons. intros [->|Hin].
        { by rewrite Hknown in Hk. }
        eapply Hfresh; [|exact Hin]. rewrite readName_insert.
        destruct (decide _) as [E|]; [|done].
        rewrite <- E in Hk. by rewrite Hknown in Hk.
      * intros [|p l1] k u l2 E Hu; cbn -[keyOf] in E.
        { injection E as <- <- <-. apply Hfresh.
          rewrite readName_insert. by rewrite decide_True. }
        injection E as _ E. by eapply Hmemo.
      * destruct res as [m'|e]; [|].
        { intros k. rewrite Hres, readName_insert. cbn -[keyOf].
          destruct (decide (keyOf (author_id tweet) = k)) as [->|Hne].
          - rewrite bool_decide_eq_true_2 by done. rewrite last_cons.
            by destruct (last _).
          - by rewrite bool_decide_eq_false_2 by done. }
        rewrite last_cons. destruct (last eff); [done|].
        discriminate Hres.
    + rewrite (lookupUsernames_rejected _ _ _ _ _ e) in Hrun by done.
      injection Hrun as <- <-.
      exists [DbUsername (author_id tweet) (Threw e)].
      split; [done|]. split; [by repeat constructor|].
      split; [apply sublist_skip, sublist_nil_l|].
      split; [|split; [|done]].
      * intros k Hk. cbn -[keyOf]. rewrite elem_of_cons. intros [->|Hin].
        { by rewrite Hknown in Hk. }
        by apply not_elem_of_nil in Hin.
      * intros [|p [|??]] k u l2 E; cbn -[keyOf] in E; discriminate E.
Qed.

Lemma collectUsers_run env users : ∀ raw log0 res log,
  collectUsers env users raw log0 = (res, log) →
  ∃ eff, log = log0 ++ eff
    ∧ Forall (λ e, isDbUser e = true) eff
    ∧ match res with
      | Returned raw' =>
          raw' = raw ++ usersFound eff
          ∧ forallb (λ user, truthy (twitterId user)) users = true
      | Threw e =>
          e = AssertionFailed ∨ last eff ≫= rejection = Some e
      end.
Proof.
  induction users as [|user rest IH]; intros raw log0 res log Hrun.
  - cbn in Hrun. injection Hrun as <- <-. exists [].
    by rewrite !app_nil_r.
  - cbn [collectUsers] in Hrun. unfold bind at 1 in Hrun.
    cbn [forallb]. unfold assert in Hrun.
    destruct (twitterId user) as [id|];
      [destruct (truthy (Some id)) eqn:Hid|]; cbn in Hrun.
    + destruct (tryGetUserById env log0 id) as [found|e] eqn:Hans.
      * assert (∃ raw1, collectUsers env rest raw1
                          (log0 ++ [DbUser id (Returned found)])
                        = (res, log)
                        ∧ raw1 = raw ++ usersFound [DbUser id (Returned found)])
          as (raw1 & Hrest & ->).
        { destruct found as [u|]; eexists; (split; [exact Hrun|]); cbn;
            by rewrite ?app_nil_r. }
        destruct (IH _ _ _ _ Hrest) as (eff & -> & Hcls & Hres).
        exists (DbUser id (Returned found) :: eff).
        split; [by rewrite <- app_assoc|]. split; [by constructor|].
        destruct res as [raw'|e].
        { destruct Hres as [-> Hall]. split; [|done].
          rewrite <- app_assoc. f_equal. by destruct found. }
        destruct Hres as [->|Hlast]; [by left|right].
        rewrite last_cons. by destruct (last eff).
      * injection Hrun as <- <-. exists [DbUser id (Threw e)].
        split; [done|]. split; [by repeat constructor|]. by right.
    + injection Hrun as <- <-. exists []. rewrite app_nil_r.
      split; [done|]. split; [constructor|]. by left.
    + injection Hrun as <- <-. exists []. rewrite app_nil_r.
      split; [done|]. split; [constructor|]. by left.
Qed.

Lemma collectTweets_run env tweets : ∀ raw log0 res log,
  collectTweets env tweets raw log0 = (res, log) →
  ∃ eff, log = log0 ++ eff
    ∧ Forall (λ e, isDbTweet e = true) eff
    ∧ match res with
      | Returned raw' =>
          raw' = raw ++ tweetsFound eff
          ∧ forallb (λ tweet, truthy (entity_id tweet)) tweets = true
      | Threw e => e = AssertionFailed ∨ last eff ≫= rejection = Some e
      end.
Proof.
  induction tweets as [|tweet rest IH]; intros raw log0 res log Hrun.
  - cbn in Hrun. injection Hrun as <- <-. exists [].
    by rewrite !app_nil_r.
  - cbn [collectTweets] in Hrun. unfold bind at 1 in Hrun.
    cbn [forallb]. unfold assert in Hrun.
    destruct (entity_id tweet) as [id|];
      [destruct (truthy (Some id)) eqn:Hid|]; cbn in Hrun.
    + destruct (tryGetTweetById env log0 id) as [found|e] eqn:Hans.
      * assert (∃ raw1, collectTweets env rest raw1
                          (log0 ++ [DbTweet id (Returned found)])
                        = (res, log)
                        ∧ raw1 = raw ++ tweetsFound [DbTweet id (Returned found)])
          as (raw1 & Hrest & ->).
        { destruct found as [u|]; eexists; (split; [exact Hrun|]); cbn;
            by rewrite ?app_nil_r. }
        destruct (IH _ _ _ _ Hrest) as (eff & -> & Hcls & Hres).
        exists (DbTweet id (Returned found) :: eff).
        split; [by rewrite <- app_assoc|]. split; [by constructor|].
        destruct res as [raw'|e].
        { destruct Hres as [-> Hall]. split; [|done].
          rewrite <- app_assoc. f_equal. by destruct found. }
        destruct Hres as [->|Hlast]; [by left|right].
        rewrite last_cons. by destruct (last eff).
      * injection Hrun as <- <-. exists [DbTweet id (Threw e)].
        split; [done|]. split; [by repeat constructor|]. by right.
    + injection Hrun as <- <-. exists []. rewrite app_nil_r.
      split; [done|]. split; [constructor|]. by left.
    + injection Hrun as <- <-. exists []. rewrite app_nil_r.
      split; [done|]. split; [constructor|]. by left.
Qed.

Lemma omap_none {A B} (f : A → option B) (l : list A) :
  Forall (λ x, f x = None) l → omap f l = [].
Proof. induction 1 as [|x l Hx _ IH]; [done|]. cbn. by rewrite Hx. Qed.

Lemma filter_none {A} (f : A → bool) (l : list A) :
  Forall (λ x, f x = false) l → filter (λ x, f x = true) l = [].
Proof.
  induction 1 as [|x l Hx _ IH]; [done|].
  rewrite filter_cons_False; [done|]. by rewrite Hx.
Qed.

(** The calls of a phase are of one kind, and what is read off a run
    looks at one kind only. *)
Ltac other_kind :=
  match goal with
  | H : Forall _ ?eff |- _ =>
      first [apply omap_none | apply filter_none];
      eapply Forall_impl; [exact H|];
      let e := fresh in let K := fresh in
      intros e K; destruct e; first [done | discriminate K]
  end.

Lemma usernames_only eff :
  Forall (λ e, isDbUsername e = true) eff →
  usersFound eff = [] ∧ tweetsFound eff = [] ∧ modelRuns eff = [].
Proof. intros H. repeat split; unfold modelRuns; other_kind. Qed.

Lemma users_only eff :
  Forall (λ e, isDbUser e = true) eff →
  usernameLookups eff = [] ∧ (∀ k, usernameAnswers k eff = [])
  ∧ tweetsFound eff = [] ∧ modelRuns eff = [].
Proof. intros H. repeat split; intros; unfold modelRuns; other_kind. Qed.

Lemma tweets_only eff :
  Forall (λ e, isDbTweet e = true) eff →
  usernameLookups eff = [] ∧ (∀ k, usernameAnswers k eff = [])
  ∧ usersFound eff = [] ∧ modelRuns eff = [].
Proof. intros H. repeat split; intros; unfold modelRuns; other_kind. Qed.

Lemma promptOf_phases env query ctx eff1 eff2 eff3 m messages n answer :
  Forall (λ e, isDbUsername e = true) eff1 →
  Forall (λ e, isDbUser e = true) eff2 →
  Forall (λ e, isDbTweet e = true) eff3 →
  (∀ k, readName m k = default None (last (usernameAnswers k eff1))) →
  promptOf env query ctx (eff1 ++ eff2 ++ eff3 ++ [ModelRun messages n answer])
  = [ system (botPrompt (twitterBotHandle ctx) (getCurrentDate env));
      system (entitiesPrompt
                (stringifyEntities env
                   {| raw_users := [] ++ usersFound eff2;
                      raw_tweets := [] ++ tweetsFound eff3 |})) ]
    ++ (tweetMsg env ctx m <$> query_tweets query).
Proof.
  intros C1 C2 C3 Hm.
  destruct (usernames_only _ C1) as (U1 & T1 & _).
  destruct (users_only _ C2) as (_ & A2 & T2 & _).
  destruct (tweets_only _ C3) as (_ & A3 & U3 & _).
  unfold promptOf, usersFound, tweetsFound. rewrite !omap_app.
  fold (usersFound eff1) (usersFound eff2) (usersFound eff3).
  fold (tweetsFound eff1) (tweetsFound eff2) (tweetsFound eff3).
  rewrite U1, T1, T2, U3. cbn [omap]. rewrite !app_nil_r.
  f_equal. apply list_fmap_ext. intros _ tweet _.
  unfold tweetMsg. f_equal. rewrite Hm. unfold nameOf, usernameAnswers.
  rewrite !omap_app.
  fold (usernameAnswers (keyOf (author_id tweet)) eff1).
  fold (usernameAnswers (keyOf (author_id tweet)) eff2).
  fold (usernameAnswers (keyOf (author_id tweet)) eff3).
  rewrite A2, A3. cbn [omap]. by rewrite !app_nil_r.
Qed.

Lemma generate_run env query ctx res log :
  generateResponseForQuery env query ctx [] = (res, log) →
  ∃ eff1 eff2 eff3 eff4,
    log = eff1 ++ eff2 ++ eff3 ++ eff4
    ∧ Forall (λ e, isDbUsername e = true) eff1
    ∧ Forall (λ e, isDbUser e = true) eff2
    ∧ Forall (λ e, isDbTweet e = true) eff3
    ∧ sublist (usernameLookups eff1).*1
        (keyOf ∘ author_id <$> query_tweets query)
    ∧ (∀ l1 k u l2,
         usernameLookups eff1 = l1 ++ (k, Returned u) :: l2 →
         truthy u = true → k ∉ l2.*1)
    ∧ ((∃ e, res = Threw e ∧ eff4 = []
             ∧ (e = AssertionFailed ∨ last log ≫= rejection = Some e))
       ∨ (identified query = true
          ∧ ∃ answer,
              eff4 = [ModelRun (promptOf env query ctx log) 60 answer]
              ∧ res = match answer with
                      | Returned content => stripUserMentions env content
                      | Threw e => Threw e
                      end)).
Proof.
  intros Hrun. unfold generateResponseForQuery in Hrun.
  unfold bind at 1 in Hrun.
  destruct (lookupUsernames env (query_tweets query) ∅ [])
    as [[m|e] log1] eqn:R1;
    apply lookupUsernames_run in R1
      as (eff1 & E1 & C1 & S1 & _ & M1 & Hres1);
    cbn [app] in E1; subst log1.
  2:{ injection Hrun as <- <-. exists eff1, [], [], [].
      rewrite !app_nil_r. do 5 (split; [done || constructor|]).
      split; [done|]. left. exists e. split; [done|]. split; [done|]. by right. }
  unfold bind at 1 in Hrun.
  assert (∀ A B (l : option (list A)) (f : list A → M B) (z : M B),
            f [] = z →
            match l with Some x => f x | None => z end = f (default [] l))
    as Hdef by (by intros ???? z <-; destruct l).
  rewrite (Hdef _ _ _ (λ users, collectUsers env users []))
    in Hrun by done.
  destruct (collectUsers env (default [] (entityMap query ≫= entity_users))
              [] eff1) as [[users|e] log2] eqn:R2;
    apply collectUsers_run in R2 as (eff2 & -> & C2 & Hres2).
  2:{ injection Hrun as <- <-. exists eff1, eff2, [], [].
      rewrite !app_nil_r. do 5 (split; [done || constructor|]).
      split; [done|]. left. exists e. split; [done|]. split; [done|].
      destruct Hres2 as [->|Hlast]; [by left|right].
      rewrite last_app. by destruct (last eff2). }
  destruct Hres2 as [-> Husers].
  unfold bind at 1 in Hrun.
  rewrite (Hdef _ _ _ (λ tweets, collectTweets env tweets []))
    in Hrun by done.
  destruct (collectTweets env
              (default [] (entityMap query ≫= entity_tweets))
              [] (eff1 ++ eff2)) as [[tweets|e] log3] eqn:R3;
    apply collectTweets_run in R3 as (eff3 & -> & C3 & Hres3).
  2:{ injection Hrun as <- <-. exists eff1, eff2, eff3, [].
      rewrite !app_nil_r, <- app_assoc.
      do 5 (split; [done || constructor|]).
      split; [done|]. left. exists e. split; [done|]. split; [done|].
      destruct Hres3 as [->|Hlast]; [by left|right].
      rewrite app_assoc, last_app. by destruct (last eff3). }
  destruct Hres3 as [-> Htweets].
  unfold bind, await in Hrun.
  match type of Hrun with
  | context [ModelRun ?messages 60 ?answer] =>
      exists eff1, eff2, eff3, [ModelRun messages 60 answer];
      assert (log = eff1 ++ eff2 ++ eff3 ++ [ModelRun messages 60 answer]
              ∧ res = match answer with
                      | Returned content => stripUserMentions env content
                      | Threw e => Threw e
                      end) as [-> ->];
      [ destruct answer; injection Hrun as <- <-;
        by rewrite <- !app_assoc
      | do 5 (split; [done|]); split; [done|]; right;
        split; [unfold identified; by rewrite Husers, Htweets|];
        exists answer; split; [|done];
        do 2 f_equal; symmetry; apply promptOf_phases; try done ]
  end.
Qed.

Lemma omap_cons_Some {A B} (f : A → option B) x y l :
  f x = Some y → omap f (x :: l) = y :: omap f l.
Proof. intros H. cbn. by rewrite H. Qed.

Lemma usernameAnswers_lookups k log :
  usernameAnswers k log
  = omap (λ p, match p.2 with
               | Returned username =>
                   if bool_decide (p.1 = k) then Some username else None
               | Threw _ => None
               end) (usernameLookups log).
Proof.
  unfold usernameAnswers, usernameLookups.
  induction log as [|e log IH]; [done|].
  destruct e as [userId [username|err]| | |]; cbn -[keyOf]; try done.
  rewrite IH. by destruct (bool_decide _).
Qed.

Lemma generate_lookups env query ctx res log :
  generateResponseForQuery env query ctx [] = (res, log) →
  sublist (usernameLookups log).*1
    (keyOf ∘ author_id <$> query_tweets query)
  ∧ (∀ l1 k u l2,
       usernameLookups log = l1 ++ (k, Returned u) :: l2 →
       truthy u = true → k ∉ l2.*1).
Proof.
  intros Hrun.
  destruct (generate_run _ _ _ _ _ Hrun)
    as (eff1 & eff2 & eff3 & eff4 & E & C1 & C2 & C3 & S1 & M1 & H4).
  destruct (users_only _ C2) as (L2 & _).
  destruct (tweets_only _ C3) as (L3 & _).
  assert (usernameLookups eff4 = []) as L4.
  { destruct H4 as [(e & _ & -> & _)|(_ & answer & -> & _)]; done. }
  assert (usernameLookups log = usernameLookups eff1) as ->; [|done].
  rewrite E. unfold usernameLookups. rewrite !omap_app.
  fold (usernameLookups eff1) (usernameLookups eff2)
       (usernameLookups eff3) (usernameLookups eff4).
  by rewrite L2, L3, L4, !app_nil_r.
Qed.

Lemma generate_outcome env query ctx res log :
  generateResponseForQuery env query ctx [] = (res, log) →
  (modelRuns log = []
   ∧ ∃ e, res = Threw e
          ∧ (e = AssertionFailed ∨ last log ≫= rejection = Some e))
  ∨ (∃ answer,
       last log = Some (ModelRun (promptOf env query ctx log) 60 answer)
       ∧ modelRuns log = [ModelRun (promptOf env query ctx log) 60 answer]
       ∧ identified query = true
       ∧ res = match answer with
               | Returned content => stripUserMentions env content
               | Threw e => Threw e
               end).
Proof.
  intros Hrun.
  destruct (generate_run _ _ _ _ _ Hrun)
    as (eff1 & eff2 & eff3 & eff4 & E & C1 & C2 & C3 & _ & _ & H4).
  destruct (usernames_only _ C1) as (_ & _ & R1).
  destruct (users_only _ C2) as (_ & _ & _ & R2).
  destruct (tweets_only _ C3) as (_ & _ & _ & R3).
  assert (modelRuns log = modelRuns eff4) as Hruns.
  { rewrite E. unfold modelRuns. rewrite !filter_app.
    fold (modelRuns eff1) (modelRuns eff2) (modelRuns eff3).
    by rewrite R1, R2, R3. }
  destruct H4 as [(e & -> & E4 & He)|(Hid & answer & E4 & ->)].
  - left. rewrite Hruns, E4. split; [done|]. by exists e.
  - right. exists answer. rewrite Hruns, E4. split; [|done].
    rewrite E at 1. rewrite E4, !app_assoc. apply last_snoc.
Qed.

End AnswerEngineFacts.

(** X19: the store is asked for the user name of an author at most once
    after it has answered with a name: the lookups follow the posts of the
    thread in order, no key is asked again once a truthy name was answered
    for it, and that name is the one the prompt uses for the author. *)
Theorem username_lookups_memoised (env : AnswerEngine.Env)
    (query : AnswerEngine.AnswerEngineQuery)
    (ctx : AnswerEngine.AnswerEngineContext)
    (res : AnswerEngine.Result string) (log : list AnswerEngine.Effect) :
  AnswerEngine.generateResponseForQuery env query ctx [] = (res, log) →
  sublist (AnswerEngine.usernameLookups log).*1
    (AnswerEngine.keyOf ∘ AnswerEngine.author_id
       <$> AnswerEngine.query_tweets query)
  ∧ (∀ l1 k u l2,
       AnswerEngine.usernameLookups log
       = l1 ++ (k, AnswerEngine.Returned u) :: l2 →
       truthy u = true →
       (k ∉ l2.*1) ∧ AnswerEngine.nameOf log k = u).
Proof.
  intros Hrun. destruct (generate_lookups _ _ _ _ _ Hrun) as [Hsub Hmemo].
  split; [done|]. intros l1 k u l2 E Hu.
  pose proof (Hmemo _ _ _ _ E Hu) as Hk. split; [done|].
  unfold AnswerEngine.nameOf.
  rewrite usernameAnswers_lookups, E, omap_app.
  rewrite (omap_cons_Some _ _ u)
    by (cbn [fst snd]; by rewrite bool_decide_eq_true_2).
  rewrite (omap_none _ l2); [by rewrite last_snoc|].
  apply Forall_forall. intros [k' r] Hin. cbn [fst snd].
  destruct r as [username|]; [|done].
  rewrite bool_decide_eq_false_2; [done|]. intros ->.
  apply Hk. apply list_elem_of_fmap. by exists (k, AnswerEngine.Returned username).
Qed.

Lemma username_lookups_memoised_witness :
  ("2" ∉ ["1"; "3"; "3"])
  ∧ AnswerEngine.nameOf
      (AnswerEngine.generateResponseForQuery AnswerEngine.sampleEnv
         AnswerEngine.sampleQuery AnswerEngine.sampleCtx []).2 "2"
    = Some "alice".
Proof.
  refine (proj2
    (username_lookups_memoised AnswerEngine.sampleEnv
       AnswerEngine.sampleQuery AnswerEngine.sampleCtx _ _
       (surjective_pairing _))
    [] "2" (Some "alice")
    [("1", AnswerEngine.Returned (Some "xbot"));
     ("3", AnswerEngine.Returned None);
     ("3", AnswerEngine.Returned None)] _ _).
  - vm_compute. reflexivity.
  - reflexivity.
Defined.

(** X20: a run requests at most one chat completion. When it requests
    one, it is the last call of the run, with [max_tokens] 60 and the
    prompt made of the two system messages and one message per post of the
    thread, in order, named after what the store answered; every entity of
    the query then had an identifier, and the run returns the answer with
    its mentions stripped, or throws what the model or the stripping
    threw. When it requests none, the run throws: a failed assertion, or
    the rejection of its last call. *)
Theorem one_completion_per_run (env : AnswerEngine.Env)
    (query : AnswerEngine.AnswerEngineQuery)
    (ctx : AnswerEngine.AnswerEngineContext)
    (res : AnswerEngine.Result string) (log : list AnswerEngine.Effect) :
  AnswerEngine.generateResponseForQuery env query ctx [] = (res, log) →
  (AnswerEngine.modelRuns log = []
   ∧ ∃ e, res = AnswerEngine.Threw e
          ∧ (e = AnswerEngine.AssertionFailed
             ∨ last log ≫= AnswerEngine.rejection = Some e))
  ∨ (∃ answer,
       last log
       = Some (AnswerEngine.ModelRun
                 (AnswerEngine.promptOf env query ctx log) 60 answer)
       ∧ AnswerEngine.modelRuns log
         = [AnswerEngine.ModelRun
              (AnswerEngine.promptOf env query ctx log) 60 answer]
       ∧ AnswerEngine.identified query = true
       ∧ res = match answer with
               | AnswerEngine.Returned content =>
                   AnswerEngine.stripUserMentions env content
               | AnswerEngine.Threw e => AnswerEngine.Threw e
               end).
Proof. apply generate_outcome. Qed.

Lemma one_completion_per_run_witness :
  ∃ answer,
    AnswerEngine.modelRuns
      (AnswerEngine.generateResponseForQuery AnswerEngine.sampleEnv
         AnswerEngine.sampleQuery AnswerEngine.sampleCtx []).2
    = [AnswerEngine.ModelRun
         (AnswerEngine.promptOf AnswerEngine.sampleEnv
            AnswerEngine.sampleQuery AnswerEngine.sampleCtx
            (AnswerEngine.generateResponseForQuery AnswerEngine.sampleEnv
               AnswerEngine.sampleQuery AnswerEngine.sampleCtx []).2)
         60 answer].
Proof.
  destruct (one_completion_per_run AnswerEngine.sampleEnv
              AnswerEngine.sampleQuery AnswerEngine.sampleCtx _ _
              (surjective_pairing _))
    as [(_ & e & He & _)|(answer & _ & Hruns & _)].
  - vm_compute in He. discriminate He.
  - by exists answer.
Defined.

(** X21: when an entity of the query has no identifier, the run throws
    without requesting a chat completion: a failed assertion, or the
    rejection of the last call made before it. *)
Theorem unidentified_entity_throws (env : AnswerEngine.Env)
    (query : AnswerEngine.AnswerEngineQuery)
    (ctx : AnswerEngine.AnswerEngineContext)
    (res : AnswerEngine.Result string) (log : list AnswerEngine.Effect) :
  AnswerEngine.identified query = false →
  AnswerEngine.generateResponseForQuery env query ctx [] = (res, log) →
  ∃ e, res = AnswerEngine.Threw e
       ∧ AnswerEngine.modelRuns log = []
       ∧ (e = AnswerEngine.AssertionFailed
          ∨ last log ≫= AnswerEngine.rejection = Some e).
Proof.
  intros Hid Hrun.
  destruct (generate_outcome _ _ _ _ _ Hrun)
    as [(Hruns & e & -> & He)|(answer & _ & _ & Hid' & _)].
  - by exists e.
  - by rewrite Hid in Hid'.
Qed.

Lemma unidentified_entity_throws_witness :
  ∃ e,
    (AnswerEngine.generateResponseForQuery AnswerEngine.sampleEnv
       AnswerEngine.brokenQuery AnswerEngine.sampleCtx []).1
    = AnswerEngine.Threw e
    ∧ AnswerEngine.modelRuns
        (AnswerEngine.generateResponseForQuery AnswerEngine.sampleEnv
           AnswerEngine.brokenQuery AnswerEngine.sampleCtx []).2
      = [].
Proof.
  destruct (unidentified_entity_throws AnswerEngine.sampleEnv
              AnswerEngine.brokenQuery AnswerEngine.sampleCtx _ _
              ltac:(vm_compute; reflexivity) (surjective_pairing _))
    as (e & He & Hruns & _).
  by exists e.
Defined.
